(** * BoardBot frontend: state machines, message schemas and test metrics

    A shallow embedding of the TypeScript sources of the frontend
    (XState machines, Zod schemas, helper functions of the test runners)
    together with the properties stated about them. *)

From Stdlib Require Import ZArith QArith Lia Lqa Ascii String.
From stdpp Require Import base option list strings gmap fin_maps pretty.

Set Warnings "-register-all".

Local Open Scope string_scope.
Local Open Scope nat_scope.

(* ===================================================================== *)
(** * Order consistency: [longestCommonSubsequence]
    (consistencyTestRunnerMachine) *)
(* ===================================================================== *)

Module Lcs.

(** A [for (let k = lo; k <= hi; k++) body] loop over a state [S]; [None]
    is a run that left the domain of numbers (a read of [undefined]). *)
Definition for_loop {S : Type} (lo hi : nat) (body : nat → S → option S)
    (s : S) : option S :=
  foldl (λ acc k, acc ≫= body k) (Some s) (seq lo (hi + 1 - lo)).

(** [Array(m + 1).fill(null).map(() => Array(n + 1).fill(0))] *)
Definition dp_init (m n : nat) : list (list nat) :=
  replicate (m + 1) (replicate (n + 1) 0).

(** [dp[i][j]] as an rvalue: [None] when the row or the cell is missing
    (JavaScript reads [undefined] there). *)
Definition dp_get (dp : list (list nat)) (i j : nat) : option nat :=
  dp !! i ≫= λ row, row !! j.

(** [dp[i][j] = v]. A missing row is a TypeError in JavaScript; a cell
    past the end of the row would extend the row and leave holes. Both
    are [None] here: the table is allocated at full size and the loops
    below never leave it, which the correctness theorem establishes. *)
Definition dp_set (dp : list (list nat)) (i j v : nat) : option (list (list nat)) :=
  row ← dp !! i;
  if decide (j < length row) then Some (<[i := <[j := v]> row]> dp) else None.

(** Body of the inner loop. [arr1[i - 1] === arr2[j - 1]] compares two
    array reads; both are [undefined] (and equal) when out of range. *)
Definition lcs_cell (arr1 arr2 : list string) (i j : nat)
    (dp : list (list nat)) : option (list (list nat)) :=
  if decide (arr1 !! (i - 1) = arr2 !! (j - 1)) then
    d ← dp_get dp (i - 1) (j - 1);
    dp_set dp i j (d + 1)
  else
    a ← dp_get dp (i - 1) j;
    b ← dp_get dp i (j - 1);
    dp_set dp i j (Nat.max a b).

Definition longestCommonSubsequence (arr1 arr2 : list string) : option nat :=
  let m := length arr1 in
  let n := length arr2 in
  dp ← for_loop 1 m (λ i, for_loop 1 n (λ j, lcs_cell arr1 arr2 i j)) (dp_init m n);
  dp_get dp m n.

(** The reference: the textbook recursion on the two sequences. *)
Fixpoint lcs_ref (a b : list string) : nat :=
  match a with
  | [] => 0
  | x :: a' =>
      (fix inner (b : list string) : nat :=
         match b with
         | [] => 0
         | y :: b' =>
             if decide (x = y) then S (lcs_ref a' b')
             else Nat.max (lcs_ref a' b) (inner b')
         end) b
  end.

(** [lcs_ref] of the prefixes of lengths [i] and [j], read from their
    last elements, which is how the table is filled. *)
Definition prefix_lcs (arr1 arr2 : list string) (i j : nat) : nat :=
  lcs_ref (reverse (take i arr1)) (reverse (take j arr2)).

(** The table has [length arr1 + 1] rows of [length arr2 + 1] cells. *)
Definition table_shape (arr1 arr2 : list string) (dp : list (list nat)) : Prop :=
  length dp = length arr1 + 1
  ∧ ∀ r row, dp !! r = Some row → length row = length arr2 + 1.

(** The state of the table when the loops are at row [i], column [j]:
    rows before [i], and row [i] up to column [j], hold their final
    values; column 0 is zero everywhere. *)
Definition table_inv (arr1 arr2 : list string) (i j : nat)
    (dp : list (list nat)) : Prop :=
  table_shape arr1 arr2 dp
  ∧ (∀ r, r ≤ length arr1 → dp_get dp r 0 = Some 0)
  ∧ (∀ r c, r ≤ length arr1 → c ≤ length arr2 → r < i ∨ (r = i ∧ c < j) →
       dp_get dp r c = Some (prefix_lcs arr1 arr2 r c)).

End Lcs.


(* ===================================================================== *)
(** * JavaScript values and the Zod schemas of [types/] *)
(* ===================================================================== *)

Module Js.

(** Run-time values. Finite numbers are rationals; a [Date] is its time
    in milliseconds, [None] for an Invalid Date; [VRef] is a host object
    that the code only passes around (an actor reference, a socket). An
    object is a finite map from property names to values; a property
    may be present and hold [undefined]. *)
Inductive value :=
| VUndefined
| VNull
| VBool (b : bool)
| VNum (q : Q)
| VStr (s : string)
| VDate (t : option Z)
| VArr (l : list value)
| VObj (m : gmap string value)
| VRef (a : nat).

(** [o.k]: reading a property of an object; [undefined] when the
    property is missing. *)
Definition prop (m : gmap string value) (k : string) : value :=
  default VUndefined (m !! k).

(** [k in o] *)
Definition has_key (m : gmap string value) (k : string) : bool :=
  bool_decide (is_Some (m !! k)).

(** [v === undefined] *)
Definition is_undefined (v : value) : bool :=
  match v with VUndefined => true | _ => false end.

(** ** Zod schemas (the combinators the sources use) *)
Inductive schema :=
| ZString
| ZNumber
| ZBoolean
| ZDate
| ZAny
| ZUnknown
| ZLiteral (b : bool)
| ZEnum (values : list string)
| ZArray (item : schema)
| ZObject (shape : list (string * schema))
| ZUnion (a b : schema)
| ZRecord (item : schema)
| ZOptional (s : schema)
| ZNullable (s : schema)
| ZDefault (s : schema) (d : value)
| ZNewDate (s : schema).

(** Host functions: [new Date(str).getTime()] ([None]: Invalid Date) and
    [JSON.parse] ([None]: SyntaxError). *)
Class Host := {
  Date_parse : string → option Z;
  JSON_parse : string → option value
}.

Section Parse.
Context `{!Host}.

(** [new Date(val)] for the values the transform of
    [ResponseMessageSchema.timestamp] can receive. *)
Definition new_Date (v : value) : value :=
  match v with
  | VDate t => VDate t
  | VStr s => VDate (Date_parse s)
  | _ => VDate None
  end.

(** [schema.parse(v)]: [None] when Zod throws a ZodError. An object
    schema keeps the keys of its shape and strips the others; a key
    of the shape is set in the output when it is in the input or when
    its parsed value is not [undefined]. A union returns the result
    of its first option that accepts the input. *)
Fixpoint parse (s : schema) (v : value) {struct s} : option value :=
  match s with
  | ZString => match v with VStr _ => Some v | _ => None end
  | ZNumber => match v with VNum _ => Some v | _ => None end
  | ZBoolean => match v with VBool _ => Some v | _ => None end
  | ZDate => match v with VDate (Some _) => Some v | _ => None end
  | ZAny | ZUnknown => Some v
  | ZLiteral b =>
      match v with
      | VBool b' => if decide (b = b') then Some v else None
      | _ => None
      end
  | ZEnum values =>
      match v with
      | VStr x => if decide (x ∈ values) then Some v else None
      | _ => None
      end
  | ZArray item =>
      match v with
      | VArr l => VArr <$> mapM (parse item) l
      | _ => None
      end
  | ZObject shape =>
      match v with
      | VObj m =>
          VObj <$>
          (fix fields (sh : list (string * schema)) : option (gmap string value) :=
             match sh with
             | [] => Some ∅
             | (k, item) :: sh' =>
                 r ← parse item (prop m k);
                 rest ← fields sh';
                 Some (if has_key m k || negb (is_undefined r)
                       then <[k := r]> rest else rest)
             end) shape
      | _ => None
      end
  | ZUnion a b =>
      match parse a v with
      | Some r => Some r
      | None => parse b v
      end
  | ZRecord item =>
      match v with
      | VObj m =>
          VObj <$> map_fold (λ k x acc, out ← acc; r ← parse item x;
                                        Some (<[k := r]> out)) (Some ∅) m
      | _ => None
      end
  | ZOptional e => match v with VUndefined => Some VUndefined | _ => parse e v end
  | ZNullable e => match v with VNull => Some VNull | _ => parse e v end
  | ZDefault e d => match v with VUndefined => parse e d | _ => parse e v end
  | ZNewDate e => new_Date <$> parse e v
  end.

(** The fields of an object schema, named so that lemmas can speak
    about them. *)
Fixpoint parse_fields (m : gmap string value) (sh : list (string * schema))
    : option (gmap string value) :=
  match sh with
  | [] => Some ∅
  | (k, item) :: sh' =>
      r ← parse item (prop m k);
      rest ← parse_fields m sh';
      Some (if has_key m k || negb (is_undefined r)
            then <[k := r]> rest else rest)
  end.

(** A schema is stable when parsing an output of the schema again
    returns it unchanged (when it is accepted again). *)
Definition stable (s : schema) : Prop :=
  ∀ v r r', parse s v = Some r → parse s r = Some r' → r' = r.

(** A schema is settled when it accepts its outputs and returns them
    unchanged. *)
Definition settled (s : schema) : Prop :=
  ∀ v r, parse s v = Some r → parse s r = Some r.
End Parse.

(** ** Key conversion ([lib/caseConversion]) *)

Definition is_lower (c : ascii) : bool :=
  (97 <=? nat_of_ascii c) && (nat_of_ascii c <=? 122).
Definition is_upper (c : ascii) : bool :=
  (65 <=? nat_of_ascii c) && (nat_of_ascii c <=? 90).
Definition to_upper (c : ascii) : ascii :=
  if is_lower c then ascii_of_nat (nat_of_ascii c - 32) else c.
Definition to_lower (c : ascii) : ascii :=
  if is_upper c then ascii_of_nat (nat_of_ascii c + 32) else c.

(** Modelled from the spec: [lib/caseConversion] is not among the
    sources. The spec names a "JSON-to-camelCase key transformation";
    [snakeToCamel] turns an underscore followed by a lower-case letter
    into the upper-case letter. *)
Fixpoint snakeToCamel (s : string) : string :=
  match s with
  | EmptyString => EmptyString
  | String a t =>
      match t with
      | String c rest =>
          if Ascii.eqb a "_" && is_lower c
          then String (to_upper c) (snakeToCamel rest)
          else String a (snakeToCamel t)
      | EmptyString => String a EmptyString
      end
  end.

(** Modelled from the spec: [lib/caseConversion] is not among the
    sources. [camelToSnake] is the converse key transformation: an
    upper-case letter becomes an underscore and the lower-case letter. *)
Fixpoint camelToSnake (s : string) : string :=
  match s with
  | EmptyString => EmptyString
  | String a t =>
      if is_upper a then String "_" (String (to_lower a) (camelToSnake t))
      else String a (camelToSnake t)
  end.

(** A key is in snake_case when an underscore is followed by a
    lower-case letter somewhere in it. *)
Fixpoint has_snake (s : string) : bool :=
  match s with
  | EmptyString => false
  | String a t =>
      match t with
      | String c _ => (Ascii.eqb a "_" && is_lower c) || has_snake t
      | EmptyString => false
      end
  end.

Inductive direction := SnakeToCamel | CamelToSnake.

Definition convert_key (d : direction) : string → string :=
  match d with SnakeToCamel => snakeToCamel | CamelToSnake => camelToSnake end.

(** Modelled from the spec: [transformKeys] of [lib/caseConversion] is
    not among the sources. It renames the keys of one object and keeps
    the values. *)
Definition transformKeys (m : gmap string value) (d : direction)
    : gmap string value :=
  map_fold (λ k x acc, <[convert_key d k := x]> acc) ∅ m.

(** Modelled from the spec: [deepCamelCase] of [lib/caseConversion] is
    not among the sources. It renames the keys of an object to
    camelCase at every depth, through arrays. *)
Fixpoint deepCamelCase (v : value) : value :=
  match v with
  | VArr l => VArr (map deepCamelCase l)
  | VObj m => VObj (map_fold (λ k x acc, <[snakeToCamel k := deepCamelCase x]> acc) ∅ m)
  | _ => v
  end.

(** ** [types/productTypes.ts] *)

Definition opt_null (s : schema) : schema := ZNullable (ZOptional s).

Definition ProductSchema : schema :=
  ZObject [
    ("id", opt_null ZString);
    ("productId", ZString);
    ("duplicateIds", opt_null (ZArray ZString));
    ("name", ZString);
    ("manufacturer", ZString);
    ("formFactor", ZString);
    ("evaluationOrCommercialization", opt_null ZString);
    ("processorArchitecture", opt_null ZString);
    ("processorCoreCount", opt_null ZString);
    ("processorManufacturer", opt_null ZString);
    ("processorTdp", opt_null ZString);
    ("memory", opt_null ZString);
    ("onboardStorage", opt_null ZString);
    ("inputVoltage", opt_null ZString);
    ("ioCount", opt_null (ZArray ZString));
    ("wireless", opt_null (ZArray ZString));
    ("operatingSystemBsp", opt_null (ZArray ZString));
    ("operatingTemperatureMax", opt_null ZString);
    ("operatingTemperatureMin", opt_null ZString);
    ("certifications", opt_null (ZArray ZString));
    ("price", opt_null ZString);
    ("stockAvailability", opt_null ZString)
  ].

(** What [ProductSchema] asks of its attributes, attribute by
    attribute. *)
Definition is_string (v : value) : Prop := ∃ s, v = VStr s.
Definition is_string_array (v : value) : Prop := ∃ l, v = VArr (VStr <$> l).
Definition absent_or (P : value → Prop) (v : value) : Prop :=
  v = VUndefined ∨ v = VNull ∨ P v.

Definition required_attributes : list string :=
  ["productId"; "name"; "manufacturer"; "formFactor"].
Definition optional_string_attributes : list string :=
  ["id"; "evaluationOrCommercialization"; "processorArchitecture";
   "processorCoreCount"; "processorManufacturer"; "processorTdp"; "memory";
   "onboardStorage"; "inputVoltage"; "operatingTemperatureMax";
   "operatingTemperatureMin"; "price"; "stockAvailability"].
Definition optional_array_attributes : list string :=
  ["duplicateIds"; "ioCount"; "wireless"; "operatingSystemBsp"; "certifications"].

(** What [ProductSchema] asks of a camelCase object. *)
Definition product_shaped (d : gmap string value) : Prop :=
  Forall (λ k, is_string (prop d k)) required_attributes
  ∧ Forall (λ k, absent_or is_string (prop d k)) optional_string_attributes
  ∧ Forall (λ k, absent_or is_string_array (prop d k)) optional_array_attributes.

(** ** [types/chatTypes.ts] *)

Definition MODEL_VALUES : list string :=
  ["gpt-4o"; "gpt-4o-mini"; "gpt-4-turbo"; "gpt-3.5-turbo";
   "claude-3-sonnet-20240229"; "claude-3-5-haiku-20241022"].
Definition ModelSchema : schema := ZEnum MODEL_VALUES.

Definition ARCHITECTURE_VALUES : list string :=
  ["semantic-router"; "llm-router"; "hybrid-router"; "dynamic-agent"].
Definition ArchitectureSchema : schema := ZEnum ARCHITECTURE_VALUES.

Definition HISTORY_MANAGEMENT_VALUES : list string :=
  ["keep-none"; "keep-last-5"; "keep-all"].
Definition HistoryManagementSchema : schema := ZEnum HISTORY_MANAGEMENT_VALUES.

Definition BaseMessageShape : list (string * schema) :=
  [ ("messageId", ZString);
    ("timestamp", ZDate);
    ("isComplete", ZBoolean);
    ("model", ModelSchema);
    ("architectureChoice", ArchitectureSchema);
    ("historyManagementChoice", HistoryManagementSchema) ].

(** [BaseMessageSchema.extend({ isUserMessage, message })] *)
Definition RequestMessageSchema : schema :=
  ZObject (BaseMessageShape ++
    [ ("isUserMessage", ZLiteral true); ("message", ZString) ]).

Definition ResponseContentSchema : schema :=
  ZObject [
    ("type", ZString);
    ("message", ZString);
    ("products", ZOptional (ZArray ProductSchema));
    ("reasoning", ZOptional ZString);
    ("followUpQuestion", ZOptional (ZUnion ZString (ZArray ZString)));
    ("metadata", ZOptional (ZRecord ZUnknown))
  ].

Definition ResponseMessageSchema : schema :=
  ZObject [
    ("messageId", ZString);
    ("sessionId", ZString);
    ("message", ResponseContentSchema);
    ("isComplete", ZBoolean);
    ("model", ModelSchema);
    ("architectureChoice", ArchitectureSchema);
    ("historyManagementChoice", HistoryManagementSchema);
    ("isUserMessage", ZLiteral false);
    ("timestamp", ZNewDate (ZUnion ZDate ZString))
  ].

Definition ChatHistoryItemSchema : schema :=
  ZUnion RequestMessageSchema ResponseMessageSchema.

Definition RequestDataSchema : schema :=
  ZObject [
    ("type", ZString);
    ("sessionId", ZString);
    ("messageId", ZString);
    ("message", ZString);
    ("timestamp", ZOptional ZString);
    ("model", ModelSchema);
    ("architectureChoice", ArchitectureSchema);
    ("historyManagementChoice", HistoryManagementSchema)
  ].

Arguments ProductSchema : simpl never.
Arguments RequestMessageSchema : simpl never.
Arguments ResponseContentSchema : simpl never.
Arguments ResponseMessageSchema : simpl never.
Arguments ChatHistoryItemSchema : simpl never.

Definition requestDataToJson (data : gmap string value) : gmap string value :=
  transformKeys data CamelToSnake.

Section FromJson.
Context `{!Host}.

(** [productFromJson]: [None] is the thrown "Invalid product data". *)
Definition productFromJson (productJson : gmap string value) : option value :=
  let camelCaseData := transformKeys productJson SnakeToCamel in
  parse ProductSchema (VObj camelCaseData).

(** The statements of [responseMessageFromJson] before the final
    [ResponseMessageSchema.parse], one function per in-place edit of
    [camelCaseData]. *)

(** [if (typeof camelCaseData.message === "string")
      camelCaseData.message = JSON.parse(camelCaseData.message)];
    [None] is the thrown "Invalid message format". *)
Definition parse_message_string (camelCaseData : gmap string value)
    : option (gmap string value) :=
  match prop camelCaseData "message" with
  | VStr text =>
      parsed ← JSON_parse text;
      Some (<["message" := parsed]> camelCaseData)
  | _ => Some camelCaseData
  end.

(** [camelCaseData.message = deepCamelCase(camelCaseData.message)] *)
Definition deep_camel_message (camelCaseData : gmap string value)
    : gmap string value :=
  <["message" := deepCamelCase (prop camelCaseData "message")]> camelCaseData.

(** Map 'response' to 'message' in the message object if 'message'
    is undefined. The condition asks for an object, which [null],
    strings and numbers are not, and reads its two properties, which
    an array does not have. *)
Definition response_to_message (camelCaseData : gmap string value)
    : gmap string value :=
  match prop camelCaseData "message" with
  | VObj message =>
      if is_undefined (prop message "message")
         && negb (is_undefined (prop message "response"))
      then <["message" :=
               VObj (delete "response"
                       (<["message" := prop message "response"]> message))]>
             camelCaseData
      else camelCaseData
  | _ => camelCaseData
  end.

(** Convert the 'id' field to 'messageId' if it exists. *)
Definition id_to_messageId (camelCaseData : gmap string value)
    : gmap string value :=
  if has_key camelCaseData "id" && negb (has_key camelCaseData "messageId")
  then delete "id" (<["messageId" := prop camelCaseData "id"]> camelCaseData)
  else camelCaseData.

(** Set isUserMessage to false if it's not present. *)
Definition default_isUserMessage (camelCaseData : gmap string value)
    : gmap string value :=
  if is_undefined (prop camelCaseData "isUserMessage")
  then <["isUserMessage" := VBool false]> camelCaseData
  else camelCaseData.

Definition normalizeResponse (json : gmap string value)
    : option (gmap string value) :=
  camelCaseData ← parse_message_string (transformKeys json SnakeToCamel);
  Some (default_isUserMessage
          (id_to_messageId
             (response_to_message
                (deep_camel_message camelCaseData)))).

(** [responseMessageFromJson]: [None] is the thrown "Invalid response
    data", which the outer [catch] raises for every error of the
    body. *)
Definition responseMessageFromJson (json : gmap string value) : option value :=
  camelCaseData ← normalizeResponse json;
  parse ResponseMessageSchema (VObj camelCaseData).

(** The normalization in the words of its description: the
    [message] field, JSON-parsed when it is a string ([None] when the
    string is not valid JSON). *)
Definition parsed_message (d : gmap string value) : option value :=
  match prop d "message" with
  | VStr text => JSON_parse text
  | v => Some v
  end.
End FromJson.

(** In the words of the description: inside the message object,
    [response] is renamed to [message] when [message] is undefined
    (and there is a [response] to rename). *)
Definition rename_response (message : value) : value :=
  match message with
  | VObj m =>
      if is_undefined (prop m "message") && negb (is_undefined (prop m "response"))
      then VObj (<["message" := prop m "response"]> (delete "response" m))
      else message
  | _ => message
  end.

(** ** Operators *)

(** [ToBoolean(v)]: what [v || d] and [v ? a : b] test. *)
Definition truthy (v : value) : bool :=
  match v with
  | VUndefined | VNull => false
  | VBool b => b
  | VNum q => negb (Qeq_bool q 0)
  | VStr s => negb (String.eqb s "")
  | VDate _ | VArr _ | VObj _ | VRef _ => true
  end.

(** [a || b] *)
Definition or_else (a b : value) : value := if truthy a then a else b.

(** [v.k] for a property name [k] that is neither an index nor a
    built-in property of strings and arrays: a TypeError ([None]) on
    [undefined] and [null], the property of an object, and
    [undefined] on every other value. *)
Definition read (v : value) (k : string) : option value :=
  match v with
  | VUndefined | VNull => None
  | VObj m => Some (prop m k)
  | _ => Some VUndefined
  end.

(** [{ ...v }]: the own enumerable properties of [v]. Those of an
    array are its elements and those of a string its characters,
    under their indices; numbers, booleans, [null] and [undefined]
    have none. *)
Definition spread (v : value) : gmap string value :=
  match v with
  | VObj m => m
  | VArr l => list_to_map (imap (λ i x, (pretty i, x)) l)
  | VStr s =>
      list_to_map (imap (λ i c, (pretty i, VStr (String c EmptyString)))
                        (list_ascii_of_string s))
  | _ => ∅
  end.

End Js.

(* ===================================================================== *)
(** * Shared vocabulary of the machines *)
(* ===================================================================== *)

(** [emit({ type: "notification", data: { type, message } })] *)
Record notification := Notification {
  notification_type : string;
  notification_message : string
}.

(** The result of delivering one event to an actor. An exception thrown
    by an action, by an assigner or by the input mapper of an invoke is
    not an event of the machine: XState stops the actor with status
    "error", and no transition of the machine handles it. *)
Inductive outcome (config effect : Type) :=
| Next (c : config) (effects : list effect)
| ActorError.
Arguments Next {config effect} c effects.
Arguments ActorError {config effect}.

(* ===================================================================== *)
(** * [machines/chatMachine.ts]: persistence of the chat state *)
(* ===================================================================== *)

Module Chat.
Import Js.

Definition ChatContextSchema : schema :=
  ZObject [
    ("sessionId", ZString);
    ("webSocketRef", ZAny);
    ("chatHistory", ZArray ChatHistoryItemSchema);
    ("model", ModelSchema);
    ("architecture", ArchitectureSchema);
    ("historyManagement", HistoryManagementSchema)
  ].

(** [chatRef.getSnapshot()]: the context object and the state value. *)
Record snapshot := Snapshot {
  snapshot_context : gmap string value;
  snapshot_value : value
}.

Definition serializeChatState (chatRef : snapshot) : gmap string value :=
  let c := snapshot_context chatRef in
  <["sessionId" := prop c "sessionId"]>
  (<["chatHistory" := prop c "chatHistory"]>
  (<["model" := prop c "model"]>
  (<["architecture" := prop c "architecture"]>
  (<["historyManagement" := prop c "historyManagement"]>
  (<["currentState" := snapshot_value chatRef]> ∅))))).

(** [None] is the ZodError of [ChatContextSchema.parse]. *)
Definition deserializeChatState `{!Host} (savedState : value)
    : option (gmap string value) :=
  parsedState ← parse ChatContextSchema savedState;
  match parsedState with
  | VObj parsedState => Some (<["webSocketRef" := VUndefined]> parsedState)
  | _ => None
  end.

(** The [context] factory of the chat machine; [uuid] is the
    identifier that [uuidv4()] returns and [webSocketRef] the
    reference of the webSocket actor that the factory spawns. [None]
    is the ZodError of [ChatContextSchema.parse], which
    [spawn(chatMachine, { input })] lets through to its caller. *)
Definition context_factory `{!Host} (uuid : string) (webSocketRef : value)
    (input : gmap string value) : option value :=
  parse ChatContextSchema
    (VObj (list_to_map [
       ("sessionId", or_else (prop input "sessionId") (VStr uuid));
       ("webSocketRef", webSocketRef);
       ("chatHistory", or_else (prop input "chatHistory") (VArr []));
       ("model", prop input "model");
       ("architecture", prop input "architecture");
       ("historyManagement", prop input "historyManagement") ])).

End Chat.

(* ===================================================================== *)
(** * [machines/accuracyTestRunnerMachine.ts] *)
(* ===================================================================== *)

Module AccuracyRunner.

(** JavaScript numbers that the runner computes: quotients of array
    lengths and their multiples. Rationals stand for the finite
    doubles. *)
Inductive number :=
| Fin (q : Q)
| NaN
| Infinity.

(** [a / b] for two array lengths. *)
Definition div_length (a b : nat) : number :=
  match b with
  | O => match a with O => NaN | _ => Infinity end
  | _ => Fin (Z.of_nat a # Pos.of_nat b)
  end.

(** [x * k] for a positive constant [k]. *)
Definition times (x : number) (k : positive) : number :=
  match x with
  | Fin q => Fin (q * (Z.pos k # 1))
  | NaN => NaN
  | Infinity => Infinity
  end.

(** A product: its [name], and the other attributes of [ProductSchema],
    which the runner never reads. *)
Record Product := {
  name : string;
  attributes : gmap string Js.value
}.

(** [String.prototype.toLowerCase] follows the Unicode case mapping of
    the host. It is a parameter of the development, which assumes
    nothing about it. *)
Class Unicode := {
  toLowerCase : string → string
}.

Section Runner.
Context `{!Unicode}.

(** [p.name.toLowerCase()] *)
Definition lower_name (p : Product) : string := toLowerCase (name p).

Definition calculateProductAccuracy (actualProducts : list Product)
    (expectedProducts : option (list Product)) : number :=
  match expectedProducts with
  | None => Fin 1
  | Some expectedProducts =>
      let expectedProductNames : gset string :=
        list_to_set (lower_name <$> expectedProducts) in
      let matchedProducts :=
        filter (λ p, lower_name p ∈ expectedProductNames) actualProducts in
      div_length (length matchedProducts) (length expectedProducts)
  end.

(** [productAccuracy > 0.4] *)
Definition isTestPassed (productAccuracy : number) : bool :=
  match productAccuracy with
  | Fin q => if Qlt_le_dec (4 # 10) q then true else false
  | NaN => false
  | Infinity => true
  end.

Record TestCase := {
  messageId : string;
  prompt : string;
  testType : string;
  description : string;
  products : option (list Product)
}.

Record ResponseContent := {
  content_type : string;
  content_message : string;
  content_products : option (list Product);
  content_reasoning : option string
}.

Record ResponseMessage := {
  response_messageId : string;
  response_sessionId : string;
  response_message : ResponseContent;
  response_isComplete : bool;
  response_model : string;
  response_architectureChoice : string;
  response_historyManagementChoice : string;
  response_timestamp : option Z
}.

Record AccuracyTestResult := {
  response : ResponseMessage;
  productAccuracy : number;
  passed : bool
}.

(** The request of [sendNextMessage]; its [timestamp] is the current
    time and is left out. *)
Record RequestData := {
  request_type : string;
  request_sessionId : string;
  request_messageId : string;
  request_message : string;
  request_model : string;
  request_architectureChoice : string;
  request_historyManagementChoice : string
}.

Record context := {
  webSocketRef : option nat;
  runner_name : string;
  sessionId : string;
  testCases : list TestCase;
  testResults : list AccuracyTestResult;
  currentTestIndex : nat;
  batchSize : Z;
  testTimeout : Z;
  progress : number;
  model : string;
  architecture : string;
  historyManagement : string
}.

Inductive running_state := sendingMessage | evaluatingResult | paused.

Inductive state :=
| idle
| connecting
| running (sub : running_state)
| disconnecting.

Inductive event :=
| user_startTest
| webSocket_connected
| user_pauseTest
| webSocket_messageReceived (data : ResponseMessage)
| user_continueTest
| user_stopTest
| webSocket_disconnected.

(** Messages for the webSocket actor. *)
Inductive message :=
| parentActor_connect (sessionId : string)
| parentActor_sendMessage (data : RequestData)
| parentActor_disconnect.

(** What a macrostep does to the outside: [spawn(webSocketMachine)]
    (with the reference it returns) and [sendTo(context.webSocketRef,
    ...)]. *)
Inductive effect :=
| spawn (ref : nat)
| sendTo (ref : option nat) (m : message).

Definition config : Type := state * context.

Definition set_webSocketRef (c : context) (r : option nat) : context :=
  {| webSocketRef := r; runner_name := runner_name c;
     sessionId := sessionId c; testCases := testCases c;
     testResults := testResults c; currentTestIndex := currentTestIndex c;
     batchSize := batchSize c; testTimeout := testTimeout c;
     progress := progress c; model := model c;
     architecture := architecture c; historyManagement := historyManagement c |}.

Definition set_testResults (c : context) (r : list AccuracyTestResult) : context :=
  {| webSocketRef := webSocketRef c; runner_name := runner_name c;
     sessionId := sessionId c; testCases := testCases c; testResults := r;
     currentTestIndex := currentTestIndex c; batchSize := batchSize c;
     testTimeout := testTimeout c; progress := progress c; model := model c;
     architecture := architecture c; historyManagement := historyManagement c |}.

Definition set_currentTestIndex (c : context) (i : nat) : context :=
  {| webSocketRef := webSocketRef c; runner_name := runner_name c;
     sessionId := sessionId c; testCases := testCases c;
     testResults := testResults c; currentTestIndex := i;
     batchSize := batchSize c; testTimeout := testTimeout c;
     progress := progress c; model := model c;
     architecture := architecture c; historyManagement := historyManagement c |}.

Definition set_progress (c : context) (p : number) : context :=
  {| webSocketRef := webSocketRef c; runner_name := runner_name c;
     sessionId := sessionId c; testCases := testCases c;
     testResults := testResults c; currentTestIndex := currentTestIndex c;
     batchSize := batchSize c; testTimeout := testTimeout c; progress := p;
     model := model c; architecture := architecture c;
     historyManagement := historyManagement c |}.

(** [sendNextMessage]: [None] when [testCases[currentTestIndex]] is
    [undefined] (a TypeError). *)
Definition sendNextMessage (c : context) : option effect :=
  tc ← testCases c !! currentTestIndex c;
  Some (sendTo (webSocketRef c) (parentActor_sendMessage
    {| request_type := "textMessage";
       request_sessionId := sessionId c;
       request_messageId := messageId tc;
       request_message := prompt tc;
       request_model := model c;
       request_architectureChoice := architecture c;
       request_historyManagementChoice := "keep-none" |})).

(** [updateTestResults]: [None] when the assigner throws: no current
    test case, a test case without expected products, or a response
    without products (the [filter] call inside
    [calculateProductAccuracy] on [undefined]). *)
Definition updateTestResults (c : context) (data : ResponseMessage)
    : option context :=
  currentTestCase ← testCases c !! currentTestIndex c;
  expected ← products currentTestCase;
  actual ← content_products (response_message data);
  let productAccuracy := calculateProductAccuracy actual (Some expected) in
  let testResult :=
    {| response := data; productAccuracy := productAccuracy;
       passed := isTestPassed productAccuracy |} in
  Some (set_testResults c (testResults c ++ [testResult])).

Definition increaseCurrentTestIndex (c : context) : context :=
  set_currentTestIndex c (currentTestIndex c + 1).

Definition increaseProgress (c : context) : context :=
  set_progress c
    (times (div_length (currentTestIndex c + 1) (length (testCases c))) 100).

(** [currentTestIndex >= testCases.length - 1] *)
Definition testIsComplete (c : context) : bool :=
  (Z.of_nat (length (testCases c)) - 1 <=? Z.of_nat (currentTestIndex c))%Z.

(** Entering [running.sendingMessage] runs [sendNextMessage]. *)
Definition enter_sendingMessage (c : context) : outcome config effect :=
  match sendNextMessage c with
  | Some e => Next (running sendingMessage, c) [e]
  | None => ActorError
  end.

Definition enter_disconnecting (c : context) : outcome config effect :=
  Next (disconnecting, c) [sendTo (webSocketRef c) parentActor_disconnect].

(** Entering [idle] spawns a webSocket actor and stores its reference;
    references are numbered in the order of their creation. *)
Definition enter_idle (c : context) : outcome config effect :=
  let ref := match webSocketRef c with Some r => S r | None => 0 end in
  Next (idle, set_webSocketRef c (Some ref)) [spawn ref].

(** One macrostep: the transition taken for the event, followed by the
    eventless transition out of [evaluatingResult]. Assign actions of
    one transition run in order, each on the context left by the
    previous one. *)
Definition step (cfg : config) (ev : event) : outcome config effect :=
  let '(s, c) := cfg in
  match s, ev with
  | idle, user_startTest =>
      Next (connecting, c) [sendTo (webSocketRef c) (parentActor_connect (sessionId c))]
  | connecting, webSocket_connected => enter_sendingMessage c
  | running _, user_stopTest => enter_disconnecting c
  | running _, user_pauseTest => Next (running paused, c) []
  | running sendingMessage, webSocket_messageReceived data =>
      match updateTestResults c data with
      | None => ActorError
      | Some c =>
          let c := increaseCurrentTestIndex c in
          let c := increaseProgress c in
          (* evaluatingResult: always *)
          if testIsComplete c then enter_disconnecting c
          else enter_sendingMessage c
      end
  | running paused, user_continueTest => enter_sendingMessage c
  | disconnecting, webSocket_disconnected => enter_idle c
  | _, _ => Next (s, c) []
  end.

(** Delivering a sequence of events; the effects accumulate. *)
Fixpoint run (cfg : config) (evs : list event) : outcome config effect :=
  match evs with
  | [] => Next cfg []
  | ev :: evs =>
      match step cfg ev with
      | ActorError => ActorError
      | Next cfg' out =>
          match run cfg' evs with
          | ActorError => ActorError
          | Next cfg'' out' => Next cfg'' (out ++ out')
          end
      end
  end.

(** The context built from the machine input, with the defaults of the
    [context] factory; the machine starts by entering [idle]. *)
Definition initial_context (name sid : string) (cases : list TestCase)
    (model architecture historyManagement : string) : context :=
  {| webSocketRef := None; runner_name := name; sessionId := sid;
     testCases := cases; testResults := []; currentTestIndex := 0;
     batchSize := 1%Z; testTimeout := 10000%Z; progress := Fin 0; model := model;
     architecture := architecture; historyManagement := historyManagement |}.

Definition start (c : context) : config :=
  (idle, set_webSocketRef c (Some 0)).

(** A test case with expected products, a response with products: the
    inputs on which [updateTestResults] does not throw. *)
Definition has_expected (tc : TestCase) : Prop := is_Some (products tc).
Definition has_products (r : ResponseMessage) : Prop :=
  is_Some (content_products (response_message r)).

(** The request that [sendNextMessage] sends for a test case. *)
Definition request_for (c : context) (tc : TestCase) : effect :=
  sendTo (webSocketRef c) (parentActor_sendMessage
    {| request_type := "textMessage";
       request_sessionId := sessionId c;
       request_messageId := messageId tc;
       request_message := prompt tc;
       request_model := model c;
       request_architectureChoice := architecture c;
       request_historyManagementChoice := "keep-none" |}).
End Runner.

End AccuracyRunner.

(* ===================================================================== *)
(** * [machines/webSocketMachine.ts] *)
(* ===================================================================== *)

Module WebSocket.
Import Js.

Definition MAX_RECONNECTION_ATTEMPTS : nat := 5.

Record context := {
  socket : option nat;
  sessionId : option string;
  reconnectionAttempts : nat
}.

Inductive state := idle | connecting | connected | reconnecting | disconnecting.

(** The events of the machine, and the two results of the invoked
    [socketConnector] promise. *)
Inductive event :=
| parentActor_connect (sessionId : string)
| parentActor_sendMessage (data : value)
| parentActor_disconnect
| socketListener_messageReceived (data : value)
| socketListener_disconnected
| socketConnector_done (socket : nat) (data : value)
| socketConnector_error.

Inductive parent_event :=
| webSocket_connected
| webSocket_messageReceived (data : value)
| webSocket_disconnected.

(** What a macrostep does to the outside. [invoke_socketConnector] is
    the start of a connection attempt ([io(SOCKET_URL, ...)]). *)
Inductive effect :=
| invoke_socketConnector (sessionId : option string)
| invoke_socketListener (socket : option nat)
| sendParent (e : parent_event)
| emit (n : notification)
| socket_emit (socket : nat) (name : string) (payload : value)
| socket_close (socket : nat).

Definition config : Type := state * context.

Definition initial : config :=
  (idle, {| socket := None; sessionId := None; reconnectionAttempts := 0 |}).

(** [context.sessionId] as a value: a string or [null]. *)
Definition sessionId_value (c : context) : value :=
  match sessionId c with Some sid => VStr sid | None => VNull end.

(** [{ ...data }]: the properties of an object. The spread of a value
    that is not an object has none of the keys of a schema. *)
Definition spread (data : value) : gmap string value :=
  match data with VObj m => m | _ => ∅ end.

(** The [sendMessage] action: [None] when [RequestDataSchema.parse]
    throws. *)
Definition sendMessage `{!Host} (c : context) (ev : event) : option (list effect) :=
  match ev with
  | parentActor_sendMessage data =>
      message ← parse RequestDataSchema
                  (VObj (<["sessionId" := sessionId_value c]> (spread data)));
      match message with
      | VObj message =>
          let snake_case_message := requestDataToJson message in
          Some (match socket c with
                | Some sk => [socket_emit sk "text_message" (VObj snake_case_message)]
                | None => []
                end)
      | _ => None
      end
  | _ => Some []
  end.

Definition canReconnect (c : context) : bool :=
  reconnectionAttempts c <? MAX_RECONNECTION_ATTEMPTS.

Definition enter_connecting (c : context) : config * list effect :=
  ((connecting, c), [invoke_socketConnector (sessionId c)]).

(** [reconnecting]: the entry action counts the attempt, then the first
    eventless transition whose guard holds is taken. *)
Definition enter_reconnecting (c : context) : config * list effect :=
  let c := {| socket := socket c; sessionId := sessionId c;
              reconnectionAttempts := reconnectionAttempts c + 1 |} in
  if canReconnect c then
    ((idle, c),
     [emit (Notification "error" "Failed to reconnect after multiple attempts")])
  else enter_connecting c.

(** [disconnecting]: close the socket, tell the parent, go to [idle]. *)
Definition enter_disconnecting (c : context) : config * list effect :=
  ((idle, c),
   (match socket c with Some sk => [socket_close sk] | None => [] end
    ++ [sendParent webSocket_disconnected])%list).

Definition step `{!Host} (cfg : config) (ev : event) : outcome config effect :=
  let '(s, c) := cfg in
  match s, ev with
  | idle, parentActor_connect sid =>
      let c := {| socket := socket c; sessionId := Some sid;
                  reconnectionAttempts := 0 |} in
      let '(cfg, out) := enter_connecting c in Next cfg out
  | connecting, socketConnector_done sk _ =>
      let c := {| socket := Some sk; sessionId := sessionId c;
                  reconnectionAttempts := reconnectionAttempts c |} in
      Next (connected, c)
        [sendParent webSocket_connected;
         emit (Notification "success" "Connected to the server");
         invoke_socketListener (socket c)]
  | connecting, socketConnector_error =>
      let '(cfg, out) := enter_reconnecting c in
      Next cfg (emit (Notification "error" "Failed to connect to the server") :: out)
  | connected, parentActor_sendMessage _ =>
      match sendMessage c ev with
      | Some out => Next (connected, c) out
      | None => ActorError
      end
  | connected, socketListener_messageReceived data =>
      Next (connected, c) [sendParent (webSocket_messageReceived data)]
  | connected, socketListener_disconnected =>
      let '(cfg, out) := enter_reconnecting c in Next cfg out
  | connected, parentActor_disconnect =>
      let '(cfg, out) := enter_disconnecting c in Next cfg out
  | _, _ => Next (s, c) []
  end.

Fixpoint run `{!Host} (cfg : config) (evs : list event) : outcome config effect :=
  match evs with
  | [] => Next cfg []
  | ev :: evs =>
      match step cfg ev with
      | ActorError => ActorError
      | Next cfg' out =>
          match run cfg' evs with
          | ActorError => ActorError
          | Next cfg'' out' => Next cfg'' (out ++ out')
          end
      end
  end.

(** A connection attempt is started by the macrostep. *)
Definition starts_connection (out : list effect) : bool :=
  existsb (λ e, match e with invoke_socketConnector _ => true | _ => false end) out.

Definition failure_notified (out : list effect) : bool :=
  existsb (λ e, match e with
                | emit (Notification "error" "Failed to reconnect after multiple attempts") => true
                | _ => false
                end) out.

(** The configurations that the machine can be in between two events. *)
Inductive reachable `{!Host} : config → Prop :=
| reachable_initial : reachable initial
| reachable_step cfg ev cfg' out :
    reachable cfg → step cfg ev = Next cfg' out → reachable cfg'.

(** Between two events the machine rests in [idle], [connecting] or
    [connected]; the counter is 0 while connecting or connected and at
    most 1 in [idle]. *)
Definition rests (cfg : config) : Prop :=
  match cfg.1 with
  | idle => reconnectionAttempts cfg.2 ≤ 1
  | connecting | connected => reconnectionAttempts cfg.2 = 0
  | reconnecting | disconnecting => False
  end.

End WebSocket.

(* ===================================================================== *)
(** * [types/testTypes.ts] *)
(* ===================================================================== *)

Module TestTypes.
Import Js.

Definition TEST_TYPES : list string :=
  ["accuracy"; "consistency"; "feature_inference"; "context_retention";
   "robustness"; "conversational_flow"; "defensibility"].

Definition TestTypeSchema : schema := ZEnum TEST_TYPES.

(** [schema.partial()]: every field of the object schema becomes
    optional. *)
Definition partial (s : schema) : schema :=
  match s with
  | ZObject shape => ZObject ((λ ks, (ks.1, ZOptional ks.2)) <$> shape)
  | _ => s
  end.

Fixpoint remove_optional (s : schema) : schema :=
  match s with
  | ZOptional e => remove_optional e
  | _ => s
  end.

(** [schema.required({ key: true })]: the field [key] loses its
    optional wrappers. *)
Definition required (key : string) (s : schema) : schema :=
  match s with
  | ZObject shape =>
      ZObject ((λ ks, if decide (ks.1 = key)
                      then (ks.1, remove_optional ks.2) else ks) <$> shape)
  | _ => s
  end.

(** [ProductSchema.partial().required({ name: true })] of
    [types/productTypes.ts] *)
Definition ExpectedProductSchema : schema :=
  required "name" (partial ProductSchema).

Definition TestCaseSchema : schema :=
  ZObject [
    ("messageId", ZString);
    ("prompt", ZString);
    ("testType", TestTypeSchema);
    ("description", ZString);
    ("products", ZOptional (ZArray ExpectedProductSchema));
    ("variations", ZOptional (ZArray ZString));
    ("conversation",
       ZOptional (ZArray (ZObject [
         ("turn", ZNumber);
         ("query", ZString);
         ("expected_filters", ZOptional (ZRecord ZAny));
         ("message", ZOptional ZString) ])));
    ("expected_filters", ZOptional (ZRecord ZAny));
    ("category", ZOptional ZString);
    ("metadata", ZOptional (ZRecord ZUnknown));
    ("tags", ZOptional (ZArray ZString))
  ].

Definition AccuracyTestResultSchema : schema :=
  ZObject [
    ("response", ResponseMessageSchema);
    ("productAccuracy", ZNumber)
  ].

Definition ConsistencyTestResultSchema : schema :=
  ZObject [
    ("mainPromptResponse", ResponseMessageSchema);
    ("variationResponses", ZArray ResponseMessageSchema);
    ("productConsistency", ZNumber);
    ("orderConsistency", ZNumber)
  ].

Definition FeatureInferenceTestResultSchema : schema :=
  ZObject [
    ("response", ResponseMessageSchema);
    ("filterAccuracy", ZNumber);
    ("extractedFilters", ZRecord ZAny);
    ("expectedFilters", ZRecord ZAny)
  ].

Definition ContextRetentionTestResultSchema : schema :=
  ZObject [
    ("conversation", ZArray ResponseMessageSchema);
    ("contextAccuracy", ZNumber);
    ("filterProgression", ZArray (ZRecord ZAny))
  ].

Definition RobustnessTestResultSchema : schema :=
  ZObject [
    ("response", ResponseMessageSchema);
    ("filterAccuracy", ZNumber);
    ("noiseFiltering", ZNumber);
    ("extractedFilters", ZRecord ZAny)
  ].

Definition ConversationalFlowTestResultSchema : schema :=
  ZObject [
    ("conversation", ZArray ResponseMessageSchema);
    ("flowCoherence", ZNumber);
    ("topicTransitionAccuracy", ZNumber)
  ].

Definition DefensibilityTestResultSchema : schema :=
  ZObject [
    ("conversation", ZArray ResponseMessageSchema);
    ("boundaryMaintenance", ZNumber);
    ("appropriateResponse", ZBoolean)
  ].

Arguments ExpectedProductSchema : simpl never.
Arguments TestCaseSchema : simpl never.

End TestTypes.

(* ===================================================================== *)
(** * The context factories of the test runner machines *)
(* ===================================================================== *)

Module TestRunners.
Import Js TestTypes.

Inductive runner_machine :=
| accuracyTestRunnerMachine
| consistencyTestRunnerMachine
| featureInferenceTestRunnerMachine
| contextRetentionTestRunnerMachine
| robustnessTestRunnerMachine
| conversationalFlowTestRunnerMachine
| defensibilityTestRunnerMachine.

(** The [switch] over the test type, in [user.createTest] and in
    [deserializeTestState] of [machines/testMachine.ts]; [None] is
    its [default], which throws "Unknown test type". *)
Definition testRunnerMachine (testType : string) : option runner_machine :=
  if decide (testType = "accuracy") then Some accuracyTestRunnerMachine
  else if decide (testType = "consistency") then Some consistencyTestRunnerMachine
  else if decide (testType = "feature_inference") then Some featureInferenceTestRunnerMachine
  else if decide (testType = "context_retention") then Some contextRetentionTestRunnerMachine
  else if decide (testType = "robustness") then Some robustnessTestRunnerMachine
  else if decide (testType = "conversational_flow") then Some conversationalFlowTestRunnerMachine
  else if decide (testType = "defensibility") then Some defensibilityTestRunnerMachine
  else None.

Definition machine_name (machine : runner_machine) : string :=
  match machine with
  | accuracyTestRunnerMachine => "accuracyTestRunnerMachine"
  | consistencyTestRunnerMachine => "consistencyTestRunnerMachine"
  | featureInferenceTestRunnerMachine => "featureInferenceTestRunnerMachine"
  | contextRetentionTestRunnerMachine => "contextRetentionTestRunnerMachine"
  | robustnessTestRunnerMachine => "robustnessTestRunnerMachine"
  | conversationalFlowTestRunnerMachine => "conversationalFlowTestRunnerMachine"
  | defensibilityTestRunnerMachine => "defensibilityTestRunnerMachine"
  end.

Definition AccuracyTestRunnerContextSchema : schema :=
  ZObject [
    ("webSocketRef", ZOptional ZAny);
    ("name", ZString);
    ("sessionId", ZString);
    ("testCases", ZArray TestCaseSchema);
    ("testResults", ZDefault (ZArray AccuracyTestResultSchema) (VArr []));
    ("currentTestIndex", ZNumber);
    ("batchSize", ZNumber);
    ("testTimeout", ZNumber);
    ("progress", ZNumber);
    ("model", ModelSchema);
    ("architecture", ArchitectureSchema);
    ("historyManagement", HistoryManagementSchema)
  ].

Definition ConsistencyTestRunnerContextSchema : schema :=
  ZObject [
    ("webSocketRef", ZOptional ZAny);
    ("name", ZString);
    ("sessionId", ZString);
    ("testCases", ZArray TestCaseSchema);
    ("testResults", ZDefault (ZArray ConsistencyTestResultSchema) (VArr []));
    ("currentTestIndex", ZNumber);
    ("batchSize", ZNumber);
    ("testTimeout", ZNumber);
    ("progress", ZNumber);
    ("model", ModelSchema);
    ("architecture", ArchitectureSchema);
    ("historyManagement", HistoryManagementSchema);
    ("pendingResponses", ZNumber);
    ("currentResponses", ZDefault (ZArray ResponseMessageSchema) (VArr []))
  ].

Definition FeatureInferenceTestRunnerContextSchema : schema :=
  ZObject [
    ("webSocketRef", ZOptional ZAny);
    ("name", ZString);
    ("sessionId", ZString);
    ("testCases", ZArray TestCaseSchema);
    ("testResults", ZDefault (ZArray FeatureInferenceTestResultSchema) (VArr []));
    ("currentTestIndex", ZNumber);
    ("testTimeout", ZNumber);
    ("progress", ZNumber);
    ("model", ModelSchema);
    ("architecture", ArchitectureSchema);
    ("historyManagement", HistoryManagementSchema)
  ].

Definition ContextRetentionTestRunnerContextSchema : schema :=
  ZObject [
    ("webSocketRef", ZOptional ZAny);
    ("name", ZString);
    ("sessionId", ZString);
    ("testCases", ZArray TestCaseSchema);
    ("testResults", ZDefault (ZArray ContextRetentionTestResultSchema) (VArr []));
    ("currentTestIndex", ZNumber);
    ("progress", ZNumber);
    ("model", ModelSchema);
    ("architecture", ArchitectureSchema);
    ("historyManagement", HistoryManagementSchema);
    ("conversation", ZDefault (ZArray ResponseMessageSchema) (VArr []));
    ("conversationIndex", ZDefault ZNumber (VNum 0))
  ].

Definition RobustnessTestRunnerContextSchema : schema :=
  ZObject [
    ("webSocketRef", ZOptional ZAny);
    ("name", ZString);
    ("sessionId", ZString);
    ("testCases", ZArray TestCaseSchema);
    ("testResults", ZDefault (ZArray RobustnessTestResultSchema) (VArr []));
    ("currentTestIndex", ZNumber);
    ("progress", ZNumber);
    ("model", ModelSchema);
    ("architecture", ArchitectureSchema);
    ("historyManagement", HistoryManagementSchema)
  ].

Definition ConversationalFlowTestRunnerContextSchema : schema :=
  ZObject [
    ("webSocketRef", ZOptional ZAny);
    ("name", ZString);
    ("sessionId", ZString);
    ("testCases", ZArray TestCaseSchema);
    ("testResults", ZDefault (ZArray ConversationalFlowTestResultSchema) (VArr []));
    ("currentTestIndex", ZNumber);
    ("progress", ZNumber);
    ("model", ModelSchema);
    ("architecture", ArchitectureSchema);
    ("historyManagement", HistoryManagementSchema);
    ("conversation", ZDefault (ZArray ResponseMessageSchema) (VArr []));
    ("conversationIndex", ZDefault ZNumber (VNum 0))
  ].

Definition DefensibilityTestRunnerContextSchema : schema :=
  ZObject [
    ("webSocketRef", ZOptional ZAny);
    ("name", ZString);
    ("sessionId", ZString);
    ("testCases", ZArray TestCaseSchema);
    ("testResults", ZDefault (ZArray DefensibilityTestResultSchema) (VArr []));
    ("currentTestIndex", ZNumber);
    ("progress", ZNumber);
    ("model", ModelSchema);
    ("architecture", ArchitectureSchema);
    ("historyManagement", HistoryManagementSchema);
    ("conversation", ZDefault (ZArray ResponseMessageSchema) (VArr []));
    ("conversationIndex", ZDefault ZNumber (VNum 0))
  ].

Definition context_schema (machine : runner_machine) : schema :=
  match machine with
  | accuracyTestRunnerMachine => AccuracyTestRunnerContextSchema
  | consistencyTestRunnerMachine => ConsistencyTestRunnerContextSchema
  | featureInferenceTestRunnerMachine => FeatureInferenceTestRunnerContextSchema
  | contextRetentionTestRunnerMachine => ContextRetentionTestRunnerContextSchema
  | robustnessTestRunnerMachine => RobustnessTestRunnerContextSchema
  | conversationalFlowTestRunnerMachine => ConversationalFlowTestRunnerContextSchema
  | defensibilityTestRunnerMachine => DefensibilityTestRunnerContextSchema
  end.

(** The object that the [context] factory of each machine gives to
    its schema. *)
Definition context_object (machine : runner_machine)
    (input : gmap string value) : gmap string value :=
  match machine with
  | accuracyTestRunnerMachine =>
      list_to_map [
        ("webSocketRef", VUndefined);
        ("name", prop input "name");
        ("sessionId", prop input "sessionId");
        ("testCases", prop input "testCases");
        ("testResults", or_else (prop input "testResults") (VArr []));
        ("currentTestIndex", or_else (prop input "currentTestIndex") (VNum 0));
        ("batchSize", or_else (prop input "batchSize") (VNum 1));
        ("progress", or_else (prop input "progress") (VNum 0));
        ("testTimeout", or_else (prop input "testTimeout") (VNum 10000));
        ("model", prop input "model");
        ("architecture", prop input "architecture");
        ("historyManagement", prop input "historyManagement") ]
  | consistencyTestRunnerMachine =>
      list_to_map [
        ("webSocketRef", VUndefined);
        ("name", prop input "name");
        ("sessionId", prop input "sessionId");
        ("testCases", prop input "testCases");
        ("testResults", or_else (prop input "testResults") (VArr []));
        ("currentTestIndex", or_else (prop input "currentTestIndex") (VNum 0));
        ("batchSize", or_else (prop input "batchSize") (VNum 1));
        ("progress", or_else (prop input "progress") (VNum 0));
        ("testTimeout", or_else (prop input "testTimeout") (VNum 10000));
        ("model", prop input "model");
        ("architecture", prop input "architecture");
        ("historyManagement", prop input "historyManagement");
        ("pendingResponses", or_else (prop input "pendingResponses") (VNum 0));
        ("currentResponses", or_else (prop input "currentResponses") (VArr [])) ]
  | featureInferenceTestRunnerMachine =>
      list_to_map [
        ("webSocketRef", VUndefined);
        ("name", prop input "name");
        ("sessionId", prop input "sessionId");
        ("testCases", prop input "testCases");
        ("testResults", or_else (prop input "testResults") (VArr []));
        ("currentTestIndex", or_else (prop input "currentTestIndex") (VNum 0));
        ("progress", or_else (prop input "progress") (VNum 0));
        ("testTimeout", or_else (prop input "testTimeout") (VNum 10000));
        ("model", prop input "model");
        ("architecture", prop input "architecture");
        ("historyManagement", prop input "historyManagement") ]
  | robustnessTestRunnerMachine =>
      list_to_map [
        ("webSocketRef", VUndefined);
        ("name", prop input "name");
        ("sessionId", prop input "sessionId");
        ("testCases", prop input "testCases");
        ("testResults", or_else (prop input "testResults") (VArr []));
        ("currentTestIndex", or_else (prop input "currentTestIndex") (VNum 0));
        ("progress", or_else (prop input "progress") (VNum 0));
        ("model", prop input "model");
        ("architecture", prop input "architecture");
        ("historyManagement", prop input "historyManagement") ]
  | contextRetentionTestRunnerMachine
  | conversationalFlowTestRunnerMachine
  | defensibilityTestRunnerMachine =>
      list_to_map [
        ("webSocketRef", VUndefined);
        ("name", prop input "name");
        ("sessionId", prop input "sessionId");
        ("testCases", prop input "testCases");
        ("testResults", or_else (prop input "testResults") (VArr []));
        ("currentTestIndex", or_else (prop input "currentTestIndex") (VNum 0));
        ("progress", or_else (prop input "progress") (VNum 0));
        ("model", prop input "model");
        ("architecture", prop input "architecture");
        ("historyManagement", prop input "historyManagement");
        ("conversation", VArr []);
        ("conversationIndex", VNum 0) ]
  end.

(** [spawn(machine, { input })] builds the context of the new actor
    with the [context] factory of the machine; [None] is the ZodError
    of its schema, which [spawn] lets through to its caller. *)
Definition runner_context `{!Host} (machine : runner_machine)
    (input : gmap string value) : option value :=
  parse (context_schema machine) (VObj (context_object machine input)).

(** An actor that was spawned: its reference, its machine and its
    input. *)
Record spawned := Spawned {
  spawned_ref : nat;
  spawned_machine : runner_machine;
  spawned_input : gmap string value
}.

End TestRunners.

(* ===================================================================== *)
(** * [machines/testMachine.ts]: restoring a saved state *)
(* ===================================================================== *)

Module TestState.
Import Js TestTypes TestRunners.

Section Deserialize.
Context `{!Host}.

(** [savedState.testResults ? z.array(schema).parse(savedState.testResults) : []] *)
Definition saved_testResults (savedState : value) (item : schema)
    : option value :=
  testResults ← read savedState "testResults";
  if truthy testResults then parse (ZArray item) testResults
  else Some (VArr []).

(** [deserializeTestRunnerState(savedState, testType)]: [None] when
    it throws: a TypeError when [savedState] is [undefined] or
    [null], a ZodError of the results, "Unknown test type". *)
Definition deserializeTestRunnerState (savedState : value) (testType : string)
    : option (gmap string value) :=
  name ← read savedState "name";
  let saved k := default VUndefined (read savedState k) in
  let baseState : gmap string value :=
    list_to_map [
      ("webSocketRef", VUndefined);
      ("name", name);
      ("sessionId", saved "sessionId");
      ("testCases", saved "testCases");
      ("currentTestIndex", saved "currentTestIndex");
      ("progress", saved "progress");
      ("model", saved "model");
      ("architecture", saved "architecture");
      ("historyManagement", saved "historyManagement") ] in
  if decide (testType = "accuracy") then
    testResults ← saved_testResults savedState AccuracyTestResultSchema;
    Some (<["testResults" := testResults]> baseState)
  else if decide (testType = "consistency") then
    testResults ← saved_testResults savedState ConsistencyTestResultSchema;
    Some (<["currentResponses" := or_else (saved "currentResponses") (VArr [])]>
         (<["pendingResponses" := or_else (saved "pendingResponses") (VNum 0)]>
         (<["testResults" := testResults]> baseState)))
  else if decide (testType = "feature_inference") then
    testResults ← saved_testResults savedState FeatureInferenceTestResultSchema;
    Some (<["testResults" := testResults]> baseState)
  else if decide (testType = "context_retention") then
    testResults ← saved_testResults savedState ContextRetentionTestResultSchema;
    Some (<["conversation" := or_else (saved "conversation") (VArr [])]>
         (<["testResults" := testResults]> baseState))
  else if decide (testType = "robustness") then
    testResults ← saved_testResults savedState RobustnessTestResultSchema;
    Some (<["testResults" := testResults]> baseState)
  else if decide (testType = "conversational_flow") then
    testResults ← saved_testResults savedState ConversationalFlowTestResultSchema;
    Some (<["conversation" := or_else (saved "conversation") (VArr [])]>
         (<["testResults" := testResults]> baseState))
  else if decide (testType = "defensibility") then
    testResults ← saved_testResults savedState DefensibilityTestResultSchema;
    Some (<["conversation" := or_else (saved "conversation") (VArr [])]>
         (<["testResults" := testResults]> baseState))
  else None.

(** The callback of [savedState.tests.map]: the test with the
    reference of the runner spawned for it. [None] when it throws: a
    TypeError on a test that is [undefined] or [null], "Unknown test
    type" (also for a test without a [testType] that is a string),
    an error of [deserializeTestRunnerState], or the ZodError of the
    [context] factory of the runner. *)
Definition restore_test (test : value) (next : nat)
    : option (value * spawned) :=
  testType ← read test "testType";
  match testType with
  | VStr testType =>
      machine ← testRunnerMachine testType;
      testRunnerState ← read test "testRunnerState";
      input ← deserializeTestRunnerState testRunnerState testType;
      _ ← runner_context machine input;
      Some (VObj (<["testRunnerRef" := VRef next]> (spread test)),
            Spawned next machine input)
  | _ => None
  end.

(** The tests one after the other; references are numbered in the
    order of the spawns. *)
Fixpoint restore_tests (tests : list value) (next : nat)
    : option (list value * list spawned) :=
  match tests with
  | [] => Some ([], [])
  | test :: tests =>
      '(test', runner) ← restore_test test next;
      '(tests', runners) ← restore_tests tests (S next);
      Some (test' :: tests', runner :: runners)
  end.

(** [deserializeTestState(savedState, spawn)]: [None] when it throws:
    a TypeError when [savedState.tests] is not an array, or an error
    of the callback. Otherwise the state with its restored tests, and
    the runners that were spawned. *)
Definition deserializeTestState (savedState : value) (next : nat)
    : option (gmap string value * list spawned) :=
  tests ← read savedState "tests";
  match tests with
  | VArr tests =>
      '(tests', runners) ← restore_tests tests next;
      Some (<["tests" := VArr tests']> (spread savedState), runners)
  | _ => None
  end.

End Deserialize.

End TestState.

(* ===================================================================== *)
(** * [machines/productMachine.ts]: restoring a saved state *)
(* ===================================================================== *)

Module ProductState.
Import Js.

Definition ProductMachineContextSchema : schema :=
  ZObject [
    ("product", ZOptional ProductSchema);
    ("products", ZArray ProductSchema);
    ("currentPage", ZNumber);
    ("totalProducts", ZNumber);
    ("filter", ZOptional (ZRecord ZString))
  ].

(** [deserializeProductState]: [None] is the ZodError of
    [ProductMachineContextSchema.parse]. *)
Definition deserializeProductState `{!Host} (savedState : value)
    : option (gmap string value) :=
  parsedState ← parse ProductMachineContextSchema savedState;
  match parsedState with
  | VObj parsedState => Some (<["product" := VUndefined]> parsedState)
  | _ => None
  end.

End ProductState.

(* ===================================================================== *)
(** * [machines/appMachine.ts] *)
(* ===================================================================== *)

Module App.
Import Js.

Definition APP_STATE_VERSION : string := "1.1".

(** A [File]: its text, [None] when reading it fails
    ([reader.onerror]). *)
Record File := { file_text : option string }.

Inductive open_state := chatting | testing | managingProducts.

Inductive state :=
| open (sub : open_state)
| importingState_displayingImportStateForm
| importingState_importingState (file : File)
| exportingState_displayingExportStateForm
| exportingState_exportingState
| updatingSettings_displayingUpdateSettingForm.

(** The events of the machine, and the results of the two invoked
    promises. *)
Inductive event :=
| sys_saveState
| user_selectTest
| user_selectChat
| user_selectManageProducts
| user_importState
| user_exportState
| user_updateSetting
| user_submitImportStateForm (file : File)
| user_submitExportStateForm (fileName : string)
| user_submitResetSettings
| user_submitUpdateSettingForm (model architecture historyManagement : string)
| user_cancelImportState
| user_cancelExportState
| user_cancelUpdateSetting
| importState_done (output : value)
| importState_error
| exportState_done
| exportState_error.

(** Messages for the child actors. *)
Inductive message :=
| app_startChat
| app_stopChat
| app_startTest
| app_stopTest
| app_startManagingProducts
| app_stopManagingProducts
| app_updateState (model architecture historyManagement : value).

Inductive effect :=
| sendTo (ref : value) (m : message)
| emit (n : notification)
| spawn (ref : nat) (machine : string) (input : value)
| invoke_importState (file : File)
| invoke_exportState (fileName : string) (state : value)
| saveToLocalStorage (key : string) (state : value).

(** A configuration: the active state, the child of [open] that the
    deep history state remembers, the context object, and the number
    of actors spawned so far (the next reference). *)
Record config := Config {
  st : state;
  history : open_state;
  context : gmap string value;
  next_ref : nat
}.

Definition is_updateState (e : effect) : bool :=
  match e with sendTo _ (app_updateState _ _ _) => true | _ => false end.

Definition entry_open (sub : open_state) (c : gmap string value) : list effect :=
  match sub with
  | chatting => [sendTo (prop c "chatRef") app_startChat]
  | testing => [sendTo (prop c "testRef") app_startTest]
  | managingProducts => [sendTo (prop c "prodRef") app_startManagingProducts]
  end.

Definition exit_open (sub : open_state) (c : gmap string value) : list effect :=
  match sub with
  | chatting => [sendTo (prop c "chatRef") app_stopChat]
  | testing => [sendTo (prop c "testRef") app_stopTest]
  | managingProducts => [sendTo (prop c "prodRef") app_stopManagingProducts]
  end.

Section Machine.
Context `{!Host}.

(** The identifier that [uuidv4()] returns in the [context] factory
    of the chat machine. *)
Variable uuidv4 : string.

(** The serializers of the sibling machines, [None] when they throw.
    They read the snapshot of the child actor that the reference
    designates. *)
Variable serializeChatState : value → option value.
Variable serializeTestState : value → option value.
Variable serializeProductState : value → option value.

(** [serializeAppState]: it reads [context.context], a TypeError
    ([None]) when that is not an object. *)
Definition serializeAppState (arg : gmap string value) : option value :=
  match prop arg "context" with
  | VObj c =>
      chatState ← serializeChatState (prop c "chatRef");
      testState ← serializeTestState (prop c "testRef");
      productState ← serializeProductState (prop c "prodRef");
      Some (VObj (<["version" := VStr APP_STATE_VERSION]>
                 (<["appState" :=
                      VObj (<["model" := prop c "model"]>
                           (<["architecture" := prop c "architecture"]>
                           (<["historyManagement" := prop c "historyManagement"]> ∅)))]>
                 (<["chatState" := chatState]>
                 (<["testState" := testState]>
                 (<["productState" := productState]> ∅))))))
  | _ => None
  end.

(** [spawn(testRunnerMachine, { id, input })] as an effect of the app
    actor, whose [spawn] [deserializeTestState] is given. *)
Definition spawn_runner (r : TestRunners.spawned) : effect :=
  spawn (TestRunners.spawned_ref r)
        (TestRunners.machine_name (TestRunners.spawned_machine r))
        (VObj (TestRunners.spawned_input r)).

(** [deserializeAppState(savedState, spawn)]: [None] when it throws:
    an unsupported version, an error of a deserializer of the
    children, or an error of a [spawn], which runs the [context]
    factory of the machine it spawns (the factories of the test
    machine and of the product machine do not throw). Otherwise the
    object it returns, the spawns it made, in their order, and the
    next free reference. *)
Definition deserializeAppState (savedState : value) (next : nat)
    : option (gmap string value * list effect * nat) :=
  match savedState with
  | VObj saved =>
      match prop saved "version" with
      | VStr version =>
          if decide (version = APP_STATE_VERSION) then
            chatInput ← Chat.deserializeChatState (prop saved "chatState");
            _ ← Chat.context_factory uuidv4 (VRef 0) chatInput;
            '(testInput, runners) ←
              TestState.deserializeTestState (prop saved "testState") (next + 1);
            prodInput ←
              ProductState.deserializeProductState (prop saved "productState");
            let testRef := next + 1 + length runners in
            Some (<["prodRef" := VRef (testRef + 1)]>
                  (<["testRef" := VRef testRef]>
                  (<["chatRef" := VRef next]> (spread (prop saved "appState")))),
                  ([spawn next "chatMachine" (VObj chatInput)]
                   ++ (spawn_runner <$> runners)
                   ++ [spawn testRef "testMachine" (VObj testInput);
                       spawn (testRef + 1) "productMachine" (VObj prodInput)])%list,
                  testRef + 2)
          else None
      | _ => None
      end
  | _ => None
  end.

(** [importStateFromFile] and the [importState] actor around it:
    [None] is the rejected promise. *)
Definition importStateFromFile (file : File) : option value :=
  text ← file_text file;
  JSON_parse text.

Definition importState (file : File) : event :=
  match importStateFromFile file with
  | Some state => importState_done state
  | None => importState_error
  end.

(** Entering [#appActor.open.history]. *)
Definition enter_history (history : open_state) (c : gmap string value)
    (next : nat) (pre : list effect) : outcome config effect :=
  Next (Config (open history) history c next) (pre ++ entry_open history c)%list.

Definition select (sub target : open_state) (cfg : config)
    : outcome config effect :=
  Next (Config (open target) target (context cfg) (next_ref cfg))
       (exit_open sub (context cfg) ++ entry_open target (context cfg))%list.

Definition leave_open (sub : open_state) (target : state) (cfg : config)
    : outcome config effect :=
  Next (Config target sub (context cfg) (next_ref cfg))
       (exit_open sub (context cfg)).

(** The settings written by [user.submitUpdateSettingForm] and
    [user.submitResetSettings], and the action after the [assign]. *)
Definition update_settings (model architecture historyManagement : value)
    (cfg : config) : outcome config effect :=
  let c := <["model" := model]>
           (<["architecture" := architecture]>
           (<["historyManagement" := historyManagement]> (context cfg))) in
  let updateData :=
    app_updateState (prop c "model") (prop c "architecture")
                    (prop c "historyManagement") in
  enter_history (history cfg) c (next_ref cfg)
    [sendTo (prop c "chatRef") updateData;
     sendTo (prop c "testRef") updateData].

Definition step (cfg : config) (ev : event) : outcome config effect :=
  let c := context cfg in
  match st cfg, ev with
  (* open *)
  | open _, sys_saveState =>
      match serializeAppState (<["context" := VObj c]> ∅) with
      | Some serializedState =>
          Next cfg [saveToLocalStorage "appState" serializedState]
      | None => ActorError
      end
  | open sub, user_importState =>
      leave_open sub importingState_displayingImportStateForm cfg
  | open sub, user_exportState =>
      leave_open sub exportingState_displayingExportStateForm cfg
  | open sub, user_updateSetting =>
      leave_open sub updatingSettings_displayingUpdateSettingForm cfg
  | open sub, user_selectTest => select sub testing cfg
  | open sub, user_selectChat => select sub chatting cfg
  | open sub, user_selectManageProducts => select sub managingProducts cfg
  (* importingState *)
  | importingState_displayingImportStateForm, user_cancelImportState
  | importingState_importingState _, user_cancelImportState =>
      enter_history (history cfg) c (next_ref cfg) []
  | importingState_displayingImportStateForm, user_submitImportStateForm file =>
      Next (Config (importingState_importingState file) (history cfg) c (next_ref cfg))
           [invoke_importState file]
  | importingState_importingState _, importState_done output =>
      match deserializeAppState output (next_ref cfg) with
      | Some (assigned, spawns, next) =>
          enter_history (history cfg) (assigned ∪ c) next
            (spawns ++ [emit (Notification "success" "State imported successfully")])
      | None => ActorError
      end
  | importingState_importingState _, importState_error =>
      Next (Config importingState_displayingImportStateForm (history cfg) c (next_ref cfg))
           [emit (Notification "error" "Failed to import state")]
  (* exportingState *)
  | exportingState_displayingExportStateForm, user_cancelExportState
  | exportingState_exportingState, user_cancelExportState =>
      enter_history (history cfg) c (next_ref cfg) []
  | exportingState_displayingExportStateForm, user_submitExportStateForm fileName =>
      match serializeAppState c with
      | Some state =>
          Next (Config exportingState_exportingState (history cfg) c (next_ref cfg))
               [invoke_exportState fileName state]
      | None => ActorError
      end
  | exportingState_exportingState, exportState_done =>
      enter_history (history cfg) c (next_ref cfg)
        [emit (Notification "success" "State exported successfully")]
  | exportingState_exportingState, exportState_error =>
      Next (Config exportingState_displayingExportStateForm (history cfg) c (next_ref cfg))
           [emit (Notification "error" "Failed to export state")]
  (* updatingSettings *)
  | updatingSettings_displayingUpdateSettingForm, user_cancelUpdateSetting =>
      enter_history (history cfg) c (next_ref cfg) []
  | updatingSettings_displayingUpdateSettingForm,
    user_submitUpdateSettingForm model architecture historyManagement =>
      update_settings (VStr model) (VStr architecture) (VStr historyManagement) cfg
  | updatingSettings_displayingUpdateSettingForm, user_submitResetSettings =>
      update_settings (VStr "gpt-4o") (VStr "dynamic-agent") (VStr "keep-last-5") cfg
  | _, _ => Next cfg []
  end.

(** Submitting the import form and receiving the result of the
    [importState] actor for that file. *)
Definition submit_import (cfg : config) (file : File) : outcome config effect :=
  match step cfg (user_submitImportStateForm file) with
  | Next cfg' out =>
      match step cfg' (importState file) with
      | Next cfg'' out' => Next cfg'' (out ++ out')%list
      | ActorError => ActorError
      end
  | ActorError => ActorError
  end.
End Machine.

End App.

(* ===================================================================== *)
(** * Example data *)
(* ===================================================================== *)

Module Examples.
Import Js.

(** A host that reads one ISO date and the shortest JSON texts. *)
Definition host : Host := {|
  Date_parse s :=
    if decide (s = "2024-01-01T00:00:00.000Z") then Some 1704067200000%Z else None;
  JSON_parse s :=
    if decide (s = "null") then Some VNull
    else if decide (s = "{}") then Some (VObj ∅)
    else if decide (s = "[]") then Some (VArr [])
    else None
|}.

Definition object (fields : list (string * value)) : gmap string value :=
  list_to_map fields.

(** A response as the server sends it, its timestamp an ISO string. *)
Definition response_item : value :=
  VObj (object [
    ("messageId", VStr "m1");
    ("sessionId", VStr "s1");
    ("message", VObj (object [("type", VStr "text"); ("message", VStr "hello")]));
    ("isComplete", VBool true);
    ("model", VStr "gpt-4o");
    ("architectureChoice", VStr "llm-router");
    ("historyManagementChoice", VStr "keep-all");
    ("isUserMessage", VBool false);
    ("timestamp", VStr "2024-01-01T00:00:00.000Z")
  ]).

(** A response as it arrives on the socket: snake_case keys, [id] for
    [messageId], [response] for the text, no [is_user_message]. *)
Definition wire_response : gmap string value :=
  object [
    ("id", VStr "m1");
    ("session_id", VStr "s1");
    ("message", VObj (object [("type", VStr "text"); ("response", VStr "hello");
                              ("follow_up_question", VStr "more?")]));
    ("is_complete", VBool true);
    ("model", VStr "gpt-4o");
    ("architecture_choice", VStr "llm-router");
    ("history_management_choice", VStr "keep-all");
    ("timestamp", VStr "2024-01-01T00:00:00.000Z")
  ].

(** The same response as the chat machine stores it, its timestamp a
    [Date]. *)
Definition stored_response_item : value :=
  VObj (object [
    ("messageId", VStr "m1");
    ("sessionId", VStr "s1");
    ("message", VObj (object [("type", VStr "text"); ("message", VStr "hello")]));
    ("isComplete", VBool true);
    ("model", VStr "gpt-4o");
    ("architectureChoice", VStr "llm-router");
    ("historyManagementChoice", VStr "keep-all");
    ("isUserMessage", VBool false);
    ("timestamp", VDate (Some 1704067200000%Z))
  ]).

Definition chat_context (history : list value) : gmap string value :=
  object [
    ("sessionId", VStr "s1");
    ("webSocketRef", VRef 0);
    ("chatHistory", VArr history);
    ("model", VStr "gpt-4o");
    ("architecture", VStr "llm-router");
    ("historyManagement", VStr "keep-all")
  ].

(** A request as the chat machine sends it to the webSocket actor,
    with a sessionId of its own. *)
Definition request_data : gmap string value :=
  object [
    ("type", VStr "textMessage");
    ("sessionId", VStr "stale");
    ("messageId", VStr "m1");
    ("message", VStr "hello");
    ("model", VStr "gpt-4o");
    ("architectureChoice", VStr "llm-router");
    ("historyManagementChoice", VStr "keep-all")
  ].

Definition connected_context : WebSocket.context :=
  {| WebSocket.socket := Some 7; WebSocket.sessionId := Some "s1";
     WebSocket.reconnectionAttempts := 0 |}.

End Examples.

(** Data for runs of the accuracy test runner. *)
Module RunnerData.
Import AccuracyRunner.

(** [toLowerCase] on strings of ASCII characters, where the Unicode
    case mapping changes the letters A to Z only. The example data
    has no other letters. *)
Definition ascii : Unicode := {|
  toLowerCase s := string_of_list_ascii (map Js.to_lower (list_ascii_of_string s))
|}.

Definition board (n : string) : Product := {| name := n; attributes := ∅ |}.

Definition test_case (id text product : string) : TestCase :=
  {| messageId := id; prompt := text; testType := "accuracy";
     description := ""; products := Some [board product] |}.

Definition reply (id : string) (found : list Product) : ResponseMessage :=
  {| response_messageId := id; response_sessionId := "s1";
     response_message :=
       {| content_type := "text"; content_message := "";
          content_products := Some found; content_reasoning := None |};
     response_isComplete := true; response_model := "gpt-4o";
     response_architectureChoice := "llm-router";
     response_historyManagementChoice := "keep-none";
     response_timestamp := Some 0%Z |}.

Definition runner (cases : list TestCase) : config :=
  start (initial_context "run" "s1" cases "gpt-4o" "llm-router" "keep-none").

End RunnerData.

(* ===================================================================== *)
(** * [machines/consistencyTestRunnerMachine.ts]: the two scores *)
(* ===================================================================== *)

Module ConsistencyScores.
Import AccuracyRunner.

Section Scores.
Context `{!Unicode}.

(** The two helper functions of the runner compute with quotients of
    array lengths, the [number]s of the accuracy runner, with their
    sums and with their means. *)

(** [x + y] *)
Definition plus (x y : number) : number :=
  match x, y with
  | Fin a, Fin b => Fin (a + b)
  | NaN, _ | _, NaN => NaN
  | Infinity, _ | _, Infinity => Infinity
  end.

(** [x / n] for the length [n] of an array that is not empty. *)
Definition over (x : number) (n : positive) : number :=
  match x with
  | Fin q => Fin (q / (Z.pos n # 1))
  | NaN => NaN
  | Infinity => Infinity
  end.

(** [scores.length > 0
       ? scores.reduce((sum, score) => sum + score, 0) / scores.length
       : 0] *)
Definition mean (scores : list number) : number :=
  match scores with
  | [] => Fin 0
  | _ :: rest => over (foldl plus (Fin 0) scores) (Pos.of_succ_nat (length rest))
  end.

(** [calculateProductConsistency]: for an empty main list, the share
    of empty variations; otherwise the mean over the variations of
    the number of variation products whose name is a main name, over
    the largest of the number of distinct main names, the number of
    variation products, and 1. *)
Definition calculateProductConsistency (mainProducts : list Product)
    (variationProductsList : list (list Product)) : number :=
  if decide (length mainProducts = 0) then
    let emptyVariations :=
      filter (λ products, length products = 0) variationProductsList in
    div_length (length emptyVariations)
               (Nat.max (length variationProductsList) 1)
  else
    let mainProductSet : gset string :=
      list_to_set (lower_name <$> mainProducts) in
    let consistencyScores :=
      (λ variationProducts,
         let commonProducts :=
           filter (λ p, lower_name p ∈ mainProductSet) variationProducts in
         div_length (length commonProducts)
           (Nat.max (Nat.max (size mainProductSet) (length variationProducts)) 1))
      <$> variationProductsList in
    mean consistencyScores.

(** [calculateOrderConsistency]: for an empty main list, the share of
    empty variations; 0 without variations; otherwise the mean over
    the variations of the length of the longest common subsequence of
    the two lists of names, over the largest of the two lengths and
    1. [None] when [longestCommonSubsequence] reads outside its
    table. *)
Definition calculateOrderConsistency (mainProducts : list Product)
    (variationProductsList : list (list Product)) : option number :=
  if decide (length mainProducts = 0) then
    let emptyVariations :=
      filter (λ products, length products = 0) variationProductsList in
    Some (div_length (length emptyVariations)
                     (Nat.max (length variationProductsList) 1))
  else if decide (length variationProductsList = 0) then Some (Fin 0)
  else
    let mainProductOrder := lower_name <$> mainProducts in
    orderScores ←
      mapM (λ variationProducts,
              let variationOrder := lower_name <$> variationProducts in
              lcs ← Lcs.longestCommonSubsequence mainProductOrder variationOrder;
              Some (div_length lcs
                      (Nat.max (Nat.max (length mainProductOrder)
                                        (length variationOrder)) 1)))
           variationProductsList;
    Some (mean orderScores).

(** The score of one variation in [calculateOrderConsistency] and in
    [calculateProductConsistency] for a main list that is not empty,
    as fractions, with the reference [lcs_ref] for the longest common
    subsequence. *)
Definition order_fraction (mainProducts variationProducts : list Product) : Q :=
  Z.of_nat (Lcs.lcs_ref (lower_name <$> mainProducts) (lower_name <$> variationProducts))
  # Pos.of_nat (Nat.max (Nat.max (length mainProducts) (length variationProducts)) 1).

Definition product_fraction (mainProducts variationProducts : list Product) : Q :=
  Z.of_nat (length (filter (λ p, lower_name p ∈@{gset string}
                              list_to_set (lower_name <$> mainProducts))
                      variationProducts))
  # Pos.of_nat (Nat.max (Nat.max (size (list_to_set (lower_name <$> mainProducts)
                                          : gset string))
                                 (length variationProducts)) 1).

End Scores.

End ConsistencyScores.

(* ===================================================================== *)
(** * [machines/consistencyTestRunnerMachine.ts]: the machine *)
(* ===================================================================== *)

Module ConsistencyRunner.
Import ConsistencyScores.

(** The numbers, products, responses and requests are those of the
    accuracy test runner. *)
Abbreviation number := AccuracyRunner.number.
Abbreviation Product := AccuracyRunner.Product.
Abbreviation ResponseMessage := AccuracyRunner.ResponseMessage.
Abbreviation RequestData := AccuracyRunner.RequestData.

(** A test case: the fields that the runner reads. [variations] is
    optional in [TestCaseSchema]. *)
Record TestCase := {
  messageId : string;
  prompt : string;
  variations : option (list string)
}.

Record ConsistencyTestResult := {
  mainPromptResponse : ResponseMessage;
  variationResponses : list ResponseMessage;
  productConsistency : number;
  orderConsistency : number
}.

(** The context, with the types that
    [ConsistencyTestRunnerContextSchema.parse] checks when the actor
    is created. *)
Record context := {
  webSocketRef : option nat;
  runner_name : string;
  sessionId : string;
  testCases : list TestCase;
  testResults : list ConsistencyTestResult;
  currentTestIndex : nat;
  batchSize : Z;
  testTimeout : Z;
  progress : number;
  model : string;
  architecture : string;
  historyManagement : string;
  pendingResponses : Z;
  currentResponses : list ResponseMessage
}.

Inductive running_state := sendingMessage | evaluatingResults | paused.

Inductive state :=
| idle
| connecting
| running (sub : running_state)
| disconnecting.

(** Messages for the webSocket actor. *)
Inductive message :=
| parentActor_connect (sessionId : string)
| parentActor_sendMessage (data : RequestData)
| parentActor_disconnect.

Inductive event :=
| user_startTest
| webSocket_connected
| user_pauseTest
| webSocket_messageReceived (data : ResponseMessage)
| user_continueTest
| user_stopTest
| webSocket_disconnected
| internal_sendMessage (message : message).

(** What a macrostep does to the outside: [spawn(webSocketMachine)],
    [sendTo(context.webSocketRef, ...)], and
    [self.send({ type: "internal.sendMessage", message })], which puts
    the event at the end of the actor's own mailbox. *)
Inductive effect :=
| spawn (ref : nat)
| sendTo (ref : option nat) (m : message)
| self_send (m : message).

Definition config : Type := state * context.

Definition set_webSocketRef (c : context) (r : option nat) : context :=
  {| webSocketRef := r; runner_name := runner_name c;
     sessionId := sessionId c; testCases := testCases c;
     testResults := testResults c; currentTestIndex := currentTestIndex c;
     batchSize := batchSize c; testTimeout := testTimeout c;
     progress := progress c; model := model c;
     architecture := architecture c; historyManagement := historyManagement c;
     pendingResponses := pendingResponses c;
     currentResponses := currentResponses c |}.

Definition set_currentTestIndex (c : context) (i : nat) : context :=
  {| webSocketRef := webSocketRef c; runner_name := runner_name c;
     sessionId := sessionId c; testCases := testCases c;
     testResults := testResults c; currentTestIndex := i;
     batchSize := batchSize c; testTimeout := testTimeout c;
     progress := progress c; model := model c;
     architecture := architecture c; historyManagement := historyManagement c;
     pendingResponses := pendingResponses c;
     currentResponses := currentResponses c |}.

Definition set_progress (c : context) (p : number) : context :=
  {| webSocketRef := webSocketRef c; runner_name := runner_name c;
     sessionId := sessionId c; testCases := testCases c;
     testResults := testResults c; currentTestIndex := currentTestIndex c;
     batchSize := batchSize c; testTimeout := testTimeout c; progress := p;
     model := model c; architecture := architecture c;
     historyManagement := historyManagement c;
     pendingResponses := pendingResponses c;
     currentResponses := currentResponses c |}.

(** [assign({ pendingResponses, currentResponses })] *)
Definition set_responses (c : context) (pending : Z)
    (responses : list ResponseMessage) : context :=
  {| webSocketRef := webSocketRef c; runner_name := runner_name c;
     sessionId := sessionId c; testCases := testCases c;
     testResults := testResults c; currentTestIndex := currentTestIndex c;
     batchSize := batchSize c; testTimeout := testTimeout c;
     progress := progress c; model := model c;
     architecture := architecture c; historyManagement := historyManagement c;
     pendingResponses := pending; currentResponses := responses |}.

(** [assign({ testResults, currentResponses })] *)
Definition set_results (c : context) (results : list ConsistencyTestResult)
    (responses : list ResponseMessage) : context :=
  {| webSocketRef := webSocketRef c; runner_name := runner_name c;
     sessionId := sessionId c; testCases := testCases c;
     testResults := results; currentTestIndex := currentTestIndex c;
     batchSize := batchSize c; testTimeout := testTimeout c;
     progress := progress c; model := model c;
     architecture := architecture c; historyManagement := historyManagement c;
     pendingResponses := pendingResponses c; currentResponses := responses |}.

(** The request for the text with number [index] of the current test
    case; its [timestamp] is the current time and is left out.
    [RequestDataSchema.parse] returns the fields it is given: they
    are strings, and the three settings were validated when the
    context was built. *)
Definition request (c : context) (currentTestCase : TestCase)
    (index : nat) (text : string) : message :=
  parentActor_sendMessage
    {| AccuracyRunner.request_type := "textMessage";
       AccuracyRunner.request_sessionId := sessionId c;
       AccuracyRunner.request_messageId :=
         messageId currentTestCase +:+ "_" +:+ pretty index;
       AccuracyRunner.request_message := text;
       AccuracyRunner.request_model := model c;
       AccuracyRunner.request_architectureChoice := architecture c;
       AccuracyRunner.request_historyManagementChoice := historyManagement c |}.

(** [sendTestCaseMessages]: [None] when [testCases[currentTestIndex]]
    is [undefined] or has no [variations] (a TypeError). *)
Definition sendTestCaseMessages (c : context) : option (list effect) :=
  currentTestCase ← testCases c !! currentTestIndex c;
  variations ← variations currentTestCase;
  let messages :=
    imap (λ index text, request c currentTestCase index text)
         (prompt currentTestCase :: variations) in
  Some (self_send <$> messages).

(** [setPendingResponses]: [None] on the same TypeErrors. *)
Definition setPendingResponses (c : context) : option context :=
  currentTestCase ← testCases c !! currentTestIndex c;
  variations ← variations currentTestCase;
  Some (set_responses c (Z.of_nat (length variations)) []).

(** [r.message.products || []] *)
Definition products_or_empty (r : ResponseMessage) : list Product :=
  default [] (AccuracyRunner.content_products (AccuracyRunner.response_message r)).

Section Runner.
Context `{!AccuracyRunner.Unicode}.

(** [updateTestResults]. A read outside the table of
    [longestCommonSubsequence] is [undefined], whose quotient is
    NaN. *)
Definition updateTestResults (c : context) : context :=
  match currentResponses c with
  | [] => set_results c (testResults c) []
  | mainPromptResponse :: variationResponses =>
      let productConsistency :=
        calculateProductConsistency (products_or_empty mainPromptResponse)
          (products_or_empty <$> variationResponses) in
      let orderConsistency :=
        default AccuracyRunner.NaN
          (calculateOrderConsistency (products_or_empty mainPromptResponse)
             (products_or_empty <$> variationResponses)) in
      let newTestResult :=
        {| mainPromptResponse := mainPromptResponse;
           variationResponses := variationResponses;
           productConsistency := productConsistency;
           orderConsistency := orderConsistency |} in
      set_results c (testResults c ++ [newTestResult]) []
  end.

Definition increaseCurrentTestIndex (c : context) : context :=
  set_currentTestIndex c (currentTestIndex c + 1).

Definition increaseProgress (c : context) : context :=
  set_progress c
    (AccuracyRunner.times
       (AccuracyRunner.div_length (currentTestIndex c + 1) (length (testCases c)))
       100).

(** [pendingResponses === 0] *)
Definition allResponsesReceived (c : context) : bool :=
  bool_decide (pendingResponses c = 0%Z).

(** [currentTestIndex >= testCases.length] *)
Definition testIsComplete (c : context) : bool :=
  bool_decide (length (testCases c) ≤ currentTestIndex c).

Section Machine.

(** [responseMessageFromJson] of [types/chatTypes.ts], applied to the
    data of the event; [None] when it throws. *)
Variable responseMessageFromJson : ResponseMessage → option ResponseMessage.

Definition processResponse (c : context) (data : ResponseMessage)
    : option context :=
  r ← responseMessageFromJson data;
  Some (set_responses c (pendingResponses c - 1) (currentResponses c ++ [r])).

(** Entering [running.sendingMessage] runs [sendTestCaseMessages],
    then [setPendingResponses]. *)
Definition enter_sendingMessage (c : context) : outcome config effect :=
  match sendTestCaseMessages c, setPendingResponses c with
  | Some out, Some c' => Next (running sendingMessage, c') out
  | _, _ => ActorError
  end.

Definition enter_disconnecting (c : context) : outcome config effect :=
  Next (disconnecting, c) [sendTo (webSocketRef c) parentActor_disconnect].

(** Entering [idle] spawns a webSocket actor and stores its reference;
    references are numbered in the order of their creation. *)
Definition enter_idle (c : context) : outcome config effect :=
  let ref := match webSocketRef c with Some r => S r | None => 0 end in
  Next (idle, set_webSocketRef c (Some ref)) [spawn ref].

(** Entering [running.evaluatingResults] runs its three entry actions
    in their order, then takes the first eventless transition whose
    guard holds. *)
Definition enter_evaluatingResults (c : context) : outcome config effect :=
  let c := updateTestResults c in
  let c := increaseProgress c in
  let c := increaseCurrentTestIndex c in
  if testIsComplete c then enter_disconnecting c else enter_sendingMessage c.

(** One macrostep. The guard of a transition is evaluated on the
    context before the actions of the transition. *)
Definition step (cfg : config) (ev : event) : outcome config effect :=
  let '(s, c) := cfg in
  match s, ev with
  | idle, user_startTest =>
      Next (connecting, c) [sendTo (webSocketRef c) (parentActor_connect (sessionId c))]
  | connecting, webSocket_connected => enter_sendingMessage c
  | running _, user_stopTest => enter_disconnecting c
  | running _, user_pauseTest => Next (running paused, c) []
  | running sendingMessage, internal_sendMessage m =>
      Next (running sendingMessage, c) [sendTo (webSocketRef c) m]
  | running sendingMessage, webSocket_messageReceived data =>
      match processResponse c data with
      | None => ActorError
      | Some c' =>
          if allResponsesReceived c then enter_evaluatingResults c'
          else Next (running sendingMessage, c') []
      end
  | running paused, user_continueTest => enter_sendingMessage c
  | disconnecting, webSocket_disconnected => enter_idle c
  | _, _ => Next (s, c) []
  end.

(** The messages that a macrostep sent to the actor itself. *)
Definition self_sent (out : list effect) : list message :=
  omap (λ e, match e with self_send m => Some m | _ => None end) out.

(** Delivering [internal.sendMessage] events one after the other. *)
Fixpoint drain (cfg : config) (messages : list message) : outcome config effect :=
  match messages with
  | [] => Next cfg []
  | m :: messages =>
      match step cfg (internal_sendMessage m) with
      | ActorError => ActorError
      | Next cfg' out =>
          match drain cfg' messages with
          | ActorError => ActorError
          | Next cfg'' out' => Next cfg'' (out ++ out')
          end
      end
  end.

(** Delivering one event from outside: its macrostep, then the events
    that the macrostep put into the mailbox of the actor, which are
    processed before the next event from outside. The macrostep of an
    [internal.sendMessage] event sends nothing to the actor itself. *)
Definition deliver (cfg : config) (ev : event) : outcome config effect :=
  match step cfg ev with
  | ActorError => ActorError
  | Next cfg' out =>
      match drain cfg' (self_sent out) with
      | ActorError => ActorError
      | Next cfg'' out' => Next cfg'' (out ++ out')
      end
  end.

Fixpoint run (cfg : config) (evs : list event) : outcome config effect :=
  match evs with
  | [] => Next cfg []
  | ev :: evs =>
      match deliver cfg ev with
      | ActorError => ActorError
      | Next cfg' out =>
          match run cfg' evs with
          | ActorError => ActorError
          | Next cfg'' out' => Next cfg'' (out ++ out')
          end
      end
  end.

End Machine.

End Runner.

(** The requests that reached the webSocket actor. *)
Definition requests (out : list effect) : list message :=
  omap (λ e, match e with
             | sendTo _ (parentActor_sendMessage d) => Some (parentActor_sendMessage d)
             | _ => None
             end) out.

(** The replies to the requests of one test case: one for the prompt
    and one for each variation. *)
Definition replies_for (tc : TestCase) (replies : list ResponseMessage) : Prop :=
  ∃ vs, variations tc = Some vs ∧ length replies = S (length vs).

(** The context built from the machine input, with the defaults of the
    [context] factory. *)
Definition initial_context (name sid : string) (cases : list TestCase)
    (model architecture historyManagement : string) : context :=
  {| webSocketRef := None; runner_name := name; sessionId := sid;
     testCases := cases; testResults := []; currentTestIndex := 0;
     batchSize := 1%Z; testTimeout := 10000%Z; progress := AccuracyRunner.Fin 0;
     model := model; architecture := architecture;
     historyManagement := historyManagement;
     pendingResponses := 0%Z; currentResponses := [] |}.

End ConsistencyRunner.

(* ===================================================================== *)
(** * [machines/chatMachine.ts]: the machine *)
(* ===================================================================== *)

Module ChatMachine.
Import Js.

(** The context, with the types that [ChatContextSchema.parse] checks
    when the actor is created. The three settings are overwritten
    with the data of [app.updateState] events, which nothing checks. *)
Record context := {
  sessionId : string;
  webSocketRef : value;
  chatHistory : list value;
  model : value;
  architecture : value;
  historyManagement : value
}.

Inductive chatting_state := awaitingUserInput | processingMessage.

Inductive state :=
| idle
| connecting
| chatting (sub : chatting_state)
| disconnecting.

(** The events. [user.sendMessage] comes with the two readings of the
    clock that its actions take ([new Date()] in the request and in
    the history item), in milliseconds. *)
Inductive event :=
| app_startChat
| app_stopChat
| app_updateState (model architecture historyManagement : value)
| webSocket_connected
| webSocket_messageReceived (data : value)
| webSocket_disconnected
| user_sendMessage (messageId message : string) (sent_at stored_at : Z).

(** Messages for the webSocket actor. *)
Inductive message :=
| parentActor_connect (sessionId : string)
| parentActor_sendMessage (data : value)
| parentActor_disconnect.

Inductive effect :=
| sendTo (ref : value) (m : message).

Definition config : Type := state * context.

Definition set_settings (c : context) (m a h : value) : context :=
  {| sessionId := sessionId c; webSocketRef := webSocketRef c;
     chatHistory := chatHistory c; model := m; architecture := a;
     historyManagement := h |}.

(** [chatHistory: [...context.chatHistory, item]] *)
Definition add_history (c : context) (item : value) : context :=
  {| sessionId := sessionId c; webSocketRef := webSocketRef c;
     chatHistory := chatHistory c ++ [item]; model := model c;
     architecture := architecture c;
     historyManagement := historyManagement c |}.

Section Machine.
Context `{!Host}.

(** [Date.prototype.toISOString] *)
Variable toISOString : Z → string.

(** The object that the action of [user.sendMessage] gives to
    [RequestDataSchema.parse]. *)
Definition request_data (c : context) (messageId message : string)
    (sent_at : Z) : gmap string value :=
  list_to_map
    [ ("type", VStr "textMessage");
      ("sessionId", VStr (sessionId c));
      ("messageId", VStr messageId);
      ("message", VStr message);
      ("timestamp", VStr (toISOString sent_at));
      ("model", model c);
      ("architectureChoice", architecture c);
      ("historyManagementChoice", historyManagement c) ].

(** The [RequestMessage] that the [assign] of [user.sendMessage]
    appends to the history. *)
Definition request_message (c : context) (messageId message : string)
    (stored_at : Z) : gmap string value :=
  list_to_map
    [ ("messageId", VStr messageId);
      ("timestamp", VDate (Some stored_at));
      ("isUserMessage", VBool true);
      ("isComplete", VBool true);
      ("model", model c);
      ("architectureChoice", architecture c);
      ("historyManagementChoice", historyManagement c);
      ("message", VStr message) ].

(** Entering [connecting]. *)
Definition enter_connecting (c : context) : outcome config effect :=
  Next (connecting, c)
       [sendTo (webSocketRef c) (parentActor_connect (sessionId c))].

(** One macrostep. [app.updateState] is handled by the root of the
    machine, in every state. *)
Definition step (cfg : config) (ev : event) : outcome config effect :=
  let '(s, c) := cfg in
  match s, ev with
  | _, app_updateState m a h => Next (s, set_settings c m a h) []
  | idle, app_startChat => enter_connecting c
  | connecting, webSocket_connected => Next (chatting awaitingUserInput, c) []
  | chatting _, app_stopChat =>
      Next (disconnecting, c) [sendTo (webSocketRef c) parentActor_disconnect]
  | chatting _, webSocket_disconnected => enter_connecting c
  | chatting awaitingUserInput, user_sendMessage messageId message sent_at stored_at =>
      match parse RequestDataSchema (VObj (request_data c messageId message sent_at)) with
      | Some data =>
          Next (chatting processingMessage,
                add_history c (VObj (request_message c messageId message stored_at)))
               [sendTo (webSocketRef c) (parentActor_sendMessage data)]
      | None => ActorError
      end
  | chatting processingMessage, webSocket_messageReceived data =>
      Next (chatting awaitingUserInput, add_history c data) []
  | disconnecting, webSocket_disconnected => Next (idle, c) []
  | _, _ => Next (s, c) []
  end.

Fixpoint run (cfg : config) (evs : list event) : outcome config effect :=
  match evs with
  | [] => Next cfg []
  | ev :: evs =>
      match step cfg ev with
      | ActorError => ActorError
      | Next cfg' out =>
          match run cfg' evs with
          | ActorError => ActorError
          | Next cfg'' out' => Next cfg'' (out ++ out')
          end
      end
  end.

End Machine.

(** The settings after a sequence of events: those of the last
    [app.updateState] among them. *)
Definition last_settings (evs : list event) (settings : value * value * value)
    : value * value * value :=
  foldl (λ acc ev, match ev with
                   | app_updateState m a h => (m, a, h)
                   | _ => acc
                   end) settings evs.

End ChatMachine.

(* ===================================================================== *)
(** * [machines/chatMachine.ts]: the contexts of chat actors *)
(* ===================================================================== *)

Module ChatActor.
Import Js ChatMachine.

(** The context of a chat actor as the object that
    [getSnapshot().context] returns. *)
Definition context_object (c : context) : gmap string value :=
  list_to_map
    [ ("sessionId", VStr (sessionId c));
      ("webSocketRef", webSocketRef c);
      ("chatHistory", VArr (chatHistory c));
      ("model", model c);
      ("architecture", architecture c);
      ("historyManagement", historyManagement c) ].

(** [getSnapshot().value] *)
Definition state_value (s : state) : value :=
  match s with
  | idle => VStr "idle"
  | connecting => VStr "connecting"
  | chatting awaitingUserInput =>
      VObj (<["chatting" := VStr "awaitingUserInput"]> ∅)
  | chatting processingMessage =>
      VObj (<["chatting" := VStr "processingMessage"]> ∅)
  | disconnecting => VStr "disconnecting"
  end.

Section Actor.
Context `{!Host}.

(** The context of a new actor is what the [context] factory of the
    machine returns for its input. *)
Definition built_by_factory (c : context) : Prop :=
  ∃ uuid webSocketRef input,
    Chat.context_factory uuid webSocketRef input
    = Some (VObj (context_object c)).

(** The only sender of [webSocket.messageReceived] is the webSocket
    actor, which forwards the result of [responseMessageFromJson],
    and that function returns what [ResponseMessageSchema.parse]
    returns. *)
Definition from_server (ev : event) : Prop :=
  match ev with
  | webSocket_messageReceived data =>
      ∃ v, parse ResponseMessageSchema v = Some data
  | _ => True
  end.

(** What the history of an actor holds: outputs of
    [ChatHistoryItemSchema.parse] and of
    [ResponseMessageSchema.parse]. *)
Definition stored_item (item : value) : Prop :=
  (∃ v, parse ChatHistoryItemSchema v = Some item)
  ∨ (∃ v, parse ResponseMessageSchema v = Some item).
End Actor.

End ChatActor.

(* ===================================================================== *)
(** * [machines/webSocketMachine.ts]: what the parent sees *)
(* ===================================================================== *)

Module WebSocketMore.
Import Js WebSocket.

(** The parent is told that the connection is closed. *)
Definition tells_disconnected (out : list effect) : bool :=
  existsb (λ e, match e with sendParent webSocket_disconnected => true | _ => false end) out.

(** While [connecting] the machine has a session, and while
    [connected] it has a session and a socket. *)
Definition equipped (cfg : config) : Prop :=
  match cfg.1 with
  | connecting => is_Some (sessionId cfg.2)
  | connected => is_Some (sessionId cfg.2) ∧ is_Some (socket cfg.2)
  | _ => True
  end.

End WebSocketMore.

(* ===================================================================== *)
(** * [machines/appMachine.ts]: runs of the machine *)
(* ===================================================================== *)

Module AppRun.
Import Js App.

(** The context that the [context] factory builds when nothing was
    saved: three spawned children and the default settings. *)
Definition default_context : gmap string value :=
  list_to_map
    [ ("chatRef", VRef 0); ("testRef", VRef 1); ("prodRef", VRef 2);
      ("model", VStr "gpt-4o"); ("architecture", VStr "dynamic-agent");
      ("historyManagement", VStr "keep-last-5") ].

(** The machine starts in [open.chatting]; a history state that has
    recorded nothing stands for the initial child of [open]. *)
Definition initial : config := Config (open chatting) chatting default_context 3.

Section Run.
Context `{!Host}.
Variable uuidv4 : string.
Variable serializeChatState : value → option value.
Variable serializeTestState : value → option value.
Variable serializeProductState : value → option value.

Fixpoint run (cfg : config) (evs : list event) : outcome config effect :=
  match evs with
  | [] => Next cfg []
  | ev :: evs =>
      match step uuidv4 serializeChatState serializeTestState
                 serializeProductState cfg ev with
      | ActorError => ActorError
      | Next cfg' out =>
          match run cfg' evs with
          | ActorError => ActorError
          | Next cfg'' out' => Next cfg'' (out ++ out')
          end
      end
  end.
End Run.

(** The result of the [importState] actor that carries a state. *)
Definition is_import_done (ev : event) : bool :=
  match ev with importState_done _ => true | _ => false end.

Definition settings_keys : list string :=
  ["model"; "architecture"; "historyManagement"].

End AppRun.

(* ===================================================================== *)
(** * [machines/testMachine.ts] *)
(* ===================================================================== *)

Module TestMachine.
Import Js TestTypes TestRunners.

Record Test := {
  testId : string;
  name : string;
  testType : string;
  createdAt : string;
  testRunnerRef : nat
}.

Record context := {
  selectedTest : option Test;
  tests : list Test;
  model : value;
  architecture : value;
  historyManagement : value
}.

Inductive details_state := displayingSelectedTest | displayingTestDetailsModal.

Inductive displaying_state :=
| displayingTestPage
| displayingTestDetails (sub : details_state).

Inductive state :=
| idle
| displayingTest (sub : displaying_state).

Inductive event :=
| app_startTest
| app_stopTest
| app_updateState (model architecture historyManagement : value)
| user_createTest (testType name id : string) (testCase : list value) (createdAt : string)
| user_selectTest (testId : string)
| user_clickSingleTestResult
| user_closeTestResultModal.

Inductive effect :=
| spawn (ref : nat) (machine : runner_machine) (input : gmap string value).

(** A configuration: the state, the context, and the number of actors
    spawned so far (the next reference). *)
Definition config : Type := state * context * nat.

Definition set_settings (c : context) (m a h : value) : context :=
  {| selectedTest := selectedTest c; tests := tests c; model := m;
     architecture := a; historyManagement := h |}.

Definition set_tests (c : context) (ts : list Test) : context :=
  {| selectedTest := selectedTest c; tests := ts; model := model c;
     architecture := architecture c; historyManagement := historyManagement c |}.

Definition set_selectedTest (c : context) (t : option Test) : context :=
  {| selectedTest := t; tests := tests c; model := model c;
     architecture := architecture c; historyManagement := historyManagement c |}.

(** The test that [user.createTest] appends, with the runner it
    spawns. *)
Definition newTest (testType name id createdAt : string) (ref : nat) : Test :=
  {| testId := id; name := name; testType := testType; createdAt := createdAt;
     testRunnerRef := ref |}.

(** The input of the runner that [user.createTest] spawns. *)
Definition runner_input_of (c : context) (name id : string)
    (testCase : list value) : gmap string value :=
  list_to_map [
    ("name", VStr name);
    ("sessionId", VStr id);
    ("testCases", VArr testCase);
    ("model", model c);
    ("architecture", architecture c);
    ("historyManagement", historyManagement c) ].

(** [context.tests.find((test) => test.testId === testId) || null] *)
Definition find_test (c : context) (id : string) : option Test :=
  snd <$> list_find (λ test, testId test = id) (tests c).

(** What the [context] factory of a runner asks of the input that
    [user.createTest] gives it: the three settings of the test
    machine, which nothing checks when [app.updateState] writes them,
    and the test cases of the event. *)
Definition spawnable `{!Host} (c : context) (testCase : list value) : Prop :=
  is_Some (parse ModelSchema (model c))
  ∧ is_Some (parse ArchitectureSchema (architecture c))
  ∧ is_Some (parse HistoryManagementSchema (historyManagement c))
  ∧ Forall (λ tc, is_Some (parse TestCaseSchema tc)) testCase.

Section Machine.
Context `{!Host}.

(** One macrostep. [app.updateState] is handled by the root of the
    machine, in every state; the three events of [displayingTest] in
    each of its states. The assigner of [user.createTest] throws
    "Unknown test type" in the [default] of its [switch], and [spawn]
    throws the ZodError of the [context] factory of the runner. *)
Definition step (cfg : config) (ev : event) : outcome config effect :=
  let '(s, c, next) := cfg in
  match s, ev with
  | _, app_updateState m a h => Next (s, set_settings c m a h, next) []
  | idle, app_startTest => Next (displayingTest displayingTestPage, c, next) []
  | displayingTest _, user_createTest testType name id testCase createdAt =>
      match testRunnerMachine testType with
      | None => ActorError
      | Some machine =>
          let input := runner_input_of c name id testCase in
          match runner_context machine input with
          | None => ActorError
          | Some _ =>
              Next (displayingTest (displayingTestDetails displayingSelectedTest),
                    set_tests c (tests c ++ [newTest testType name id createdAt next]),
                    S next)
                   [spawn next machine input]
          end
      end
  | displayingTest _, user_selectTest id =>
      Next (displayingTest (displayingTestDetails displayingSelectedTest),
            set_selectedTest c (find_test c id), next) []
  | displayingTest _, app_stopTest => Next (idle, c, next) []
  | displayingTest (displayingTestDetails displayingSelectedTest),
    user_clickSingleTestResult =>
      Next (displayingTest (displayingTestDetails displayingTestDetailsModal), c, next) []
  | displayingTest (displayingTestDetails displayingTestDetailsModal),
    user_closeTestResultModal =>
      Next (displayingTest (displayingTestDetails displayingSelectedTest), c, next) []
  | _, _ => Next (s, c, next) []
  end.

End Machine.

End TestMachine.

(* ===================================================================== *)
(** * [machines/productMachine.ts] *)
(* ===================================================================== *)

Module ProductMachine.
Import Js.

(** Number of products per page. *)
Definition PAGE_SIZE : Z := 20.

(** A product is an object, as the types of the events and of the
    promise results say. *)
Definition Product : Type := gmap string value.

(** The context; [product] is [None] when it is [undefined]. The two
    counters are integers: [currentPage] starts at 0 and moves by
    one, [totalProducts] is the count that the server reports. *)
Record context := {
  product : option Product;
  products : list Product;
  currentPage : Z;
  totalProducts : Z;
  filter : option value
}.

Inductive modal_state :=
| displayingProduct
| displayingUpdateProductForm
| displayingDeleteProductForm
| updatingProduct
| deletingProduct.

Inductive add_state :=
| displayingForm
| addingProduct
| addingProductFormRawData
| addingProductsFormRawData.

Inductive displaying_state :=
| fetchingProducts
| displayingProductsTable
| displayingProductsDetailModal (sub : modal_state)
| displayingAddProductsForm (sub : add_state).

Inductive state :=
| idle
| displayingProducts (sub : displaying_state).

(** The events of the machine, and the results of its invoked
    promises. *)
Inductive event :=
| app_startManagingProducts
| app_stopManagingProducts
| user_addProducts
| user_selectProduct (product : Product)
| user_closeAddProducts
| user_closeProductDetailModal
| user_selectUpdateProduct
| user_selectDeleteProduct
| user_submitDeleteProduct (id : string)
| user_submitUpdateProduct (productData : Product)
| user_cancelProductUpdate
| user_submitAddProduct (productData : Product)
| user_submitAddProductRawData (input : value)
| user_submitAddProductsRawData (input : value)
| user_cancelAddProduct
| user_nextPage
| user_previousPage
| user_applyFilter (filter : value)
| productsFetcher_done (products : list Product) (totalProducts : Z)
| productsFetcher_error
| productUpdater_done (output : Product)
| productUpdater_error
| productDeleter_done
| productDeleter_error
| productAdder_done
| productAdder_error
| rawProductAdder_done
| rawProductAdder_error
| rawProductsAdder_done
| rawProductsAdder_error.

Inductive effect :=
| invoke_productsFetcher (page pageSize : Z) (filter : option value)
| invoke_productUpdater (id : value) (productData : Product)
| invoke_productDeleter (id : value)
| invoke_productAdder (productData : Product)
| invoke_rawProductAdder (input : value)
| invoke_rawProductsAdder (input : value)
| emit (n : notification).

Definition config : Type := state * context.

Definition initial : config :=
  (idle, {| product := None; products := []; currentPage := 0;
            totalProducts := 0; filter := None |}).

Definition set_product (c : context) (p : option Product) : context :=
  {| product := p; products := products c; currentPage := currentPage c;
     totalProducts := totalProducts c; filter := filter c |}.

Definition set_currentPage (c : context) (page : Z) : context :=
  {| product := product c; products := products c; currentPage := page;
     totalProducts := totalProducts c; filter := filter c |}.

(** [p.id]: the [id] of a product, [undefined] when it has none. *)
Definition id_of (p : Product) : value := prop p "id".

(** [a === b] for two ids, which [ProductSchema] makes strings, [null]
    or [undefined]. *)
Definition same_id (a b : value) : bool :=
  match a, b with
  | VStr x, VStr y => bool_decide (x = y)
  | VNull, VNull | VUndefined, VUndefined => true
  | _, _ => false
  end.

(** [(context.currentPage + 1) * PAGE_SIZE < context.totalProducts] *)
Definition canGoToNextPage (c : context) : bool :=
  bool_decide ((currentPage c + 1) * PAGE_SIZE < totalProducts c)%Z.

(** [context.currentPage > 0] *)
Definition canGoToPreviousPage (c : context) : bool :=
  bool_decide (0 < currentPage c)%Z.

(** Entering [fetchingProducts] invokes [productsFetcher]; [pre] are
    the actions of the transition. *)
Definition enter_fetchingProducts (c : context) (pre : list effect)
    : outcome config effect :=
  Next (displayingProducts fetchingProducts, c)
       (pre ++ [invoke_productsFetcher (currentPage c) PAGE_SIZE (filter c)]).

Definition enter (sub : displaying_state) (c : context) (out : list effect)
    : outcome config effect :=
  Next (displayingProducts sub, c) out.

(** The events of [displayingProductsDetailModal] and of its states. *)
Definition step_modal (sub : modal_state) (c : context) (ev : event)
    : outcome config effect :=
  let stay := Next (displayingProducts (displayingProductsDetailModal sub), c) [] in
  match ev with
  | user_closeProductDetailModal => enter displayingProductsTable c []
  | user_cancelProductUpdate =>
      enter (displayingProductsDetailModal displayingProduct) c []
  | _ =>
      match sub, ev with
      | displayingProduct, user_selectUpdateProduct =>
          enter (displayingProductsDetailModal displayingUpdateProductForm) c []
      | displayingProduct, user_selectDeleteProduct =>
          enter (displayingProductsDetailModal displayingDeleteProductForm) c []
      | displayingUpdateProductForm, user_submitUpdateProduct productData =>
          (* the input of the invoke throws "No product selected" when
             [context.product] is [undefined] *)
          match product c with
          | None => ActorError
          | Some selected =>
              enter (displayingProductsDetailModal updatingProduct) c
                [invoke_productUpdater (id_of selected) productData]
          end
      | displayingDeleteProductForm, user_submitDeleteProduct _ =>
          enter (displayingProductsDetailModal deletingProduct) c
            [invoke_productDeleter
               (match product c with Some p => id_of p | None => VUndefined end)]
      | updatingProduct, productUpdater_done output =>
          enter (displayingProductsDetailModal displayingProduct)
            {| product := Some output;
               products := (λ p, if same_id (id_of p) (id_of output)
                                 then output else p) <$> products c;
               currentPage := currentPage c;
               totalProducts := totalProducts c; filter := filter c |}
            [emit (Notification "success" "Product updated successfully")]
      | updatingProduct, productUpdater_error =>
          enter (displayingProductsDetailModal displayingUpdateProductForm) c
            [emit (Notification "error" "Failed to update product")]
      | deletingProduct, productDeleter_done =>
          enter_fetchingProducts c
            [emit (Notification "success" "Product deleted successfully")]
      | deletingProduct, productDeleter_error =>
          enter (displayingProductsDetailModal displayingDeleteProductForm) c
            [emit (Notification "error" "Failed to delete product")]
      | _, _ => stay
      end
  end.

(** The events of [displayingAddProductsForm] and of its states. *)
Definition step_add (sub : add_state) (c : context) (ev : event)
    : outcome config effect :=
  let stay := Next (displayingProducts (displayingAddProductsForm sub), c) [] in
  match ev with
  | user_closeAddProducts => enter displayingProductsTable c []
  | user_cancelAddProduct => enter (displayingAddProductsForm displayingForm) c []
  | _ =>
      match sub, ev with
      | displayingForm, user_submitAddProduct productData =>
          enter (displayingAddProductsForm addingProduct) c
            [invoke_productAdder productData]
      | displayingForm, user_submitAddProductRawData input =>
          enter (displayingAddProductsForm addingProductFormRawData) c
            [invoke_rawProductAdder input]
      | displayingForm, user_submitAddProductsRawData input =>
          enter (displayingAddProductsForm addingProductsFormRawData) c
            [invoke_rawProductsAdder input]
      | addingProduct, productAdder_done =>
          enter_fetchingProducts c
            [emit (Notification "success" "Product added successfully")]
      | addingProduct, productAdder_error =>
          enter (displayingAddProductsForm displayingForm) c
            [emit (Notification "error" "Failed to add product")]
      | addingProductFormRawData, rawProductAdder_done =>
          enter_fetchingProducts c
            [emit (Notification "success" "Product added successfully")]
      | addingProductFormRawData, rawProductAdder_error =>
          enter (displayingAddProductsForm displayingForm) c
            [emit (Notification "error" "Failed to add product from raw data")]
      | addingProductsFormRawData, rawProductsAdder_done =>
          enter_fetchingProducts c
            [emit (Notification "success" "Products added successfully")]
      | addingProductsFormRawData, rawProductsAdder_error =>
          enter (displayingAddProductsForm displayingForm) c
            [emit (Notification "error" "Failed to add products from CSV")]
      | _, _ => stay
      end
  end.

(** One macrostep. *)
Definition step (cfg : config) (ev : event) : outcome config effect :=
  let '(s, c) := cfg in
  match s with
  | idle =>
      match ev with
      | app_startManagingProducts => enter_fetchingProducts c []
      | _ => Next (s, c) []
      end
  | displayingProducts sub =>
      match ev with
      | app_stopManagingProducts => Next (idle, c) []
      | _ =>
          match sub with
          | fetchingProducts =>
              match ev with
              | productsFetcher_done ps total =>
                  enter displayingProductsTable
                    {| product := product c; products := ps;
                       currentPage := currentPage c; totalProducts := total;
                       filter := filter c |} []
              | productsFetcher_error =>
                  Next (idle, c)
                       [emit (Notification "error" "Failed to fetch products")]
              | _ => Next (s, c) []
              end
          | displayingProductsTable =>
              match ev with
              | user_selectProduct p =>
                  enter (displayingProductsDetailModal displayingProduct)
                        (set_product c (Some p)) []
              | user_addProducts =>
                  enter (displayingAddProductsForm displayingForm) c []
              | user_nextPage =>
                  if canGoToNextPage c
                  then enter_fetchingProducts
                         (set_currentPage c (currentPage c + 1)) []
                  else Next (s, c) []
              | user_previousPage =>
                  if canGoToPreviousPage c
                  then enter_fetchingProducts
                         (set_currentPage c (Z.max 0 (currentPage c - 1))) []
                  else Next (s, c) []
              | user_applyFilter f =>
                  enter_fetchingProducts
                    {| product := product c; products := products c;
                       currentPage := 0; totalProducts := totalProducts c;
                       filter := Some f |} []
              | _ => Next (s, c) []
              end
          | displayingProductsDetailModal m => step_modal m c ev
          | displayingAddProductsForm a => step_add a c ev
          end
      end
  end.

Fixpoint run (cfg : config) (evs : list event) : outcome config effect :=
  match evs with
  | [] => Next cfg []
  | ev :: evs =>
      match step cfg ev with
      | ActorError => ActorError
      | Next cfg' out =>
          match run cfg' evs with
          | ActorError => ActorError
          | Next cfg'' out' => Next cfg'' (out ++ out')
          end
      end
  end.

(** While the detail modal is open a product is selected, and the
    page number is never negative. *)
Definition well_formed (cfg : config) : Prop :=
  (0 ≤ currentPage cfg.2)%Z
  ∧ match cfg.1 with
    | displayingProducts (displayingProductsDetailModal _) => is_Some (product cfg.2)
    | _ => True
    end.

(** The pages that a macrostep asks the server for. *)
Definition fetched_pages (out : list effect) : list Z :=
  omap (λ e, match e with invoke_productsFetcher page _ _ => Some page | _ => None end) out.

End ProductMachine.

(* ===================================================================== *)
(** * More example data *)
(* ===================================================================== *)

(** Data for runs of the chat machine and of the app machine. *)
Module MachineData.
Import Js.

Definition chat_start : ChatMachine.context :=
  {| ChatMachine.sessionId := "s1"; ChatMachine.webSocketRef := VRef 0;
     ChatMachine.chatHistory := []; ChatMachine.model := VStr "gpt-4o";
     ChatMachine.architecture := VStr "llm-router";
     ChatMachine.historyManagement := VStr "keep-all" |}.

(** A clock that is rendered as one ISO date. *)
Definition toISOString (t : Z) : string := "2024-01-01T00:00:00.000Z".

(** A context of the test machine. *)
Definition test_start : TestMachine.context :=
  {| TestMachine.selectedTest := None; TestMachine.tests := [];
     TestMachine.model := VStr "gpt-4o";
     TestMachine.architecture := VStr "llm-router";
     TestMachine.historyManagement := VStr "keep-all" |}.

(** A test case as the form for new tests submits it. *)
Definition accuracy_case : value :=
  VObj (Examples.object [
    ("messageId", VStr "t1");
    ("prompt", VStr "first");
    ("testType", VStr "accuracy");
    ("description", VStr "");
    ("products", VArr [VObj (Examples.object [("name", VStr "Board")])])
  ]).

(** A saved state of version 1.1 with one chat message, one test
    that has not run, and no products; and a host whose [JSON.parse]
    reads it from the text of one file. *)
Definition saved_test : gmap string value :=
  Examples.object [
    ("testId", VStr "id1");
    ("name", VStr "run");
    ("testType", VStr "accuracy");
    ("createdAt", VStr "today");
    ("testRunnerState", VObj (Examples.object [
       ("name", VStr "run");
       ("sessionId", VStr "id1");
       ("testCases", VArr [accuracy_case]);
       ("testResults", VArr []);
       ("currentTestIndex", VNum 0);
       ("progress", VNum 0);
       ("model", VStr "gpt-4o");
       ("architecture", VStr "llm-router");
       ("historyManagement", VStr "keep-all");
       ("currentState", VStr "idle")]))
  ].

Definition saved_state : value :=
  VObj (Examples.object [
    ("version", VStr "1.1");
    ("appState", VObj (Examples.object [
       ("model", VStr "gpt-4o-mini");
       ("architecture", VStr "llm-router");
       ("historyManagement", VStr "keep-all")]));
    ("chatState", VObj (Examples.object [
       ("sessionId", VStr "s1");
       ("chatHistory", VArr [Examples.response_item]);
       ("model", VStr "gpt-4o");
       ("architecture", VStr "llm-router");
       ("historyManagement", VStr "keep-all");
       ("currentState", VStr "idle")]));
    ("testState", VObj (Examples.object [
       ("selectedTest", VNull);
       ("tests", VArr [VObj saved_test]);
       ("model", VStr "gpt-4o");
       ("architecture", VStr "llm-router");
       ("historyManagement", VStr "keep-all");
       ("currentState", VStr "idle")]));
    ("productState", VObj (Examples.object [
       ("products", VArr []);
       ("currentPage", VNum 0);
       ("totalProducts", VNum 0);
       ("currentState", VStr "idle")]))
  ]).


Definition file_host : Host := {|
  Date_parse := Date_parse (Host := Examples.host);
  JSON_parse s := if decide (s = "saved state") then Some saved_state else None
|}.

(** A response whose timestamp is not a date. *)
Definition undated_response : value :=
  VObj (Examples.object [
    ("messageId", VStr "m1");
    ("sessionId", VStr "s1");
    ("message", VObj (Examples.object [("type", VStr "text"); ("message", VStr "hello")]));
    ("isComplete", VBool true);
    ("model", VStr "gpt-4o");
    ("architectureChoice", VStr "llm-router");
    ("historyManagementChoice", VStr "keep-all");
    ("isUserMessage", VBool false);
    ("timestamp", VStr "yesterday")
  ]).

Definition broken_file : App.File := {| App.file_text := Some "oops" |}.


End MachineData.

(* ===================================================================== *)
(** * Properties of [longestCommonSubsequence] *)
(* ===================================================================== *)

Section LcsFacts.
Import Lcs.

Lemma lcs_ref_nil_r a : lcs_ref a [] = 0.
Proof. by destruct a. Qed.

Lemma lcs_ref_cons x y a b :
  lcs_ref (x :: a) (y :: b) =
    if decide (x = y) then S (lcs_ref a b)
    else Nat.max (lcs_ref a (y :: b)) (lcs_ref (x :: a) b).
Proof. reflexivity. Qed.

Lemma sublist_tail (x : string) s l : x :: s `sublist_of` l → s `sublist_of` l.
Proof. intros H. trans (x :: s); [by apply sublist_cons|done]. Qed.

(** Every common subsequence is at most [lcs_ref] long. *)
Lemma lcs_ref_upper s a b :
  s `sublist_of` a → s `sublist_of` b → length s ≤ lcs_ref a b.
Proof.
  revert s b. induction a as [|x a IHa]; intros s b Ha Hb.
  { apply sublist_nil_r in Ha as ->. simpl. lia. }
  induction b as [|y b IHb] in s, Ha, Hb |- *.
  { apply sublist_nil_r in Hb as ->. simpl. lia. }
  rewrite lcs_ref_cons.
  apply sublist_cons_r in Ha as [Ha|(s1 & -> & Ha)].
  - case_decide as Hxy.
    + apply sublist_cons_r in Hb as [Hb|(s2 & -> & Hb)].
      * specialize (IHa s b Ha Hb). lia.
      * apply sublist_tail in Ha.
        specialize (IHa s2 b Ha Hb). simpl. lia.
    + specialize (IHa s (y :: b) Ha Hb). lia.
  - apply sublist_cons_r in Hb as [Hb|(s2 & Heq & Hb)].
    + case_decide as Hxy.
      * apply sublist_tail in Hb.
        specialize (IHa s1 b Ha Hb). simpl. lia.
      * assert (x :: s1 `sublist_of` x :: a) as Hxa by by apply sublist_skip.
        specialize (IHb (x :: s1) Hxa Hb). lia.
    + injection Heq as -> ->. rewrite decide_True by done.
      specialize (IHa s2 b Ha Hb). simpl. lia.
Qed.

(** Some common subsequence is exactly [lcs_ref] long. *)
Lemma lcs_ref_attained a b :
  ∃ s, s `sublist_of` a ∧ s `sublist_of` b ∧ length s = lcs_ref a b.
Proof.
  revert b. induction a as [|x a IHa]; intros b.
  { exists []. split_and!; [apply sublist_nil_l..|done]. }
  induction b as [|y b IHb].
  { exists []. split_and!; [apply sublist_nil_l..|done]. }
  rewrite lcs_ref_cons. case_decide as Hxy.
  - subst y. destruct (IHa b) as (s & ? & ? & ?).
    exists (x :: s). split_and!; [by apply sublist_skip..|simpl; lia].
  - destruct (Nat.max_spec (lcs_ref a (y :: b)) (lcs_ref (x :: a) b)) as [[_ ->]|[_ ->]].
    + destruct IHb as (s & ? & ? & ?).
      exists s. split_and!; [done|by apply sublist_cons|done].
    + destruct (IHa (y :: b)) as (s & ? & ? & ?).
      exists s. split_and!; [by apply sublist_cons|done|done].
Qed.

Lemma sublist_reverse (s l : list string) :
  s `sublist_of` l → reverse s `sublist_of` reverse l.
Proof.
  induction 1 as [|x s l _ IH|x s l _ IH].
  - done.
  - rewrite !reverse_cons. by apply sublist_app.
  - rewrite reverse_cons. by apply sublist_inserts_r.
Qed.

Lemma lcs_ref_reverse_le a b : lcs_ref a b ≤ lcs_ref (reverse a) (reverse b).
Proof.
  destruct (lcs_ref_attained a b) as (s & Ha & Hb & <-).
  rewrite <-(length_reverse s).
  apply lcs_ref_upper; by apply sublist_reverse.
Qed.

Lemma lcs_ref_reverse a b : lcs_ref (reverse a) (reverse b) = lcs_ref a b.
Proof.
  apply Nat.le_antisymm; [|apply lcs_ref_reverse_le].
  rewrite <-(reverse_involutive a), <-(reverse_involutive b) at 2.
  apply lcs_ref_reverse_le.
Qed.

Lemma lcs_ref_sym a b : lcs_ref a b = lcs_ref b a.
Proof.
  apply Nat.le_antisymm.
  - destruct (lcs_ref_attained a b) as (s & ? & ? & <-). by apply lcs_ref_upper.
  - destruct (lcs_ref_attained b a) as (s & ? & ? & <-). by apply lcs_ref_upper.
Qed.

Lemma lcs_ref_diag a : lcs_ref a a = length a.
Proof.
  apply Nat.le_antisymm.
  - destruct (lcs_ref_attained a a) as (s & Hs & _ & <-). by apply sublist_length.
  - by apply lcs_ref_upper.
Qed.

(** Loop rule: an invariant indexed by the loop counter. *)
Lemma for_loop_inv_count {St : Type} (I : nat → St → Prop)
    (body : nat → St → option St) cnt : ∀ lo s,
  I lo s →
  (∀ k t, lo ≤ k < lo + cnt → I k t → ∃ t', body k t = Some t' ∧ I (k + 1) t') →
  ∃ s', foldl (λ acc k, acc ≫= body k) (Some s) (seq lo cnt) = Some s'
        ∧ I (lo + cnt) s'.
Proof.
  induction cnt as [|cnt IH]; intros lo s Hs Hbody; simpl.
  { exists s. by rewrite Nat.add_0_r. }
  destruct (Hbody lo s) as (s1 & Hb & Hs1); [lia|done|].
  rewrite Hb. destruct (IH (S lo) s1) as (s' & Hrun & Hs').
  - by rewrite <-Nat.add_1_r.
  - intros k t Hk. apply Hbody. lia.
  - exists s'. split; [done|]. by rewrite <-Nat.add_succ_comm.
Qed.

Lemma for_loop_inv {St : Type} (I : nat → St → Prop) lo hi
    (body : nat → St → option St) s :
  lo ≤ hi + 1 →
  I lo s →
  (∀ k t, lo ≤ k ≤ hi → I k t → ∃ t', body k t = Some t' ∧ I (k + 1) t') →
  ∃ s', for_loop lo hi body s = Some s' ∧ I (hi + 1) s'.
Proof.
  intros Hle Hs Hbody. unfold for_loop.
  destruct (for_loop_inv_count I body (hi + 1 - lo) lo s) as (s' & Hrun & Hs');
    [done| |].
  - intros k t Hk. apply Hbody. lia.
  - exists s'. split; [done|]. by replace (hi + 1) with (lo + (hi + 1 - lo)) by lia.
Qed.

Section Table.
Variables arr1 arr2 : list string.
Abbreviation m := (length arr1).
Abbreviation n := (length arr2).
Abbreviation prefix_lcs := (Lcs.prefix_lcs arr1 arr2).
Abbreviation table_shape := (Lcs.table_shape arr1 arr2).
Abbreviation table_inv := (Lcs.table_inv arr1 arr2).

Lemma prefix_lcs_0_l j : prefix_lcs 0 j = 0.
Proof. done. Qed.

Lemma prefix_lcs_0_r i : prefix_lcs i 0 = 0.
Proof. unfold prefix_lcs. simpl. apply lcs_ref_nil_r. Qed.

Lemma prefix_lcs_step i j x y :
  arr1 !! i = Some x → arr2 !! j = Some y →
  prefix_lcs (S i) (S j) =
    if decide (x = y) then S (prefix_lcs i j)
    else Nat.max (prefix_lcs i (S j)) (prefix_lcs (S i) j).
Proof.
  intros Hx Hy. unfold prefix_lcs.
  rewrite (take_S_r _ _ _ Hx), (take_S_r _ _ _ Hy), !reverse_snoc.
  apply lcs_ref_cons.
Qed.

Lemma prefix_lcs_full : prefix_lcs m n = lcs_ref arr1 arr2.
Proof.
  unfold prefix_lcs, m, n. rewrite !firstn_all. apply lcs_ref_reverse.
Qed.

Lemma dp_init_inv : table_inv 1 1 (dp_init m n).
Proof.
  assert (∀ r c, r ≤ m → c ≤ n → dp_get (dp_init m n) r c = Some 0) as Hget.
  { intros r c Hr Hc. unfold dp_get, dp_init.
    rewrite lookup_replicate_2 by lia. simpl. apply lookup_replicate_2. lia. }
  split_and!.
  - split; [unfold dp_init; rewrite length_replicate; lia|].
    intros r row [-> _]%lookup_replicate. by rewrite length_replicate.
  - intros r Hr. apply Hget; lia.
  - intros r c Hr Hc Hpos. rewrite Hget by done. f_equal.
    destruct Hpos as [?|[-> ?]].
    + replace r with 0 by lia. by rewrite prefix_lcs_0_l.
    + replace c with 0 by lia. by rewrite prefix_lcs_0_r.
Qed.

Lemma dp_set_get dp i j v :
  table_shape dp → i ≤ m → j ≤ n →
  ∃ dp', dp_set dp i j v = Some dp' ∧ table_shape dp' ∧
    ∀ r c, dp_get dp' r c =
      if decide (r = i ∧ c = j) then Some v else dp_get dp r c.
Proof.
  intros [Hlen Hrows] Hi Hj. unfold dp_set.
  destruct (dp !! i) as [row|] eqn:Hrow; last first.
  { apply lookup_ge_None in Hrow. lia. }
  simpl. pose proof (Hrows _ _ Hrow) as Hrl.
  rewrite decide_True by lia. eexists. split; [done|]. split.
  - split; [by rewrite length_insert|].
    intros r row' Hr. destruct (decide (r = i)) as [->|Hne].
    + rewrite list_lookup_insert_eq in Hr by lia.
      injection Hr as <-. by rewrite length_insert.
    + rewrite list_lookup_insert_ne in Hr by done. by eapply Hrows.
  - intros r c. unfold dp_get. destruct (decide (r = i)) as [->|Hne].
    + rewrite list_lookup_insert_eq by lia. simpl.
      destruct (decide (c = j)) as [->|Hnc].
      * rewrite decide_True by done. apply list_lookup_insert_eq. lia.
      * rewrite decide_False by tauto. rewrite Hrow. simpl.
        by apply list_lookup_insert_ne.
    + rewrite decide_False by tauto. by rewrite list_lookup_insert_ne.
Qed.

Lemma lcs_cell_inv i j dp :
  1 ≤ i ≤ m → 1 ≤ j ≤ n → table_inv i j dp →
  ∃ dp', lcs_cell arr1 arr2 i j dp = Some dp' ∧ table_inv i (j + 1) dp'.
Proof.
  intros Hi Hj (Hshape & Hcol & Hcells).
  destruct i as [|i]; [lia|]. destruct j as [|j]; [lia|].
  destruct (lookup_lt_is_Some_2 arr1 i) as [x Hx]; [fold m; lia|].
  destruct (lookup_lt_is_Some_2 arr2 j) as [y Hy]; [fold n; lia|].
  assert (∃ v, (∀ dp1, dp_set dp (S i) (S j) v = Some dp1 →
                lcs_cell arr1 arr2 (S i) (S j) dp = Some dp1)
               ∧ v = prefix_lcs (S i) (S j)) as (v & Hrun & Hv).
  { unfold lcs_cell. rewrite (prefix_lcs_step _ _ _ _ Hx Hy).
    replace (S i - 1) with i by lia. replace (S j - 1) with j by lia.
    rewrite Hx, Hy.
    destruct (decide (x = y)) as [->|Hne].
    - rewrite decide_True by done.
      rewrite (Hcells i j) by lia. simpl.
      eexists. split; [intros dp1 H; exact H|lia].
    - rewrite decide_False by congruence.
      rewrite (Hcells i (S j)), (Hcells (S i) j) by lia. simpl.
      eexists. split; [intros dp1 H; exact H|done]. }
  destruct (dp_set_get dp (S i) (S j) v) as (dp' & Hset & Hshape' & Hget);
    [done|lia|lia|].
  exists dp'. split; [by apply Hrun|]. split_and!; [done|..].
  - intros r Hr. rewrite Hget, decide_False by lia. by apply Hcol.
  - intros r c Hr Hc Hpos. rewrite Hget. case_decide as Hrc.
    + destruct Hrc as [-> ->]. by rewrite Hv.
    + apply Hcells; [done..|]. lia.
Qed.

Lemma lcs_row_inv i dp :
  1 ≤ i ≤ m → table_inv i 1 dp →
  ∃ dp', for_loop 1 n (λ j, lcs_cell arr1 arr2 i j) dp = Some dp'
         ∧ table_inv (i + 1) 1 dp'.
Proof.
  intros Hi Hinv.
  destruct (for_loop_inv (table_inv i) 1 n (λ j, lcs_cell arr1 arr2 i j) dp)
    as (dp' & Hrun & Hshape & Hcol & Hcells); [lia|done|..].
  { intros k t Hk Ht. by apply lcs_cell_inv. }
  exists dp'. split; [done|]. split_and!; [done..|].
  intros r c Hr Hc Hpos. destruct (decide (r = i + 1 ∧ c = 0)) as [[-> ->]|].
  - rewrite prefix_lcs_0_r. by apply Hcol.
  - apply Hcells; [done..|]. lia.
Qed.

Lemma longestCommonSubsequence_ref :
  longestCommonSubsequence arr1 arr2 = Some (lcs_ref arr1 arr2).
Proof.
  unfold longestCommonSubsequence. fold m n.
  destruct (for_loop_inv (λ i, table_inv i 1) 1 m
              (λ i, for_loop 1 n (λ j, lcs_cell arr1 arr2 i j)) (dp_init m n))
    as (dp' & -> & _ & _ & Hcells); [lia|apply dp_init_inv|..].
  { intros k t Hk Ht. by apply lcs_row_inv. }
  simpl. rewrite Hcells by lia. by rewrite prefix_lcs_full.
Qed.
End Table.

(** C10: [longestCommonSubsequence] returns a number, the value of the
    reference recursion [lcs_ref], which is the length of a longest
    common subsequence: some common subsequence has that length and
    none is longer. It is symmetric in its arguments, and on twice the
    same array it returns the length of the array. *)
Theorem longestCommonSubsequence_correct (arr1 arr2 : list string) :
  longestCommonSubsequence arr1 arr2 = Some (lcs_ref arr1 arr2)
  ∧ (∃ s, s `sublist_of` arr1 ∧ s `sublist_of` arr2
          ∧ longestCommonSubsequence arr1 arr2 = Some (length s))
  ∧ (∀ s, s `sublist_of` arr1 → s `sublist_of` arr2 →
          ∃ n, longestCommonSubsequence arr1 arr2 = Some n ∧ length s ≤ n)
  ∧ longestCommonSubsequence arr1 arr2 = longestCommonSubsequence arr2 arr1
  ∧ longestCommonSubsequence arr1 arr1 = Some (length arr1).
Proof.
  rewrite !longestCommonSubsequence_ref. split_and!.
  - done.
  - destruct (lcs_ref_attained arr1 arr2) as (s & ? & ? & <-). eauto.
  - intros s Hs1 Hs2. eexists. split; [done|]. by apply lcs_ref_upper.
  - by rewrite (lcs_ref_sym arr1 arr2).
  - by rewrite lcs_ref_diag.
Qed.

(** The table of the source on a small input. *)
Example longestCommonSubsequence_example :
  longestCommonSubsequence ["a"; "b"; "c"; "d"] ["b"; "x"; "d"; "a"] = Some 2.
Proof. reflexivity. Qed.

End LcsFacts.

(* ===================================================================== *)
(** * Properties of the webSocket machine *)
(* ===================================================================== *)

Section WebSocketFacts.
Import Js WebSocket.
Context `{!Host}.

Lemma enter_reconnecting_fresh c :
  reconnectionAttempts c = 0 →
  enter_reconnecting c =
    ((idle, {| socket := socket c; sessionId := sessionId c;
               reconnectionAttempts := 1 |}),
     [emit (Notification "error" "Failed to reconnect after multiple attempts")]).
Proof. intros Hc. unfold enter_reconnecting, canReconnect. simpl. by rewrite Hc. Qed.

Lemma webSocket_step_rests cfg ev cfg' out :
  rests cfg → step cfg ev = Next cfg' out → rests cfg'.
Proof.
  destruct cfg as [s c]. unfold rests, step. simpl. intros Hinv Hstep.
  destruct s; try done; destruct ev;
    cbn -[sendMessage enter_reconnecting] in Hstep;
    try rewrite enter_reconnecting_fresh in Hstep by done;
    try destruct (sendMessage _ _);
    simplify_eq; simpl; lia.
Qed.

Lemma webSocket_reachable_rests cfg : reachable cfg → rests cfg.
Proof.
  induction 1 as [|cfg ev cfg' out _ IH Hstep].
  - unfold rests. simpl. lia.
  - by eapply webSocket_step_rests.
Qed.

(** X8: in a reachable configuration a connection attempt is only
    ever started by a [parentActor.connect] request received in
    [idle]: no failure or drop of the connection is followed by a
    retry. *)
Lemma webSocket_never_retries cfg ev cfg' out :
  reachable cfg →
  step cfg ev = Next cfg' out →
  starts_connection out = true →
  cfg.1 = idle ∧ ∃ sid, ev = parentActor_connect sid.
Proof.
  intros Hinv%webSocket_reachable_rests Hstep Hout.
  destruct cfg as [s c]. unfold rests in Hinv. simpl in *.
  destruct s; try done; destruct ev;
    cbn -[sendMessage enter_reconnecting] in Hstep;
    try rewrite enter_reconnecting_fresh in Hstep by done;
    try (unfold sendMessage in Hstep;
         destruct (parse _ _) as [[]|]; simpl in Hstep; try destruct (socket c));
    simplify_eq; try done.
  - eauto.
  - by destruct (socket c).
Qed.

(** X9: in a reachable configuration, when the connection attempt
    fails ([connecting]) or the connection drops ([connected]), the
    machine goes to [idle] with the counter at 1, emits the
    notification that reconnecting failed, and starts no connection
    attempt. *)
Lemma webSocket_on_failure s c ev :
  reachable (s, c) →
  (s = connecting ∧ ev = socketConnector_error) ∨
  (s = connected ∧ ev = socketListener_disconnected) →
  ∃ out, step (s, c) ev =
           Next (idle, {| socket := socket c; sessionId := sessionId c;
                          reconnectionAttempts := 1 |}) out
         ∧ failure_notified out = true ∧ starts_connection out = false.
Proof.
  intros Hinv%webSocket_reachable_rests [[-> ->]|[-> ->]];
    unfold rests in Hinv; simpl in Hinv;
    cbn -[enter_reconnecting]; rewrite enter_reconnecting_fresh by done;
    eexists; split_and!; done.
Qed.

End WebSocketFacts.

(** C1 (what the code does): starting from the initial state, a
    [parentActor.connect] followed by one failure of the connection
    leaves the counter at 1, below [MAX_RECONNECTION_ATTEMPTS], with
    the guard [canReconnect] true; the machine makes no second
    connection attempt, emits "Failed to reconnect after multiple
    attempts" and rests in [idle]. *)
Theorem webSocket_gives_up_on_first_failure `{!Js.Host} (sid : string) :
  ∃ c out,
    WebSocket.run WebSocket.initial
      [WebSocket.parentActor_connect sid; WebSocket.socketConnector_error]
      = Next (WebSocket.idle, c) out
    ∧ WebSocket.reconnectionAttempts c = 1
    ∧ WebSocket.canReconnect c = true
    ∧ out = [WebSocket.invoke_socketConnector (Some sid);
             WebSocket.emit (Notification "error" "Failed to connect to the server");
             WebSocket.emit (Notification "error"
                               "Failed to reconnect after multiple attempts")].
Proof. eexists _, _. split_and!; reflexivity. Qed.

(* ===================================================================== *)
(** * Properties of the accuracy test runner *)
(* ===================================================================== *)

Section AccuracyRunnerFacts.
Import AccuracyRunner.
Context `{unicode : !Unicode}.

Lemma updateTestResults_Some c r tc :
  testCases c !! currentTestIndex c = Some tc →
  has_expected tc → has_products r →
  ∃ c', updateTestResults c r = Some c'
        ∧ testCases c' = testCases c
        ∧ currentTestIndex c' = currentTestIndex c
        ∧ webSocketRef c' = webSocketRef c
        ∧ length (testResults c') = S (length (testResults c)).
Proof.
  intros Htc [e He] [a Ha]. unfold updateTestResults.
  rewrite Htc. simpl. rewrite He. simpl. rewrite Ha. simpl.
  eexists. split; [done|]. simpl. rewrite length_app. simpl.
  split_and!; [done..|lia].
Qed.

Local Open Scope list_scope.

Lemma updateTestResults_response c r tc :
  testCases c !! currentTestIndex c = Some tc →
  has_expected tc → has_products r →
  ∃ c', updateTestResults c r = Some c'
        ∧ testCases c' = testCases c
        ∧ currentTestIndex c' = currentTestIndex c
        ∧ webSocketRef c' = webSocketRef c
        ∧ sessionId c' = sessionId c
        ∧ model c' = model c
        ∧ architecture c' = architecture c
        ∧ response <$> testResults c' = (response <$> testResults c) ++ [r].
Proof.
  intros Htc [e He] [a Ha]. unfold updateTestResults.
  rewrite Htc. simpl. rewrite He. simpl. rewrite Ha. simpl.
  eexists. split; [done|]. simpl. rewrite fmap_app. by split_and!.
Qed.

(** In [disconnecting] replies are dropped. *)
Lemma run_disconnecting c replies :
  run (disconnecting, c) (map webSocket_messageReceived replies)
  = Next (disconnecting, c) [].
Proof. induction replies as [|r replies IH]; [done|]. simpl. by rewrite IH. Qed.

Lemma accuracy_run_app cfg evs1 evs2 cfg1 out1 :
  run cfg evs1 = Next cfg1 out1 →
  run cfg (evs1 ++ evs2)
  = match run cfg1 evs2 with
    | ActorError => ActorError
    | Next cfg2 out2 => Next cfg2 (out1 ++ out2)
    end.
Proof.
  revert cfg out1. induction evs1 as [|ev evs1 IH]; intros cfg out1 Hrun.
  - simpl in Hrun. injection Hrun as -> <-. simpl. by destruct (run cfg1 evs2).
  - cbn [run app] in *. destruct (step cfg ev) as [cfg' out'|]; [|done].
    destruct (run cfg' evs1) as [cfg'' out''|] eqn:Hrest; [|done].
    injection Hrun as -> <-. rewrite (IH _ _ Hrest).
    destruct (run cfg1 evs2); [|done]. by rewrite app_assoc.
Qed.

(** The running loop from index [i], the request for test case [i]
    being sent: with one reply per request, the machine sends the
    requests for the test cases after [i] but the last, and leaves
    for [disconnecting] on the reply to the request for test case
    [n - 2]. *)
Lemma runner_loop replies : ∀ c,
  Forall has_products replies →
  Forall has_expected (testCases c) →
  replies ≠ [] →
  currentTestIndex c + length replies + 1 = length (testCases c) →
  ∃ c',
    run (running sendingMessage, c) (map webSocket_messageReceived replies)
      = Next (disconnecting, c')
             ((request_for c <$>
                 take (length replies - 1)
                      (drop (S (currentTestIndex c)) (testCases c)))
              ++ [sendTo (webSocketRef c) parentActor_disconnect])
    ∧ response <$> testResults c' = (response <$> testResults c) ++ replies
    ∧ testCases c' = testCases c
    ∧ currentTestIndex c' = length (testCases c) - 1
    ∧ progress c' =
        times (div_length (length (testCases c)) (length (testCases c))) 100.
Proof.
  induction replies as [|r replies IH]; intros c Hr Hcases Hne Hlen; [done|].
  apply Forall_cons in Hr as [Hr Hrs]. simpl in Hlen.
  destruct (lookup_lt_is_Some_2 (testCases c) (currentTestIndex c)) as [tc Htc]; [lia|].
  assert (has_expected tc) as Hexp.
  { eapply Forall_lookup_1; done. }
  destruct (updateTestResults_response c r tc)
    as (c1 & Hupd & Hc1 & Hi1 & Hw1 & Hs1 & Hm1 & Ha1 & Hl1); [done..|].
  cbn [map run step]. rewrite Hupd.
  set (c2 := increaseProgress (increaseCurrentTestIndex c1)).
  assert (testCases c2 = testCases c) as Hc2 by done.
  assert (currentTestIndex c2 = currentTestIndex c + 1) as Hi2 by (simpl; lia).
  assert (response <$> testResults c2 = (response <$> testResults c) ++ [r])
    as Hl2 by done.
  assert (webSocketRef c2 = webSocketRef c) as Hw2 by done.
  assert (request_for c2 = request_for c) as Hreq.
  { unfold request_for. subst c2. simpl. by rewrite Hw1, Hs1, Hm1, Ha1. }
  destruct replies as [|r' replies].
  - (* last reply: testIsComplete *)
    assert (testIsComplete c2 = true) as ->.
    { unfold testIsComplete. rewrite Hc2, Hi2. apply Z.leb_le. simpl in Hlen. lia. }
    simpl. eexists. rewrite Hw1.
    split; [done|]. simpl in *.
    split_and!; [done|done|lia|].
    rewrite Hi1, Hc1. do 3 f_equal. lia.
  - assert (testIsComplete c2 = false) as ->.
    { unfold testIsComplete. rewrite Hc2, Hi2. apply Z.leb_gt. simpl in Hlen. lia. }
    destruct (lookup_lt_is_Some_2 (testCases c2) (currentTestIndex c2)) as [tc2 Htc2].
    { rewrite Hc2, Hi2. simpl in Hlen. lia. }
    unfold enter_sendingMessage, sendNextMessage. rewrite Htc2.
    cbn [mbind option_bind].
    destruct (IH c2) as (c' & Hrun & Hres & Hcs & Hidx & Hprog);
      [done|by rewrite Hc2|done|rewrite Hc2, Hi2; simpl in *; lia|].
    rewrite Hrun. exists c'.
    change (sendTo (webSocketRef c2) (parentActor_sendMessage _))
      with (request_for c2 tc2).
    rewrite Hres, Hcs, Hidx, Hprog, Hl2, Hc2, Hreq, Hw2, Hi2.
    split_and!; [|by rewrite <-app_assoc|done..].
    f_equal. rewrite Hc2, Hi2 in Htc2.
    replace (currentTestIndex c + 1) with (S (currentTestIndex c)) in * by lia.
    rewrite (drop_S _ tc2 (S (currentTestIndex c))) by done.
    cbn [length].
    replace (S (S (length replies)) - 1) with (S (length replies)) by lia.
    replace (S (length replies) - 1) with (length replies) by lia.
    by rewrite app_assoc.
Qed.

(** X6: for [n ≥ 2] test cases, each with expected products, and a
    reply with products to every request (at least [n - 1] replies),
    the run of the accuracy test runner from [idle] reaches
    [disconnecting] having sent, between [parentActor.connect] and
    [parentActor.disconnect], exactly the requests for the first
    [n - 1] test cases, in their order: the last test case is never
    sent. Its results are those of the first [n - 1] replies, and
    replies that arrive later are dropped. *)
Lemma runner_misses_last_case c replies :
  2 ≤ length (testCases c) →
  testResults c = [] → currentTestIndex c = 0 →
  Forall has_expected (testCases c) →
  Forall has_products replies →
  length (testCases c) ≤ length replies + 1 →
  ∃ c',
    run (idle, c) ([user_startTest; webSocket_connected]
                   ++ map webSocket_messageReceived replies)
      = Next (disconnecting, c')
             (sendTo (webSocketRef c) (parentActor_connect (sessionId c))
              :: (request_for c <$> take (length (testCases c) - 1) (testCases c))
              ++ [sendTo (webSocketRef c) parentActor_disconnect])
    ∧ response <$> testResults c' = take (length (testCases c) - 1) replies
    ∧ length (testResults c') = length (testCases c) - 1
    ∧ testCases c' = testCases c
    ∧ currentTestIndex c' = length (testCases c) - 1.
Proof.
  intros Hn Hres Hidx Hcases Hreplies Hlen.
  set (n := length (testCases c)) in *.
  destruct (lookup_lt_is_Some_2 (testCases c) 0) as [tc Htc]; [lia|].
  rewrite <-(take_drop (n - 1) replies), map_app.
  assert (length (take (n - 1) replies) = n - 1) as Htake.
  { rewrite length_take. lia. }
  destruct (runner_loop (take (n - 1) replies) c)
    as (c' & Hrun & Hl & Hcs & Hi & _).
  { by apply Forall_take. }
  { done. }
  { intros Hnil. rewrite Hnil in Htake. simpl in Htake. lia. }
  { rewrite Hidx, Htake. unfold n. lia. }
  cbn [app run step]. unfold enter_sendingMessage, sendNextMessage.
  rewrite Hidx, Htc. cbn [mbind option_bind].
  rewrite (accuracy_run_app _ _ _ _ _ Hrun), run_disconnecting.
  exists c'. rewrite Hidx, Htake in *. rewrite Hres in Hl. simpl in Hl.
  assert (response <$> testResults c' = take (n - 1) (take (n - 1) replies ++ drop (n - 1) replies)) as Hresp.
  { rewrite take_app_length' by done. done. }
  split_and!; [|done| |done|done].
  - rewrite app_nil_r. cbn [app]. do 2 f_equal.
    change (sendTo (webSocketRef c) (parentActor_sendMessage _))
      with (request_for c tc).
    subst n. destruct (testCases c) as [|tc0 rest]; [done|].
    injection Htc as ->. cbn [drop length] in *. rewrite drop_0.
    replace (S (length rest) - 1 - 1) with (length rest - 1) by lia.
    replace (S (length rest) - 1) with (S (length rest - 1)) by lia.
    done.
  - rewrite <-(length_fmap response), Hl. done.
Qed.

End AccuracyRunnerFacts.

(* ===================================================================== *)
(** * Properties of the app machine *)
(* ===================================================================== *)

Section AppFacts.
Import Js App.
Context `{!Host}.
Variable uuidv4 : string.
Variables (serializeChatState serializeTestState serializeProductState
            : value → option value).

Abbreviation step := (App.step uuidv4
                    serializeChatState serializeTestState serializeProductState).
Abbreviation submit_import := (App.submit_import uuidv4
                    serializeChatState serializeTestState serializeProductState).
Abbreviation deserializeAppState := (App.deserializeAppState uuidv4).

(** X14: submitting the import form with a file that cannot be read
    or is not valid JSON: the [importState] actor is invoked and
    fails, the machine is back on the form with the notification
    "Failed to import state", and its context is unchanged. *)
Lemma import_invalid_json h c n file :
  importStateFromFile file = None →
  submit_import (Config importingState_displayingImportStateForm h c n) file
  = Next (Config importingState_displayingImportStateForm h c n)
         [invoke_importState file;
          emit (Notification "error" "Failed to import state")].
Proof.
  intros Hfile. unfold App.submit_import, importState. by rewrite Hfile.
Qed.

(** A state of another version: [deserializeAppState] throws inside
    the [assign] of [onDone], which stops the actor. *)
Lemma deserializeAppState_version saved n :
  prop saved "version" ≠ VStr APP_STATE_VERSION →
  deserializeAppState (VObj saved) n = None.
Proof.
  intros Hv. unfold App.deserializeAppState.
  destruct (prop saved "version"); try done.
  case_decide; [congruence|done].
Qed.

Lemma import_unsupported_version h c n file saved :
  importStateFromFile file = Some (VObj saved) →
  prop saved "version" ≠ VStr APP_STATE_VERSION →
  submit_import (Config importingState_displayingImportStateForm h c n) file
  = ActorError.
Proof.
  intros Hfile Hv. unfold App.submit_import, importState.
  rewrite Hfile. cbn -[App.deserializeAppState].
  by rewrite deserializeAppState_version.
Qed.



(** C5 (what the code does): when the imported file parses to an
    object of another version, here "1.0", the [importState] actor
    succeeds and the [assign] of [onDone] throws: the app actor stops
    in error; it neither emits the error notification nor returns to
    [displayingImportStateForm]. The same happens from the form for a
    file whose text is the valid JSON [{}], which has no version. *)
Theorem import_other_version_stops_actor h c n file :
  step (Config (importingState_importingState file) h c n)
       (importState_done (VObj {["version" := VStr "1.0"]}))
  = ActorError
  ∧ App.submit_import (H := Examples.host) uuidv4
      serializeChatState serializeTestState serializeProductState
      (Config importingState_displayingImportStateForm h c n)
      {| file_text := Some "{}" |}
    = ActorError.
Proof. split; reflexivity. Qed.

Lemma update_settings_frame (c : gmap string value) m a hm k :
  k ≠ "model" → k ≠ "architecture" → k ≠ "historyManagement" →
  (<["model" := m]> (<["architecture" := a]> (<["historyManagement" := hm]> c))) !! k
  = c !! k.
Proof. intros. by rewrite !lookup_insert_ne. Qed.

(** C7: [user.submitUpdateSettingForm] is handled in
    [updatingSettings.displayingUpdateSettingForm] only. There it
    writes the three submitted values to [model], [architecture] and
    [historyManagement] and leaves every other field of the context
    ([chatRef], [testRef], [prodRef] among them) as it was; the
    [app.updateState] messages of the step are exactly two, carrying
    the three submitted values, to the chat actor and to the test
    actor. In every other state the event changes nothing and sends
    nothing. *)
Theorem submitUpdateSettingForm_frame cfg model architecture historyManagement :
  let ev := user_submitUpdateSettingForm model architecture historyManagement in
  let c := context cfg in
  let c' := <["model" := VStr model]>
            (<["architecture" := VStr architecture]>
            (<["historyManagement" := VStr historyManagement]> c)) in
  let updateData :=
    app_updateState (VStr model) (VStr architecture) (VStr historyManagement) in
  match st cfg with
  | updatingSettings_displayingUpdateSettingForm =>
      ∃ out,
        step cfg ev = Next (Config (open (history cfg)) (history cfg) c' (next_ref cfg)) out
        ∧ filter is_updateState out
          = [sendTo (prop c "chatRef") updateData; sendTo (prop c "testRef") updateData]
  | _ => step cfg ev = Next cfg []
  end
  ∧ c' !! "chatRef" = c !! "chatRef"
  ∧ c' !! "testRef" = c !! "testRef"
  ∧ c' !! "prodRef" = c !! "prodRef"
  ∧ delete "model" (delete "architecture" (delete "historyManagement" c'))
    = delete "model" (delete "architecture" (delete "historyManagement" c)).
Proof.
  intros ev c c' updateData. split_and!.
  - destruct cfg as [s h ctx n]. simpl in *. destruct s; try done.
    eexists. split; [reflexivity|].
    unfold prop. rewrite !lookup_insert. simpl.
    by destruct h.
  - by apply update_settings_frame.
  - by apply update_settings_frame.
  - by apply update_settings_frame.
  - apply map_eq. intros k. unfold c'.
    destruct (decide (k = "model")) as [->|?]; [by rewrite !lookup_delete_eq|].
    rewrite !(lookup_delete_ne _ "model") by done.
    destruct (decide (k = "architecture")) as [->|?]; [by rewrite !lookup_delete_eq|].
    rewrite !(lookup_delete_ne _ "architecture") by done.
    destruct (decide (k = "historyManagement")) as [->|?]; [by rewrite !lookup_delete_eq|].
    rewrite !(lookup_delete_ne _ "historyManagement") by done.
    by apply update_settings_frame.
Qed.

End AppFacts.

(* ===================================================================== *)
(** * Properties of [calculateProductAccuracy] *)
(* ===================================================================== *)

Section AccuracyFacts.
Import AccuracyRunner.
Context `{unicode : !Unicode}.

Lemma div_length_Fin a b :
  b ≠ 0 → div_length a b = Fin (Z.of_nat a # Pos.of_nat b).
Proof. by destruct b. Qed.

Lemma Zpos_of_nat b : b ≠ 0 → Z.pos (Pos.of_nat b) = Z.of_nat b.
Proof.
  destruct b as [|b]; [done|]. intros _.
  by rewrite <-Pos.of_nat_succ, Zpos_P_of_succ_nat, Nat2Z.inj_succ.
Qed.

Lemma quotient_nonneg a b : (0 <= Z.of_nat a # Pos.of_nat b)%Q.
Proof. unfold Qle. simpl. lia. Qed.

Lemma quotient_le_1 a b : b ≠ 0 → a ≤ b → (Z.of_nat a # Pos.of_nat b <= 1)%Q.
Proof. intros Hb Hab. unfold Qle. simpl. rewrite Zpos_of_nat by done. lia. Qed.

(** Actual products with pairwise distinct names match at most as many
    names as there are expected products. *)
Lemma matched_le_expected (actual expected : list Product) :
  NoDup (lower_name <$> actual) →
  length (filter (λ p, lower_name p ∈@{gset string}
                        list_to_set (lower_name <$> expected)) actual)
  ≤ length expected.
Proof.
  intros Hnd.
  set (matched := filter _ actual).
  rewrite <-(length_fmap lower_name matched), <-(length_fmap lower_name expected).
  apply submseteq_length, NoDup_submseteq.
  - eapply sublist_NoDup; [done|]. apply fmap_sublist, sublist_filter.
  - intros x (p & -> & Hp)%list_elem_of_fmap.
    apply list_elem_of_filter in Hp as [Hp _].
    by apply elem_of_list_to_set in Hp.
Qed.

Lemma calculateProductAccuracy_Some actual expected :
  expected ≠ [] →
  calculateProductAccuracy actual (Some expected) =
    Fin (Z.of_nat (length (filter (λ p, lower_name p ∈@{gset string}
                              list_to_set (lower_name <$> expected)) actual))
         # Pos.of_nat (length expected)).
Proof.
  intros Hne. unfold calculateProductAccuracy.
  apply div_length_Fin. by destruct expected.
Qed.

(** The products that [calculateProductAccuracy] counts are the
    actual products whose lower-case name is the lower-case name of
    an expected product. *)
Lemma matched_products (actual expected : list Product) :
  filter (λ p, lower_name p ∈@{gset string}
                 list_to_set (lower_name <$> expected)) actual
  = filter (λ p, lower_name p ∈ lower_name <$> expected) actual.
Proof. apply list_filter_iff. intros p. apply elem_of_list_to_set. Qed.

(** C9 (as amended): without expected products the accuracy is
    exactly 1, whatever the actual products. Against a non-empty list
    of expected products it is the number of actual products whose
    lower-case name is the lower-case name of an expected product,
    divided by the number of expected products: a rational that is at
    least 0, and at most 1 when the lower-case names of the actual
    products are pairwise distinct. This holds for every
    lower-casing function. *)
Theorem calculateProductAccuracy_bounds (actual expected : list Product) :
  calculateProductAccuracy actual None = Fin 1
  ∧ (expected ≠ [] →
     let matched :=
       filter (λ p, lower_name p ∈ lower_name <$> expected) actual in
     let q := Z.of_nat (length matched) # Pos.of_nat (length expected) in
     calculateProductAccuracy actual (Some expected) = Fin q
     ∧ (0 <= q)%Q
     ∧ (NoDup (lower_name <$> actual) → (q <= 1)%Q)).
Proof.
  split; [done|]. intros Hne matched q. subst matched q.
  rewrite calculateProductAccuracy_Some, matched_products by done.
  split; [done|]. split; [apply quotient_nonneg|]. intros Hnd.
  apply quotient_le_1; [by destruct expected|].
  rewrite <-matched_products. by apply matched_le_expected.
Qed.

(** The accuracy is never negative, whatever the actual products. *)
Lemma calculateProductAccuracy_nonneg (actual expected : list Product) :
  expected ≠ [] →
  ∃ q, calculateProductAccuracy actual (Some expected) = Fin q ∧ (0 <= q)%Q.
Proof.
  intros Hne. rewrite calculateProductAccuracy_Some by done.
  eexists. split; [done|apply quotient_nonneg].
Qed.

End AccuracyFacts.

(* ===================================================================== *)
(** * Properties of the schemas *)
(* ===================================================================== *)

Section ZodFacts.
Import Js.
Context `{!Host}.

Lemma parse_object shape m :
  parse (ZObject shape) (VObj m) = VObj <$> parse_fields m shape.
Proof.
  simpl. f_equal. induction shape as [|[k item] shape IH]; [done|].
  simpl. by rewrite IH.
Qed.

(** An object is accepted exactly when each field of the shape accepts
    the property of its name. *)
Lemma parse_fields_is_Some m shape :
  is_Some (parse_fields m shape) ↔
  Forall (λ ks, is_Some (parse ks.2 (prop m ks.1))) shape.
Proof.
  induction shape as [|[k item] shape IH]; simpl.
  { split; [constructor|eauto]. }
  rewrite Forall_cons, <-IH. simpl. split.
  - intros [r Hr]. destruct (parse item _); [|done]. simpl in Hr.
    destruct (parse_fields m shape); [|done]. eauto.
  - intros [[r ->] [rest ->]]. simpl. eauto.
Qed.

Lemma parse_object_is_Some m shape :
  is_Some (parse (ZObject shape) (VObj m)) ↔
  Forall (λ ks, is_Some (parse ks.2 (prop m ks.1))) shape.
Proof. by rewrite parse_object, fmap_is_Some, parse_fields_is_Some. Qed.

(** Each field of the output is the parsed property; fields outside
    the shape are stripped. *)
Lemma parse_fields_lookup m shape out k :
  NoDup shape.*1 →
  parse_fields m shape = Some out →
  out !! k =
    match list_find (λ ks, ks.1 = k) shape with
    | Some (_, (_, item)) =>
        r ← parse item (prop m k);
        if has_key m k || negb (is_undefined r) then Some r else None
    | None => None
    end.
Proof.
  revert out. induction shape as [|[k' item] shape IH]; intros out Hnd Hp.
  { simpl in *. by simplify_eq. }
  simpl in Hp. apply NoDup_cons in Hnd as [Hk' Hnd].
  destruct (parse item (prop m k')) as [r|] eqn:Hr; [|done]. simpl in Hp.
  destruct (parse_fields m shape) as [rest|] eqn:Hrest; [|done]. simpl in Hp.
  injection Hp as <-. specialize (IH rest Hnd eq_refl).
  simpl. case_decide as Hkk; simpl in Hkk.
  - subst k'. rewrite Hr. simpl.
    destruct (has_key m k || negb (is_undefined r)).
    + by rewrite lookup_insert_eq.
    + rewrite IH. destruct (list_find _ shape) as [[i [k2 item2]]|] eqn:Hfind; [|done].
      apply list_find_Some in Hfind as (Hi & Hk2 & _). simpl in Hk2. subst k2.
      exfalso. apply Hk'. apply list_elem_of_fmap. exists (k, item2).
      split; [done|]. by eapply list_elem_of_lookup_2.
  - assert ((if has_key m k' || negb (is_undefined r)
             then <[k' := r]> rest else rest) !! k = rest !! k) as ->.
    { destruct (_ || _); [by rewrite lookup_insert_ne|done]. }
    rewrite IH. by destruct (list_find _ shape) as [[i [k2 item2]]|].
Qed.

Lemma parse_fields_dom m shape out k :
  parse_fields m shape = Some out → is_Some (out !! k) → k ∈ shape.*1.
Proof.
  revert out. induction shape as [|[k' item] shape IH]; intros out Hp Hk.
  { simpl in Hp. simplify_eq. by rewrite lookup_empty in Hk; destruct Hk. }
  simpl in Hp.
  destruct (parse item (prop m k')) as [r|]; [|done]. simpl in Hp.
  destruct (parse_fields m shape) as [rest|]; [|done]. simpl in Hp.
  injection Hp as <-. simpl.
  destruct (decide (k = k')) as [->|Hne]; [by left|]. right.
  apply (IH rest); [done|].
  destruct (_ || _); [by rewrite lookup_insert_ne in Hk|done].
Qed.

(** The field of a key of the shape whose parsed value is defined. *)
Lemma parse_fields_lookup_in m shape out k item r :
  NoDup shape.*1 →
  parse_fields m shape = Some out →
  (k, item) ∈ shape →
  parse item (prop m k) = Some r →
  is_undefined r = false →
  out !! k = Some r.
Proof.
  revert out. induction shape as [|[k' item'] shape IH]; intros out Hnd Hp Hin Hr Hu.
  { by apply elem_of_nil in Hin. }
  apply NoDup_cons in Hnd as [Hk' Hnd].
  change (parse_fields m ((k', item') :: shape)) with
    (r ← parse item' (prop m k'); rest ← parse_fields m shape;
     Some (if has_key m k' || negb (is_undefined r)
           then <[k' := r]> rest else rest)) in Hp.
  destruct (parse item' (prop m k')) as [r'|] eqn:Hr'; [|done].
  destruct (parse_fields m shape) as [rest|] eqn:Hrest; [|done].
  injection Hp as <-.
  apply elem_of_cons in Hin as [[= <- <-]|Hin].
  - rewrite Hr in Hr'. injection Hr' as <-.
    by rewrite Hu, orb_true_r, lookup_insert_eq.
  - assert (k ≠ k') as Hne.
    { intros ->. apply Hk', list_elem_of_fmap. by exists (k', item). }
    rewrite <-(IH rest Hnd eq_refl Hin Hr Hu).
    destruct (_ || _); [by rewrite lookup_insert_ne|done].
Qed.

(** ** Parsing an output again *)

Lemma settled_stable s : settled s → stable s.
Proof. intros Hs v r r' Hv Hr. rewrite (Hs v r Hv) in Hr. by injection Hr. Qed.

Lemma identity_settled s :
  (∀ v r, parse s v = Some r → r = v) → settled s.
Proof. intros Hid v r Hv. by rewrite (Hid v r Hv) in Hv |- *. Qed.

Lemma settled_string : settled ZString.
Proof. apply identity_settled. intros v r. destruct v; naive_solver. Qed.

Lemma settled_boolean : settled ZBoolean.
Proof. apply identity_settled. intros v r. destruct v; naive_solver. Qed.

Lemma settled_date : settled ZDate.
Proof.
  apply identity_settled. intros v r. destruct v as [| | | | |[t|]| | |]; naive_solver.
Qed.

Lemma settled_unknown : settled ZUnknown.
Proof. apply identity_settled. naive_solver. Qed.

Lemma settled_literal b : settled (ZLiteral b).
Proof.
  apply identity_settled. intros v r. destruct v; try done. simpl.
  case_decide; naive_solver.
Qed.

Lemma settled_enum values : settled (ZEnum values).
Proof.
  apply identity_settled. intros v r. destruct v; try done. simpl.
  case_decide; naive_solver.
Qed.

Lemma parse_union a b v :
  parse (ZUnion a b) v =
    match parse a v with Some r => Some r | None => parse b v end.
Proof. done. Qed.

Lemma parse_optional e v :
  parse (ZOptional e) v =
    match v with VUndefined => Some VUndefined | _ => parse e v end.
Proof. done. Qed.

Lemma parse_array_list item l :
  parse (ZArray item) (VArr l) = VArr <$> mapM (parse item) l.
Proof. done. Qed.

Lemma stable_optional e : stable e → stable (ZOptional e).
Proof.
  intros He v r r'. rewrite !parse_optional. intros Hv Hr.
  destruct v; simplify_eq; try done;
    (destruct r; simplify_eq; [done|by eapply He..]).
Qed.

Lemma stable_nullable e : stable e → stable (ZNullable e).
Proof.
  intros He v r r'.
  change (parse (ZNullable e) v) with
    (match v with VNull => Some VNull | _ => parse e v end).
  change (parse (ZNullable e) r) with
    (match r with VNull => Some VNull | _ => parse e r end).
  intros Hv Hr.
  destruct v; simplify_eq; try done;
    (destruct r; simplify_eq; [by eapply He|done|by eapply He..]).
Qed.

Lemma stable_array item : stable item → stable (ZArray item).
Proof.
  intros Hi v r r' Hv Hr.
  destruct v as [| | | | | |l| |]; try done.
  rewrite parse_array_list in Hv. apply fmap_Some in Hv as (k & Hk & ->).
  rewrite parse_array_list in Hr. apply fmap_Some in Hr as (k' & Hk' & ->).
  f_equal. apply mapM_Some in Hk, Hk'. clear -Hi Hk Hk'.
  revert k' Hk'. induction Hk as [|x y l k Hxy _ IH]; intros k' Hk'.
  - by inversion Hk'.
  - inversion Hk' as [|? z ? k'' Hyz Hrest]; subst. f_equal; [|by apply IH].
    by eapply Hi.
Qed.

(** A union whose first option is settled and rejects what its second
    option returns for the inputs that the first option rejects. *)
Lemma stable_union a b :
  settled a → stable b →
  (∀ v r, parse a v = None → parse b v = Some r → parse a r = None) →
  stable (ZUnion a b).
Proof.
  intros Ha Hb Hab v r r'. rewrite !parse_union. intros Hv Hr.
  destruct (parse a v) as [ra|] eqn:Hav.
  - injection Hv as ->. rewrite (Ha _ _ Hav) in Hr. by injection Hr.
  - rewrite (Hab _ _ Hav Hv) in Hr. by eapply Hb.
Qed.

Lemma parse_timestamp_date t r :
  parse (ZNewDate (ZUnion ZDate ZString)) (VDate t) = Some r → r = VDate t.
Proof. destruct t; by intros [= <-]. Qed.

Lemma stable_timestamp : stable (ZNewDate (ZUnion ZDate ZString)).
Proof.
  intros v r r' Hv Hr.
  assert (∃ t, r = VDate t) as [t ->].
  { destruct v as [| | | |s|[t|]| | |]; try done; injection Hv as <-; by eexists. }
  by apply parse_timestamp_date in Hr.
Qed.

(** The output of an object schema, key by key. *)
Lemma parse_fields_output m shape out k item :
  NoDup shape.*1 →
  parse_fields m shape = Some out →
  (k, item) ∈ shape →
  ∃ r, parse item (prop m k) = Some r
       ∧ prop out k = r
       ∧ has_key out k = has_key m k || negb (is_undefined r).
Proof.
  revert out. induction shape as [|[k' item'] shape IH]; intros out Hnd Hp Hin.
  { by apply elem_of_nil in Hin. }
  apply NoDup_cons in Hnd as [Hk' Hnd].
  change (parse_fields m ((k', item') :: shape)) with
    (r ← parse item' (prop m k'); rest ← parse_fields m shape;
     Some (if has_key m k' || negb (is_undefined r)
           then <[k' := r]> rest else rest)) in Hp.
  destruct (parse item' (prop m k')) as [r'|] eqn:Hr'; [|done].
  destruct (parse_fields m shape) as [rest|] eqn:Hrest; [|done].
  injection Hp as <-.
  apply elem_of_cons in Hin as [[= <- <-]|Hin].
  - exists r'. split; [done|].
    assert (rest !! k = None) as Hnone.
    { apply eq_None_not_Some. intros Hs. by apply Hk', (parse_fields_dom m _ rest). }
    destruct (has_key m k || negb (is_undefined r')) eqn:Hset.
    + unfold prop, has_key. rewrite lookup_insert_eq. split; [done|].
      apply bool_decide_eq_true_2. eauto.
    + apply orb_false_iff in Hset as [_ Hu%negb_false_iff].
      destruct r'; try done.
      unfold prop, has_key. rewrite Hnone. split; [done|].
      apply bool_decide_eq_false_2. by intros [? ?].
  - assert (k ≠ k') as Hne.
    { intros ->. apply Hk', list_elem_of_fmap. by exists (k', item). }
    destruct (IH rest Hnd eq_refl Hin) as (r & Hr & Hprop & Hkey).
    exists r. split; [done|].
    assert ((if has_key m k' || negb (is_undefined r')
             then <[k' := r']> rest else rest) !! k = rest !! k) as Hsame.
    { destruct (has_key m k' || negb (is_undefined r'));
        [by rewrite lookup_insert_ne|done]. }
    unfold prop, has_key in *. by rewrite Hsame.
Qed.

Lemma lookup_from_prop (m m' : gmap string value) k :
  prop m k = prop m' k → has_key m k = has_key m' k → m !! k = m' !! k.
Proof.
  unfold prop, has_key. intros Hp Hk.
  destruct (m !! k) as [x|], (m' !! k) as [x'|]; simpl in *; subst; try done;
    exfalso; revert Hk;
    rewrite bool_decide_eq_true_2, bool_decide_eq_false_2;
    first [done | eauto | by intros [? ?]].
Qed.

Lemma parse_fields_reparse m shape out out' :
  NoDup shape.*1 →
  parse_fields m shape = Some out →
  parse_fields out shape = Some out' →
  (∀ k item r r', (k, item) ∈ shape → parse item (prop m k) = Some r →
                  parse item r = Some r' → r' = r) →
  out' = out.
Proof.
  intros Hnd Hout Hout' Hitems. apply map_eq. intros k.
  destruct (decide (k ∈ shape.*1)) as [Hk|Hk]; last first.
  { assert (out !! k = None) as ->.
    { apply eq_None_not_Some. intros Hs. by apply Hk, (parse_fields_dom m _ out). }
    apply eq_None_not_Some. intros Hs. by apply Hk, (parse_fields_dom out _ out'). }
  apply list_elem_of_fmap in Hk as ([k0 item] & Heq & Hin). simpl in Heq. subst k0.
  destruct (parse_fields_output _ _ _ _ _ Hnd Hout Hin) as (r & Hr & Hp & Hkey).
  destruct (parse_fields_output _ _ _ _ _ Hnd Hout' Hin) as (r' & Hr' & Hp' & Hkey').
  rewrite Hp in Hr'. pose proof (Hitems _ _ _ _ Hin Hr Hr') as ->.
  apply lookup_from_prop; [by rewrite Hp, Hp'|].
  rewrite Hkey', Hkey. by destruct (has_key m k), (is_undefined r).
Qed.

Lemma stable_object shape :
  NoDup shape.*1 →
  (∀ k item, (k, item) ∈ shape → stable item) →
  stable (ZObject shape).
Proof.
  intros Hnd Hitems v r r' Hv Hr.
  destruct v as [| | | | | | |m|]; try done.
  rewrite parse_object in Hv. apply fmap_Some in Hv as (out & Hout & ->).
  rewrite parse_object in Hr. apply fmap_Some in Hr as (out' & Hout' & ->).
  f_equal. eapply parse_fields_reparse; [done..|].
  intros k item x x' Hin Hx Hx'. by eapply Hitems.
Qed.

Lemma settled_object shape :
  NoDup shape.*1 →
  (∀ k item, (k, item) ∈ shape → settled item) →
  settled (ZObject shape).
Proof.
  intros Hnd Hitems v r Hv.
  destruct v as [| | | | | | |m|]; try done.
  rewrite parse_object in Hv. apply fmap_Some in Hv as (out & Hout & ->).
  rewrite parse_object.
  assert (is_Some (parse_fields out shape)) as [out' Hout'].
  { apply parse_fields_is_Some, Forall_forall. intros [k item] Hin. simpl.
    destruct (parse_fields_output _ _ _ _ _ Hnd Hout Hin) as (x & Hx & <- & _).
    rewrite (Hitems _ _ Hin _ _ Hx). eauto. }
  rewrite Hout'. simpl. do 2 f_equal.
  eapply parse_fields_reparse; [done..|].
  intros k item x x' Hin Hx Hx'. by eapply settled_stable, Hx'; [eapply Hitems|].
Qed.

Lemma settled_record_unknown : settled (ZRecord ZUnknown).
Proof.
  apply identity_settled. intros v r Hv.
  destruct v as [| | | | | | |m|]; try done.
  change (VObj <$> map_fold (λ k x acc, out ← acc; r ← parse ZUnknown x;
                                         Some (<[k := r]> out)) (Some ∅) m
          = Some r) in Hv.
  apply fmap_Some in Hv as (out & Hout & ->). f_equal.
  revert out Hout.
  apply (map_fold_weak_ind (λ acc m, ∀ out, acc = Some out → out = m)).
  - by intros out [= <-].
  - intros i x m' acc Hi IH out Hout.
    destruct acc as [out0|]; [|done]. simpl in Hout. injection Hout as <-.
    by rewrite (IH out0 eq_refl).
Qed.

Lemma stable_string_or_strings : stable (ZUnion ZString (ZArray ZString)).
Proof.
  apply stable_union.
  - apply settled_string.
  - apply stable_array, settled_stable, settled_string.
  - intros v r _ Hr. destruct v as [| | | | | |l| |]; try done.
    rewrite parse_array_list in Hr. by apply fmap_Some in Hr as (k & _ & ->).
Qed.

Create HintDb schema discriminated.
#[local] Hint Resolve settled_string settled_boolean settled_date
  settled_unknown settled_literal settled_enum settled_record_unknown : schema.
#[local] Hint Resolve settled_stable stable_optional stable_nullable
  stable_array stable_timestamp stable_string_or_strings : schema.

(** Every field of a shape written out as a list. *)
Ltac each_field :=
  let k := fresh "k" in
  let item := fresh "item" in
  let Hin := fresh "Hin" in
  intros k item Hin;
  repeat (apply elem_of_cons in Hin as [Hin|Hin];
          [injection Hin as -> ->|]);
  [..|by apply elem_of_nil in Hin].

Lemma stable_ProductSchema : stable ProductSchema.
Proof.
  apply stable_object; [compute_done|].
  each_field; unfold opt_null; eauto 6 with schema.
Qed.

Lemma stable_ResponseContentSchema : stable ResponseContentSchema.
Proof.
  apply stable_object; [compute_done|].
  pose proof stable_ProductSchema.
  each_field; eauto 6 with schema.
Qed.

Lemma stable_ResponseMessageSchema : stable ResponseMessageSchema.
Proof.
  apply stable_object; [compute_done|].
  pose proof stable_ResponseContentSchema.
  each_field;
    unfold ModelSchema, ArchitectureSchema, HistoryManagementSchema;
    eauto 6 with schema.
Qed.

Lemma settled_RequestMessageSchema : settled RequestMessageSchema.
Proof.
  apply settled_object; [compute_done|].
  each_field;
    unfold ModelSchema, ArchitectureSchema, HistoryManagementSchema;
    eauto with schema.
Qed.

(** A response is not mistaken for a request when it is parsed again:
    its [isUserMessage] is [false]. *)
Lemma response_is_no_request v r :
  parse ResponseMessageSchema v = Some r → parse RequestMessageSchema r = None.
Proof.
  intros Hv. destruct v as [| | | | | | |m|]; try done.
  unfold ResponseMessageSchema in Hv. rewrite parse_object in Hv.
  apply fmap_Some in Hv as (out & Hout & ->).
  destruct (λ Hnd, parse_fields_output _ _ _ "isUserMessage" (ZLiteral false)
                     Hnd Hout) as (x & Hx & Hp & _).
  { compute_done. }
  { do 7 apply list_elem_of_further. apply list_elem_of_here. }
  assert (x = VBool false) as ->.
  { clear -Hx. destruct (prop m "isUserMessage") as [| |[]| | | | | |];
      by simplify_eq/=. }
  apply eq_None_not_Some. unfold RequestMessageSchema.
  rewrite parse_object_is_Some. intros Hall.
  apply Forall_app in Hall as [_ Hall].
  apply Forall_cons in Hall as [[y Hy] _]. simpl in Hy. by rewrite Hp in Hy.
Qed.

Lemma stable_ChatHistoryItemSchema : stable ChatHistoryItemSchema.
Proof.
  apply stable_union.
  - apply settled_RequestMessageSchema.
  - apply stable_ResponseMessageSchema.
  - intros v r _. apply response_is_no_request.
Qed.

(** ** Key conversion *)

(** Every key of the converted object is the converted form of a key
    of the input, with the value of that key. *)
Lemma transformKeys_lookup_Some m d k2 v :
  transformKeys m d !! k2 = Some v →
  ∃ k, convert_key d k = k2 ∧ m !! k = Some v.
Proof.
  unfold transformKeys. revert k2 v.
  apply (map_fold_weak_ind (λ r m, ∀ k2 v, r !! k2 = Some v →
           ∃ k, convert_key d k = k2 ∧ m !! k = Some v)).
  { intros k2 v. by rewrite lookup_empty. }
  intros i x m' r Hi IH k2 v Hk2.
  destruct (decide (convert_key d i = k2)) as [<-|Hne].
  - rewrite lookup_insert_eq in Hk2. injection Hk2 as <-.
    exists i. by rewrite lookup_insert_eq.
  - rewrite lookup_insert_ne in Hk2 by done.
    destruct (IH _ _ Hk2) as (k & <- & Hk). exists k. split; [done|].
    rewrite lookup_insert_ne; [done|]. intros ->. congruence.
Qed.

(** A key whose converted form no other key of the object shares is
    found under its converted form. *)
Lemma transformKeys_lookup m d k :
  (∀ k', is_Some (m !! k') → convert_key d k' = convert_key d k → k' = k) →
  transformKeys m d !! convert_key d k = m !! k.
Proof.
  unfold transformKeys.
  apply (map_fold_weak_ind (λ r m,
    (∀ k', is_Some (m !! k') → convert_key d k' = convert_key d k → k' = k) →
    r !! convert_key d k = m !! k)).
  { intros _. by rewrite !lookup_empty. }
  intros i x m' r Hi IH Hinj.
  destruct (decide (i = k)) as [->|Hne].
  - by rewrite !lookup_insert_eq.
  - rewrite !lookup_insert_ne; [|done|].
    + apply IH. intros k' Hk'. apply Hinj.
      rewrite lookup_insert_ne; [done|]. intros ->. rewrite Hi in Hk'. by destruct Hk'.
    + intros Heq. apply Hne, Hinj; [|done]. rewrite lookup_insert_eq. eauto.
Qed.

Lemma parse_string_is_Some v : is_Some (parse ZString v) ↔ is_string v.
Proof.
  unfold is_string. split.
  - intros [r Hr]. destruct v; simplify_eq/=. eauto.
  - intros [s ->]. simpl. eauto.
Qed.

Lemma parse_string_array_is_Some v :
  is_Some (parse (ZArray ZString) v) ↔ is_string_array v.
Proof.
  unfold is_string_array. split.
  - intros [r Hr]. destruct v as [| | | | | |l| |]; simplify_eq/=.
    apply fmap_Some in Hr as (k & Hk & _).
    apply mapM_Some in Hk.
    assert (Forall is_string l) as Hl.
    { eapply Forall2_Forall_l; [done|]. apply Forall_forall. intros y _ x Hx.
      apply parse_string_is_Some. eauto. }
    clear Hk. induction Hl as [|x l [s ->] _ [ss IH]].
    + by exists [].
    + injection IH as ->. by exists (s :: ss).
  - intros [l ->]. simpl. apply fmap_is_Some, mapM_is_Some.
    apply Forall_fmap, Forall_forall. intros s _. simpl. eauto.
Qed.

Lemma parse_opt_null_is_Some item v :
  is_Some (parse (opt_null item) v) ↔
  absent_or (λ v, is_Some (parse item v)) v.
Proof.
  unfold absent_or, opt_null. split.
  - intros Hv. destruct v; simpl in Hv; eauto.
  - intros [->|[->|Hv]]; [simpl; eauto..|].
    destruct v; simpl; eauto.
Qed.

Lemma absent_or_iff (P Q : value → Prop) v :
  (P v ↔ Q v) → absent_or P v ↔ absent_or Q v.
Proof. unfold absent_or. tauto. Qed.

Lemma ProductSchema_accepts (d : gmap string value) :
  is_Some (parse ProductSchema (VObj d)) ↔ product_shaped d.
Proof.
  unfold ProductSchema, product_shaped, required_attributes,
    optional_string_attributes, optional_array_attributes.
  rewrite parse_object_is_Some.
  rewrite !Forall_cons, !Forall_nil. cbn [fst snd].
  rewrite !parse_opt_null_is_Some.
  rewrite !(absent_or_iff _ _ _ (parse_string_is_Some _)).
  rewrite !(absent_or_iff _ _ _ (parse_string_array_is_Some _)).
  rewrite !parse_string_is_Some.
  tauto.
Qed.

End ZodFacts.

(* ===================================================================== *)
(** * The outgoing envelope of [sendMessage] *)
(* ===================================================================== *)

Section SendMessageFacts.
Import Js WebSocket.
Context `{!Host}.

Lemma RequestDataSchema_keys :
  NoDup ["type"; "sessionId"; "messageId"; "message"; "timestamp"; "model";
         "architectureChoice"; "historyManagementChoice"].
Proof. compute_done. Qed.

(** camelToSnake sends no other key of the schema to the snake_case
    form of [k]. *)
Lemma RequestDataSchema_keys_inj (out : gmap string value) m k :
  parse_fields m [("type", ZString); ("sessionId", ZString);
                  ("messageId", ZString); ("message", ZString);
                  ("timestamp", ZOptional ZString); ("model", ModelSchema);
                  ("architectureChoice", ArchitectureSchema);
                  ("historyManagementChoice", HistoryManagementSchema)] = Some out →
  k ∈ ["type"; "sessionId"; "messageId"] →
  ∀ k', is_Some (out !! k') →
        convert_key CamelToSnake k' = convert_key CamelToSnake k → k' = k.
Proof.
  intros Hout Hk k' Hk' Hconv.
  apply (parse_fields_dom _ _ _ _ Hout) in Hk'. simpl in Hk'.
  repeat (apply elem_of_cons in Hk as [->|Hk]);
    [..|by apply elem_of_nil in Hk];
    repeat (apply elem_of_cons in Hk' as [->|Hk']);
    try done; try (by apply elem_of_nil in Hk');
    vm_compute in Hconv; discriminate.
Qed.

Lemma prop_insert_ne (m : gmap string value) k k' v :
  k ≠ k' → prop (<[k := v]> m) k' = prop m k'.
Proof. intros. unfold prop. by rewrite lookup_insert_ne. Qed.

Lemma prop_insert_eq (m : gmap string value) k v : prop (<[k := v]> m) k = v.
Proof. unfold prop. by rewrite lookup_insert_eq. Qed.

(** C3: in [connected], with a socket and a stored sessionId, a
    [parentActor.sendMessage] whose data satisfies [RequestDataSchema]
    makes the machine emit exactly one ["text_message"] on the socket.
    Its payload, the snake_case form of the validated request, has the
    fields [type] and [message_id] of the event data and a
    [session_id] equal to the stored sessionId, whatever sessionId the
    event data carried. *)
Theorem sendMessage_envelope c sk sid data parsed :
  socket c = Some sk →
  sessionId c = Some sid →
  parse RequestDataSchema data = Some parsed →
  ∃ msg,
    step (connected, c) (parentActor_sendMessage data)
      = Next (connected, c) [socket_emit sk "text_message" (VObj msg)]
    ∧ msg !! "session_id" = Some (VStr sid)
    ∧ (∃ t, msg !! "type" = Some (VStr t) ∧ prop (spread data) "type" = VStr t)
    ∧ (∃ i, msg !! "message_id" = Some (VStr i)
            ∧ prop (spread data) "messageId" = VStr i).
Proof.
  intros Hsk Hsid Hdata.
  destruct data as [| | | | | | |d|]; try done.
  assert (is_Some (parse RequestDataSchema (VObj d))) as Hok by eauto.
  unfold RequestDataSchema in Hok. rewrite parse_object_is_Some in Hok.
  rewrite !Forall_cons in Hok. cbn [fst snd] in Hok.
  destruct Hok as (Htype & _ & Hid & Hmsg & Hts & Hmodel & Harch & Hhist & _).
  apply parse_string_is_Some in Htype as [t Ht], Hid as [i Hi].
  set (d' := <["sessionId" := VStr sid]> d).
  assert (is_Some (parse RequestDataSchema (VObj d'))) as Hok'.
  { unfold RequestDataSchema. rewrite parse_object_is_Some.
    rewrite !Forall_cons. cbn [fst snd]. unfold d'.
    rewrite prop_insert_eq, !prop_insert_ne by done.
    rewrite Ht, Hi. split_and!; try done; simpl; eauto. }
  unfold RequestDataSchema in Hok'. rewrite parse_object in Hok'.
  apply fmap_is_Some in Hok' as [out Hout].
  (* the fields of the validated request *)
  pose proof (λ Hnd, parse_fields_lookup _ _ _ "sessionId" Hnd Hout) as Hs.
  specialize (Hs RequestDataSchema_keys).
  pose proof (λ Hnd, parse_fields_lookup _ _ _ "type" Hnd Hout) as Hty.
  specialize (Hty RequestDataSchema_keys).
  pose proof (λ Hnd, parse_fields_lookup _ _ _ "messageId" Hnd Hout) as Hmi.
  specialize (Hmi RequestDataSchema_keys).
  cbn -[parse] in Hs, Hty, Hmi. unfold d' in Hs, Hty, Hmi.
  rewrite prop_insert_eq in Hs. rewrite prop_insert_ne in Hty, Hmi by done.
  rewrite Ht in Hty. rewrite Hi in Hmi. simpl in Hs, Hty, Hmi.
  rewrite orb_true_r in Hs, Hty, Hmi.
  exists (requestDataToJson out). split_and!.
  - cbn -[parse requestDataToJson]. unfold sessionId_value. rewrite Hsid, Hsk.
    simpl spread. fold d'. unfold RequestDataSchema. rewrite parse_object, Hout.
    done.
  - rewrite <-Hs. unfold requestDataToJson.
    change "session_id" with (convert_key CamelToSnake "sessionId").
    apply transformKeys_lookup, (RequestDataSchema_keys_inj _ _ _ Hout). set_solver.
  - exists t. split; [|done]. rewrite <-Hty. unfold requestDataToJson.
    change "type" with (convert_key CamelToSnake "type") at 1.
    apply transformKeys_lookup, (RequestDataSchema_keys_inj _ _ _ Hout). set_solver.
  - exists i. split; [|done]. rewrite <-Hmi. unfold requestDataToJson.
    change "message_id" with (convert_key CamelToSnake "messageId").
    apply transformKeys_lookup, (RequestDataSchema_keys_inj _ _ _ Hout). set_solver.
Qed.

End SendMessageFacts.

(* ===================================================================== *)
(** * [productFromJson] *)
(* ===================================================================== *)

Section ProductFacts.
Import Js.
Context `{!Host}.

Lemma prop_delete (d : gmap string value) k a :
  prop (delete k d) a = if decide (k = a) then VUndefined else prop d a.
Proof.
  unfold prop. case_decide as Hk.
  - subst. by rewrite lookup_delete_eq.
  - by rewrite lookup_delete_ne.
Qed.

Lemma product_shaped_delete d k :
  k ∉ required_attributes → product_shaped d → product_shaped (delete k d).
Proof.
  intros Hk (Hreq & Hstr & Harr). split_and!.
  - rewrite Forall_forall in Hreq |- *. intros a Ha.
    rewrite prop_delete, decide_False; [by apply Hreq|]. by intros ->.
  - eapply Forall_impl; [exact Hstr|]. intros a Hs. rewrite prop_delete.
    case_decide; [by left|done].
  - eapply Forall_impl; [exact Harr|]. intros a Hs. rewrite prop_delete.
    case_decide; [by left|done].
Qed.

Lemma product_shaped_required d k :
  k ∈ required_attributes → ¬ product_shaped (delete k d).
Proof.
  intros Hk (Hreq & _).
  rewrite Forall_forall in Hreq. destruct (Hreq k Hk) as [s Hs].
  by rewrite prop_delete, decide_True in Hs.
Qed.

(** C8 (as amended): [productFromJson] succeeds exactly when, after
    the key transformation, [productId], [name], [manufacturer] and
    [formFactor] are strings and each of the other eighteen attributes
    is absent, [undefined], [null] or of its type. Omitting an attribute
    other than those four never makes the parse fail; omitting one of
    the four always does. *)
Theorem productFromJson_accepts (json : gmap string value) :
  let d := transformKeys json SnakeToCamel in
  (is_Some (productFromJson json) ↔ product_shaped d)
  ∧ (∀ k, k ∉ required_attributes →
          is_Some (parse ProductSchema (VObj d)) →
          is_Some (parse ProductSchema (VObj (delete k d))))
  ∧ (∀ k, k ∈ required_attributes →
          parse ProductSchema (VObj (delete k d)) = None).
Proof.
  intros d. split_and!.
  - unfold productFromJson. apply ProductSchema_accepts.
  - intros k Hk. rewrite !ProductSchema_accepts. by apply product_shaped_delete.
  - intros k Hk. apply eq_None_not_Some. rewrite ProductSchema_accepts.
    by apply product_shaped_required.
Qed.

End ProductFacts.

(* ===================================================================== *)
(** * Persistence of the chat state *)
(* ===================================================================== *)

Section ChatFacts.
Import Js Chat.
Context `{!Host}.

Lemma parse_string_id v :
  is_Some (parse ZString v) → parse ZString v = Some v ∧ is_string v.
Proof. intros [r Hr]. destruct v; simplify_eq/=. split; [done|by eexists]. Qed.

Lemma parse_enum_id values v :
  is_Some (parse (ZEnum values) v) →
  parse (ZEnum values) v = Some v ∧ is_string v.
Proof.
  intros [r Hr]. destruct v; simplify_eq/=. case_decide; simplify_eq.
  split; [done|by eexists].
Qed.

Lemma parse_array item v :
  is_Some (parse (ZArray item) v) →
  ∃ l l', v = VArr l ∧ mapM (parse item) l = Some l'
          ∧ parse (ZArray item) v = Some (VArr l').
Proof.
  intros [r Hr]. destruct v as [| | | | | |l| |]; try done.
  change (VArr <$> mapM (parse item) l = Some r) in Hr.
  apply fmap_Some in Hr as (l' & Hl' & ->).
  exists l, l'. split_and!; [done..|].
  change (VArr <$> mapM (parse item) l = Some (VArr l')). by rewrite Hl'.
Qed.

Lemma prop_is_string_lookup (m : gmap string value) k :
  is_string (prop m k) → m !! k = Some (prop m k).
Proof. unfold prop. intros [s Hs]. by destruct (m !! k); simplify_eq/=. Qed.

Lemma ChatContextSchema_keys :
  NoDup ["sessionId"; "webSocketRef"; "chatHistory"; "model"; "architecture";
         "historyManagement"].
Proof. compute_done. Qed.

Lemma serializeChatState_props c state_value :
  let s := serializeChatState (Snapshot c state_value) in
  prop s "sessionId" = prop c "sessionId"
  ∧ prop s "chatHistory" = prop c "chatHistory"
  ∧ prop s "model" = prop c "model"
  ∧ prop s "architecture" = prop c "architecture"
  ∧ prop s "historyManagement" = prop c "historyManagement"
  ∧ prop s "webSocketRef" = VUndefined
  ∧ has_key s "webSocketRef" = false.
Proof.
  unfold serializeChatState, has_key, prop. simpl.
  rewrite !lookup_insert. simpl. by split_and!.
Qed.

(** Items that are outputs of [ChatHistoryItemSchema.parse] parse to
    themselves. *)
Lemma parsed_items_unchanged hist hist' :
  mapM (parse ChatHistoryItemSchema) hist = Some hist' →
  Forall (λ item, ∃ v, parse ChatHistoryItemSchema v = Some item) hist →
  hist' = hist.
Proof.
  intros Hm%mapM_Some Hitems. induction Hm as [|x y l k Hxy _ IH].
  - done.
  - apply Forall_cons in Hitems as [[v Hv] Hitems]. f_equal; [|by apply IH].
    by eapply stable_ChatHistoryItemSchema.
Qed.

(** For any object [c] that satisfies [ChatContextSchema],
    [deserializeChatState(serializeChatState(actor))] returns
    [ChatContextSchema.parse(c)] with [webSocketRef] set to
    [undefined]: [sessionId], [model], [architecture] and
    [historyManagement] are those of [c], and [chatHistory] is the
    history of [c] with each item parsed by [ChatHistoryItemSchema];
    it is the history of [c] exactly when every item parses to
    itself. *)
Lemma round_trip_parses_history (c : gmap string value) (state_value : value) :
  is_Some (parse ChatContextSchema (VObj c)) →
  ∃ d hist hist',
    deserializeChatState (VObj (serializeChatState (Snapshot c state_value)))
      = Some d
    ∧ c !! "chatHistory" = Some (VArr hist)
    ∧ mapM (parse ChatHistoryItemSchema) hist = Some hist'
    ∧ d !! "chatHistory" = Some (VArr hist')
    ∧ (d !! "chatHistory" = c !! "chatHistory" ↔ hist' = hist)
    ∧ (Forall (λ item, ∃ v, parse ChatHistoryItemSchema v = Some item) hist →
       d !! "chatHistory" = c !! "chatHistory")
    ∧ d !! "sessionId" = c !! "sessionId"
    ∧ d !! "model" = c !! "model"
    ∧ d !! "architecture" = c !! "architecture"
    ∧ d !! "historyManagement" = c !! "historyManagement"
    ∧ d !! "webSocketRef" = Some VUndefined.
Proof.
  intros Hok. unfold ChatContextSchema in Hok.
  rewrite parse_object_is_Some in Hok.
  rewrite !Forall_cons in Hok. cbn [fst snd] in Hok.
  destruct Hok as (Hsid & _ & Hhist & Hm & Ha & Hhm & _).
  apply parse_string_id in Hsid as [Hsid Hsid'].
  apply parse_enum_id in Hm as [Hm Hm'], Ha as [Ha Ha'], Hhm as [Hhm Hhm'].
  apply parse_array in Hhist as (hist & hist' & Hh & Hhist' & Hhist).
  destruct (serializeChatState_props c state_value)
    as (Hs1 & Hs2 & Hs3 & Hs4 & Hs5 & Hs6 & Hs7).
  set (s := serializeChatState (Snapshot c state_value)) in *.
  assert (is_Some (parse_fields s
    [("sessionId", ZString); ("webSocketRef", ZAny);
     ("chatHistory", ZArray ChatHistoryItemSchema); ("model", ModelSchema);
     ("architecture", ArchitectureSchema);
     ("historyManagement", HistoryManagementSchema)])) as [out Hout].
  { apply parse_fields_is_Some. rewrite !Forall_cons. cbn [fst snd].
    unfold ModelSchema, ArchitectureSchema, HistoryManagementSchema.
    rewrite Hs1, Hs2, Hs3, Hs4, Hs5, Hs6, Hsid, Hm, Ha, Hhm, Hhist.
    split_and!; try done; by eexists. }
  assert (∀ k item r,
           (k, item) ∈ [("sessionId", ZString); ("webSocketRef", ZAny);
                        ("chatHistory", ZArray ChatHistoryItemSchema);
                        ("model", ModelSchema);
                        ("architecture", ArchitectureSchema);
                        ("historyManagement", HistoryManagementSchema)] →
           parse item (prop s k) = Some r → is_undefined r = false →
           out !! k = Some r) as Hfield.
  { intros k item r Hin Hr Hu.
    by apply (λ Hnd, parse_fields_lookup_in _ _ _ k item r Hnd Hout);
      [exact ChatContextSchema_keys|..]. }
  assert (c !! "chatHistory" = Some (VArr hist)) as Hch.
  { clear -Hh. unfold prop in Hh.
    destruct (c !! "chatHistory"); simpl in Hh; by simplify_eq. }
  assert (out !! "chatHistory" = Some (VArr hist')) as Hout_hist.
  { apply (Hfield _ (ZArray ChatHistoryItemSchema));
      [do 2 apply list_elem_of_further; apply list_elem_of_here| |done].
    by rewrite Hs2. }
  exists (<["webSocketRef" := VUndefined]> out), hist, hist'.
  split_and!.
  - unfold deserializeChatState, ChatContextSchema.
    rewrite parse_object. fold s. by rewrite Hout.
  - done.
  - done.
  - by rewrite lookup_insert_ne.
  - rewrite lookup_insert_ne, Hout_hist, Hch by done.
    split; [by intros [= ->]|by intros ->].
  - intros Hitems. rewrite lookup_insert_ne, Hout_hist, Hch by done.
    do 2 f_equal. by apply (parsed_items_unchanged hist).
  - rewrite lookup_insert_ne by done.
    rewrite (prop_is_string_lookup c) by done.
    apply (Hfield _ ZString); [apply list_elem_of_here| |by destruct Hsid' as [? ->]].
    by rewrite Hs1.
  - rewrite lookup_insert_ne by done.
    rewrite (prop_is_string_lookup c) by done.
    apply (Hfield _ ModelSchema);
      [do 3 apply list_elem_of_further; apply list_elem_of_here|
      |by destruct Hm' as [? ->]].
    by rewrite Hs3.
  - rewrite lookup_insert_ne by done.
    rewrite (prop_is_string_lookup c) by done.
    apply (Hfield _ ArchitectureSchema);
      [do 4 apply list_elem_of_further; apply list_elem_of_here|
      |by destruct Ha' as [? ->]].
    by rewrite Hs4.
  - rewrite lookup_insert_ne by done.
    rewrite (prop_is_string_lookup c) by done.
    apply (Hfield _ HistoryManagementSchema);
      [do 5 apply list_elem_of_further; apply list_elem_of_here|
      |by destruct Hhm' as [? ->]].
    by rewrite Hs5.
  - by rewrite lookup_insert_eq.
Qed.

End ChatFacts.


Section ChatExamples.
Import Js Chat Examples.

(** An object that satisfies [ChatContextSchema] without being the
    context of an actor: its history holds a response whose timestamp
    is still an ISO string, which the parse inside
    [deserializeChatState] turns into a [Date]. *)
Example round_trip_of_response_item :
  is_Some (deserializeChatState (H := host)
    (VObj (serializeChatState
             (Snapshot (chat_context [response_item]) (VStr "idle")))))
  ∧ (deserializeChatState (H := host)
       (VObj (serializeChatState
                (Snapshot (chat_context [response_item]) (VStr "idle"))))
     ≫= λ d, d !! "chatHistory")
    ≠ chat_context [response_item] !! "chatHistory".
Proof.
  split.
  - apply (bool_decide_unpack _). vm_compute. reflexivity.
  - vm_compute. discriminate.
Qed.

End ChatExamples.

(* ===================================================================== *)
(** * [responseMessageFromJson] *)
(* ===================================================================== *)

Section ResponseFacts.
Import Js.
Context `{!Host}.

Lemma to_upper_not_lower c : is_lower c = true → is_lower (to_upper c) = false.
Proof.
  unfold to_upper. intros Hc. rewrite Hc. unfold is_lower in *.
  apply andb_true_iff in Hc as [H1%Nat.leb_le H2%Nat.leb_le].
  rewrite nat_ascii_embedding by lia.
  apply andb_false_iff. left. apply Nat.leb_gt. lia.
Qed.

(** The first character of a converted key is not a lower-case letter
    when the key does not start with one, and the converted key has no
    underscore followed by a lower-case letter. *)
Lemma snakeToCamel_camel n : ∀ s, String.length s ≤ n →
  has_snake (snakeToCamel s) = false
  ∧ (∀ a t, s = String a t → is_lower a = false →
       ∃ b u, snakeToCamel s = String b u ∧ is_lower b = false).
Proof.
  induction n as [|n IH]; intros s Hlen.
  { destruct s; [|simpl in Hlen; lia]. split; [done|]. by intros. }
  destruct s as [|a t]; [split; [done|by intros]|].
  destruct t as [|c rest].
  { split; [done|]. intros a' t' [= <- <-] Ha. simpl. eauto. }
  simpl in Hlen.
  change (snakeToCamel (String a (String c rest))) with
    (if Ascii.eqb a "_" && is_lower c
     then String (to_upper c) (snakeToCamel rest)
     else String a (snakeToCamel (String c rest))).
  destruct (Ascii.eqb a "_" && is_lower c) eqn:Hconv.
  - apply andb_true_iff in Hconv as [Ha Hc]. apply Ascii.eqb_eq in Ha as ->.
    destruct (IH rest) as [Hrest Hhead]; [lia|]. split.
    + change (has_snake (String (to_upper c) (snakeToCamel rest))) with
        (match snakeToCamel rest with
         | String c' _ => (Ascii.eqb (to_upper c) "_" && is_lower c')
                          || has_snake (snakeToCamel rest)
         | EmptyString => false
         end).
      destruct (snakeToCamel rest) as [|c' u] eqn:Hr; [done|].
      rewrite Hrest, orb_false_r. apply andb_false_iff. left.
      apply Ascii.eqb_neq. intros Heq.
      pose proof (to_upper_not_lower c Hc) as Hup. unfold to_upper in Heq.
      rewrite Hc in Heq. unfold is_lower in Hc.
      apply andb_true_iff in Hc as [H1%Nat.leb_le H2%Nat.leb_le].
      apply (f_equal nat_of_ascii) in Heq.
      rewrite nat_ascii_embedding in Heq by lia.
      change (nat_of_ascii "_") with 95 in Heq. lia.
    + intros a' t' [= <- <-] _. eexists _, _. split; [done|].
      by apply to_upper_not_lower.
  - destruct (IH (String c rest)) as [Hrest Hhead]; [simpl; lia|]. split.
    + change (has_snake (String a (snakeToCamel (String c rest)))) with
        (match snakeToCamel (String c rest) with
         | String c' _ => (Ascii.eqb a "_" && is_lower c')
                          || has_snake (snakeToCamel (String c rest))
         | EmptyString => false
         end).
      destruct (snakeToCamel (String c rest)) as [|c' u] eqn:Hr; [done|].
      rewrite Hrest, orb_false_r.
      destruct (Ascii.eqb a "_") eqn:Ha; [|done]. simpl in *.
      destruct (Hhead c rest eq_refl Hconv) as (b & u' & [= <- <-] & Hb). done.
    + intros a' t' [= <- <-] Ha. eauto.
Qed.

Lemma snakeToCamel_no_snake s : has_snake (snakeToCamel s) = false.
Proof. by apply (snakeToCamel_camel (String.length s)). Qed.

(** The keys of a deep-converted object are the converted keys of the
    object, and their values are deep-converted. *)
Lemma deepCamelCase_object m m' k v :
  deepCamelCase (VObj m) = VObj m' →
  m' !! k = Some v →
  has_snake k = false
  ∧ ∃ k0 v0, k = snakeToCamel k0 ∧ m !! k0 = Some v0 ∧ v = deepCamelCase v0.
Proof.
  change (deepCamelCase (VObj m)) with
    (VObj (map_fold (λ k x acc, <[snakeToCamel k := deepCamelCase x]> acc) ∅ m)).
  intros [= <-]. revert k v.
  apply (map_fold_weak_ind (λ r m, ∀ k v, r !! k = Some v →
    has_snake k = false
    ∧ ∃ k0 v0, k = snakeToCamel k0 ∧ m !! k0 = Some v0 ∧ v = deepCamelCase v0)).
  { intros k v. by rewrite lookup_empty. }
  intros i x m0 r Hi IH k v Hk.
  destruct (decide (snakeToCamel i = k)) as [<-|Hne].
  - rewrite lookup_insert_eq in Hk. injection Hk as <-.
    split; [apply snakeToCamel_no_snake|].
    exists i, x. by rewrite lookup_insert_eq.
  - rewrite lookup_insert_ne in Hk by done.
    destruct (IH _ _ Hk) as (Hsn & k0 & v0 & -> & Hk0 & ->).
    split; [done|]. exists k0, v0. split_and!; [done| |done].
    rewrite lookup_insert_ne; [done|]. intros ->. congruence.
Qed.

Lemma has_key_ext (m m' : gmap string value) k :
  m !! k = m' !! k → has_key m k = has_key m' k.
Proof. unfold has_key. by intros ->. Qed.

Lemma prop_ext (m m' : gmap string value) k :
  m !! k = m' !! k → prop m k = prop m' k.
Proof. unfold prop. by intros ->. Qed.

Lemma parse_message_string_Some d message :
  parsed_message d = Some message →
  ∃ cd, parse_message_string d = Some cd
        ∧ prop cd "message" = message
        ∧ ∀ k, k ≠ "message" → cd !! k = d !! k.
Proof.
  unfold parsed_message, parse_message_string. intros Hm.
  destruct (prop d "message") eqn:Hd;
    try (injection Hm as <-; by exists d).
  rewrite Hm. simpl. eexists. split; [done|]. split; [by rewrite prop_insert_eq|].
  intros k Hk. by rewrite lookup_insert_ne.
Qed.

Lemma parse_message_string_None d :
  parsed_message d = None → parse_message_string d = None.
Proof.
  unfold parsed_message, parse_message_string.
  destruct (prop d "message"); try done. by intros ->.
Qed.

Lemma response_to_message_lookup cd k :
  response_to_message (deep_camel_message cd) !! k =
    if decide (k = "message")
    then Some (rename_response (deepCamelCase (prop cd "message")))
    else cd !! k.
Proof.
  unfold response_to_message, deep_camel_message.
  rewrite prop_insert_eq. unfold rename_response.
  destruct (deepCamelCase (prop cd "message")) as [| | | | | | |m|] eqn:Hm;
    try (rewrite lookup_insert; by repeat case_decide).
  destruct (_ && _).
  - rewrite insert_insert_eq, lookup_insert.
    rewrite delete_insert_ne by done. by repeat case_decide.
  - rewrite lookup_insert; by repeat case_decide.
Qed.

Lemma id_to_messageId_lookup cd k :
  id_to_messageId cd !! k =
    if decide (k = "messageId")
    then (if has_key cd "messageId" then cd !! "messageId" else cd !! "id")
    else if decide (k = "id")
    then (if has_key cd "messageId" then cd !! "id" else None)
    else cd !! k.
Proof.
  unfold id_to_messageId, has_key, prop.
  destruct (cd !! "id") as [i|] eqn:Hid, (cd !! "messageId") as [mi|] eqn:Hmi;
    simpl.
  - repeat case_decide; by subst.
  - rewrite lookup_delete, lookup_insert. repeat case_decide; by subst.
  - repeat case_decide; by subst.
  - repeat case_decide; by subst.
Qed.

Lemma default_isUserMessage_lookup cd k :
  default_isUserMessage cd !! k =
    if decide (k = "isUserMessage")
    then (if is_undefined (prop cd "isUserMessage") then Some (VBool false)
          else cd !! "isUserMessage")
    else cd !! k.
Proof.
  unfold default_isUserMessage.
  destruct (is_undefined _); [rewrite lookup_insert|];
    repeat case_decide; by subst.
Qed.

(** Every key of the object is found under its converted form. *)
Lemma transformKeys_is_Some m d k :
  is_Some (m !! k) → is_Some (transformKeys m d !! convert_key d k).
Proof.
  unfold transformKeys.
  apply (map_fold_weak_ind (λ r m,
    is_Some (m !! k) → is_Some (r !! convert_key d k))).
  { rewrite lookup_empty. by intros [??]. }
  intros i x m' r Hi IH Hk.
  destruct (decide (convert_key d i = convert_key d k)) as [->|Hne].
  - rewrite lookup_insert_eq. eauto.
  - rewrite lookup_insert_ne by done. apply IH.
    rewrite lookup_insert_ne in Hk; [done|]. by intros ->.
Qed.

(** Every key of an object is found under its camelCase form in the
    deep-converted object. *)
Lemma deepCamelCase_is_Some m m' k :
  deepCamelCase (VObj m) = VObj m' →
  is_Some (m !! k) → is_Some (m' !! snakeToCamel k).
Proof.
  change (deepCamelCase (VObj m)) with
    (VObj (map_fold (λ k x acc, <[snakeToCamel k := deepCamelCase x]> acc) ∅ m)).
  intros [= <-].
  apply (map_fold_weak_ind (λ r m,
    is_Some (m !! k) → is_Some (r !! snakeToCamel k))).
  { rewrite lookup_empty. by intros [??]. }
  intros i x m0 r Hi IH Hk.
  destruct (decide (snakeToCamel i = snakeToCamel k)) as [->|Hne].
  - rewrite lookup_insert_eq. eauto.
  - rewrite lookup_insert_ne by done. apply IH.
    rewrite lookup_insert_ne in Hk; [done|]. by intros ->.
Qed.

(** C4: for an input object, with [d] the object after the
    snake_case-to-camelCase key transformation. Every key of the input
    is found in [d] under its camelCase form, with its own value when
    no other key of the input has that camelCase form; every key of
    [d] is the camelCase form of a key of the input, with the value
    of that key, and no key of [d] is in snake_case. The same holds
    at every depth of the message object after [deepCamelCase]: its
    keys are the camelCase forms of the keys of the message, none is
    missing and none is in snake_case. When the
    [message] field is a string that is not valid JSON the function
    throws. Otherwise the function returns
    [ResponseMessageSchema.parse] of the normalized object [n], and so
    throws exactly when [n] fails validation, where [n] has: for
    [message], the (parsed, deep-converted) message in which [response]
    is renamed to [message] when [message] is undefined; for
    [messageId], the [messageId] of [d] when it is present and the
    [id] of [d] otherwise, [id] being removed in that case; for
    [isUserMessage], [false] when it is undefined in [d]; and the
    fields of [d] everywhere else. *)
Theorem responseMessageFromJson_normalizes (json : gmap string value) :
  let d := transformKeys json SnakeToCamel in
  (∀ k0, is_Some (json !! k0) → is_Some (d !! snakeToCamel k0))
  ∧ (∀ k0, (∀ k', is_Some (json !! k') →
                  snakeToCamel k' = snakeToCamel k0 → k' = k0) →
           d !! snakeToCamel k0 = json !! k0)
  ∧ (∀ k v, d !! k = Some v →
       has_snake k = false ∧ ∃ k0, k = snakeToCamel k0 ∧ json !! k0 = Some v)
  ∧ match parsed_message d with
    | None => responseMessageFromJson json = None
    | Some message =>
        ∃ n,
          normalizeResponse json = Some n
          ∧ responseMessageFromJson json = parse ResponseMessageSchema (VObj n)
          ∧ (responseMessageFromJson json = None
             ↔ parse ResponseMessageSchema (VObj n) = None)
          ∧ n !! "message" = Some (rename_response (deepCamelCase message))
          ∧ (∀ m' k v, deepCamelCase message = VObj m' → m' !! k = Some v →
                       has_snake k = false)
          ∧ (∀ m0, message = VObj m0 →
               ∃ m', deepCamelCase message = VObj m'
                 ∧ (∀ k0, is_Some (m0 !! k0) → is_Some (m' !! snakeToCamel k0))
                 ∧ (∀ k v, m' !! k = Some v →
                      ∃ k0 v0, k = snakeToCamel k0 ∧ m0 !! k0 = Some v0
                               ∧ v = deepCamelCase v0))
          ∧ n !! "messageId"
            = (if has_key d "messageId" then d !! "messageId" else d !! "id")
          ∧ n !! "id" = (if has_key d "messageId" then d !! "id" else None)
          ∧ n !! "isUserMessage"
            = (if is_undefined (prop d "isUserMessage") then Some (VBool false)
               else d !! "isUserMessage")
          ∧ (∀ k, k ∉ ["message"; "messageId"; "id"; "isUserMessage"] →
                  n !! k = d !! k)
    end.
Proof.
  intros d. split.
  { intros k0. apply (transformKeys_is_Some json SnakeToCamel). }
  split.
  { intros k0. apply (transformKeys_lookup json SnakeToCamel). }
  split.
  { intros k v Hk. apply transformKeys_lookup_Some in Hk as (k0 & <- & Hk0).
    split; [apply snakeToCamel_no_snake|eauto]. }
  destruct (parsed_message d) as [message|] eqn:Hmsg; last first.
  { unfold responseMessageFromJson, normalizeResponse. fold d.
    by rewrite parse_message_string_None. }
  destruct (parse_message_string_Some d message Hmsg) as (cd & Hcd & Hcdm & Hcdk).
  assert (normalizeResponse json
          = Some (default_isUserMessage (id_to_messageId
                    (response_to_message (deep_camel_message cd))))) as Hn.
  { unfold normalizeResponse. fold d. by rewrite Hcd. }
  set (cd3 := response_to_message (deep_camel_message cd)) in *.
  assert (∀ k, k ≠ "message" → cd3 !! k = d !! k) as Hcd3.
  { intros k Hk. unfold cd3. rewrite response_to_message_lookup.
    rewrite decide_False by done. by apply Hcdk. }
  assert (has_key cd3 "messageId" = has_key d "messageId") as Hkey.
  { apply has_key_ext. by apply Hcd3. }
  eexists. split; [exact Hn|].
  assert (responseMessageFromJson json
          = parse ResponseMessageSchema
              (VObj (default_isUserMessage (id_to_messageId cd3)))) as Hr.
  { unfold responseMessageFromJson. by rewrite Hn. }
  split_and!.
  - done.
  - by rewrite Hr.
  - rewrite default_isUserMessage_lookup, decide_False by done.
    rewrite id_to_messageId_lookup, !decide_False by done.
    unfold cd3. rewrite response_to_message_lookup, decide_True by done.
    by rewrite Hcdm.
  - intros m' k v Hm' Hk. destruct message; try done.
    by destruct (deepCamelCase_object _ _ _ _ Hm' Hk).
  - intros m0 ->. eexists. split; [reflexivity|]. split.
    + intros k0. by apply deepCamelCase_is_Some.
    + intros k v Hk.
      by destruct (deepCamelCase_object m0 _ k v eq_refl Hk) as [_ ?].
  - rewrite default_isUserMessage_lookup, decide_False by done.
    rewrite id_to_messageId_lookup, decide_True by done.
    by rewrite Hkey, !Hcd3.
  - rewrite default_isUserMessage_lookup, decide_False by done.
    rewrite id_to_messageId_lookup, decide_False, decide_True by done.
    by rewrite Hkey, !Hcd3.
  - rewrite default_isUserMessage_lookup, decide_True by done.
    assert (id_to_messageId cd3 !! "isUserMessage" = d !! "isUserMessage") as Hu.
    { rewrite id_to_messageId_lookup, !decide_False by done. by apply Hcd3. }
    by rewrite (prop_ext _ d _ Hu), Hu.
  - intros k Hk. rewrite !not_elem_of_cons in Hk.
    destruct Hk as (? & ? & ? & ? & _).
    rewrite default_isUserMessage_lookup, decide_False by done.
    rewrite id_to_messageId_lookup, !decide_False by done.
    by apply Hcd3.
Qed.

End ResponseFacts.


Section RunnerExamples.
Import AccuracyRunner RunnerData.

(** C2 (what the code does): a run over two test cases, with one reply
    per sent message and no [user.stopTest], reaches [disconnecting]
    after the first reply: [testResults] holds one result, the second
    test case is never sent, and [progress] is 100. A run over one test
    case reaches [disconnecting] with one result and [progress] 200. *)
Theorem accuracy_runner_stops_one_case_early `{!Unicode} :
  (∃ c out,
     run (runner [test_case "t1" "first" "A"; test_case "t2" "second" "B"])
         [user_startTest; webSocket_connected;
          webSocket_messageReceived (reply "t1" [board "A"])]
       = Next (disconnecting, c) out
     ∧ length (testCases c) = 2
     ∧ length (testResults c) = 1
     ∧ currentTestIndex c = 1
     ∧ (∃ q, progress c = Fin q ∧ (q == 100)%Q)
     ∧ out = [sendTo (Some 0) (parentActor_connect "s1");
              sendTo (Some 0) (parentActor_sendMessage
                {| request_type := "textMessage"; request_sessionId := "s1";
                   request_messageId := "t1"; request_message := "first";
                   request_model := "gpt-4o";
                   request_architectureChoice := "llm-router";
                   request_historyManagementChoice := "keep-none" |});
              sendTo (Some 0) parentActor_disconnect])
  ∧ (∃ c out,
       run (runner [test_case "t1" "first" "A"])
           [user_startTest; webSocket_connected;
            webSocket_messageReceived (reply "t1" [board "A"])]
         = Next (disconnecting, c) out
       ∧ length (testCases c) = 1
       ∧ length (testResults c) = 1
       ∧ (∃ q, progress c = Fin q ∧ (q == 200)%Q)).
Proof.
  split; eexists _, _; split_and!; try reflexivity;
    eexists; split; reflexivity.
Qed.

#[local] Existing Instance ascii.

(** C9 (counterexample): two actual products of the same name against
    one expected product of that name give an accuracy of 2. *)
Lemma calculateProductAccuracy_above_one :
  let actual := [board "Board"; board "board"] in
  let expected := [board "BOARD"] in
  expected ≠ []
  ∧ calculateProductAccuracy actual (Some expected) = Fin (2 # 1)
  ∧ ¬ (2 # 1 <= 1)%Q.
Proof. split_and!; [done|by vm_compute|by vm_compute]. Qed.

Lemma calculateProductAccuracy_bounds_witness :
  calculateProductAccuracy [board "A"; board "B"] None = Fin 1
  ∧ calculateProductAccuracy [board "A"; board "B"] (Some [board "b"])
    = Fin (1 # 1)
  ∧ (0 <= 1 # 1)%Q ∧ (1 # 1 <= 1)%Q.
Proof.
  destruct (calculateProductAccuracy_bounds [board "A"; board "B"] [board "b"])
    as [Hnone Hsome].
  destruct Hsome as (Hq & Hlow & Hup); [done|].
  split; [exact Hnone|]. split; [exact Hq|]. split; [exact Hlow|].
  apply Hup. apply (bool_decide_unpack _). vm_compute. reflexivity.
Defined.

End RunnerExamples.

Section MessageExamples.
Import Js Examples.


Lemma sendMessage_envelope_witness :
  ∃ msg,
    WebSocket.step (H := host) (WebSocket.connected, connected_context)
                   (WebSocket.parentActor_sendMessage (VObj request_data))
      = Next (WebSocket.connected, connected_context)
             [WebSocket.socket_emit 7 "text_message" (VObj msg)]
    ∧ msg !! "session_id" = Some (VStr "s1")
    ∧ (∃ t, msg !! "type" = Some (VStr t)
            ∧ prop (WebSocket.spread (VObj request_data)) "type" = VStr t)
    ∧ (∃ i, msg !! "message_id" = Some (VStr i)
            ∧ prop (WebSocket.spread (VObj request_data)) "messageId" = VStr i).
Proof.
  eapply (sendMessage_envelope (H := host) connected_context 7 "s1"
            (VObj request_data)); [reflexivity|reflexivity|].
  vm_compute. reflexivity.
Defined.

(** The key conversions on the keys of the protocol. *)
Example snakeToCamel_example :
  snakeToCamel "history_management_choice" = "historyManagementChoice"
  ∧ camelToSnake "historyManagementChoice" = "history_management_choice"
  ∧ camelToSnake "sessionId" = "session_id"
  ∧ snakeToCamel "type" = "type".
Proof. by split_and!. Qed.

(** [responseMessageFromJson] on a response as it arrives: the keys
    are camelCase, [id] has become [messageId], [response] has become
    [message], [isUserMessage] is [false], the timestamp is a [Date]. *)
Example responseMessageFromJson_example :
  (responseMessageFromJson (H := host) wire_response ≫= λ r,
     match r with
     | VObj m => Some (m !! "messageId", m !! "id", m !! "sessionId",
                       m !! "isUserMessage", m !! "timestamp", m !! "message")
     | _ => None
     end)
  = Some (Some (VStr "m1"), None, Some (VStr "s1"), Some (VBool false),
          Some (VDate (Some 1704067200000%Z)),
          Some (VObj (object [("type", VStr "text"); ("message", VStr "hello");
                              ("followUpQuestion", VStr "more?")]))).
Proof. vm_compute. reflexivity. Qed.

(** A message that is a string is JSON-parsed: [null] is valid JSON and
    fails the validation, [oops] is not valid JSON. *)
Example responseMessageFromJson_string_message :
  responseMessageFromJson (H := host) (<["message" := VStr "null"]> wire_response)
  = None
  ∧ parsed_message (H := host) (<["message" := VStr "null"]> wire_response)
    = Some VNull
  ∧ parsed_message (H := host) (<["message" := VStr "oops"]> wire_response)
    = None
  ∧ responseMessageFromJson (H := host) (<["message" := VStr "oops"]> wire_response)
    = None.
Proof. split_and!; by vm_compute. Qed.

(** C8 (counterexample): an object that supplies every required
    attribute but [name] is rejected. *)
Lemma productFromJson_needs_name :
  productFromJson (H := host)
    (object [("product_id", VStr "p1"); ("manufacturer", VStr "Acme");
             ("form_factor", VStr "COM Express")]) = None
  ∧ is_Some (productFromJson (H := host)
    (object [("product_id", VStr "p1"); ("manufacturer", VStr "Acme");
             ("form_factor", VStr "COM Express"); ("name", VStr "Board")])).
Proof.
  split; [by vm_compute|]. apply (bool_decide_unpack _). by vm_compute.
Qed.

End MessageExamples.

(* ===================================================================== *)
(** * More properties of the schemas *)
(* ===================================================================== *)

Section SchemaMoreFacts.
Import Js.
Context `{!Host}.
Local Open Scope list_scope.

Lemma settled_optional e : settled e → settled (ZOptional e).
Proof.
  intros He v r. rewrite !parse_optional. intros Hv.
  destruct v; simplify_eq; try done;
    (destruct r; simplify_eq; [done|by eapply He..]).
Qed.

Lemma settled_nullable e : settled e → settled (ZNullable e).
Proof.
  intros He v r.
  change (parse (ZNullable e) v) with
    (match v with VNull => Some VNull | _ => parse e v end).
  change (parse (ZNullable e) r) with
    (match r with VNull => Some VNull | _ => parse e r end).
  intros Hv.
  destruct v; simplify_eq; try done;
    (destruct r; simplify_eq; [by eapply He|done|by eapply He..]).
Qed.

Lemma settled_array item : settled item → settled (ZArray item).
Proof.
  intros Hi v r Hv.
  destruct v as [| | | | | |l| |]; try done.
  rewrite parse_array_list in Hv. apply fmap_Some in Hv as (k & Hk & ->).
  rewrite parse_array_list. apply fmap_Some. exists k. split; [|done].
  apply mapM_Some in Hk. apply mapM_Some.
  induction Hk as [|x y l k Hxy _ IH]; constructor; [|done].
  by eapply Hi.
Qed.

(** A union is settled when its options are and its first option
    rejects what the second returns for an input that the first
    rejects. *)
Lemma settled_union a b :
  settled a → settled b →
  (∀ v r, parse a v = None → parse b v = Some r → parse a r = None) →
  settled (ZUnion a b).
Proof.
  intros Ha Hb Hab v r. rewrite !parse_union. intros Hv.
  destruct (parse a v) as [ra|] eqn:Hav.
  - injection Hv as ->. by rewrite (Ha _ _ Hav).
  - rewrite (Hab _ _ Hav Hv). by eapply Hb.
Qed.

Lemma settled_string_or_strings : settled (ZUnion ZString (ZArray ZString)).
Proof.
  apply settled_union.
  - apply settled_string.
  - apply settled_array, settled_string.
  - intros v r _ Hr. destruct v as [| | | | | |l| |]; try done.
    rewrite parse_array_list in Hr. by apply fmap_Some in Hr as (k & _ & ->).
Qed.

Create HintDb shapes discriminated.
#[local] Hint Resolve settled_optional settled_nullable settled_array
  settled_string_or_strings : shapes.
#[local] Hint Resolve settled_string settled_boolean settled_date
  settled_unknown settled_literal settled_enum settled_record_unknown : shapes.

(** Every field of a shape written out as a list. *)
Ltac shape_fields :=
  let k := fresh "k" in
  let item := fresh "item" in
  let Hin := fresh "Hin" in
  intros k item Hin;
  repeat (apply elem_of_cons in Hin as [Hin|Hin];
          [injection Hin as -> ->|]);
  [..|by apply elem_of_nil in Hin].

Lemma settled_ProductSchema : settled ProductSchema.
Proof.
  apply settled_object; [compute_done|].
  shape_fields; unfold opt_null; eauto 6 with shapes.
Qed.

(** X20: [ProductSchema.parse] is idempotent: it accepts each of its
    outputs and returns it unchanged, so a product that was validated
    once (by [productFromJson]) passes the schemas that contain
    [ProductSchema] again. *)
Theorem ProductSchema_idempotent v :
  parse ProductSchema v ≫= parse ProductSchema = parse ProductSchema v.
Proof.
  destruct (parse ProductSchema v) as [r|] eqn:Hv; [|done].
  simpl. by apply (settled_ProductSchema v).
Qed.

Lemma settled_ResponseContentSchema : settled ResponseContentSchema.
Proof.
  apply settled_object; [compute_done|].
  pose proof settled_ProductSchema.
  shape_fields; eauto 6 with shapes.
Qed.

(** An object whose keys are keys of the shape and whose properties
    the fields of the shape return unchanged is returned unchanged. *)
Lemma parse_object_exact shape (m : gmap string value) :
  NoDup shape.*1 →
  (∀ k, is_Some (m !! k) → k ∈ shape.*1) →
  Forall (λ ks, parse ks.2 (prop m ks.1) = Some (prop m ks.1)) shape →
  parse (ZObject shape) (VObj m) = Some (VObj m).
Proof.
  intros Hnd Hdom Hfields. rewrite parse_object.
  assert (is_Some (parse_fields m shape)) as [out Hout].
  { apply parse_fields_is_Some. eapply Forall_impl; [exact Hfields|].
    intros ks Hks. simpl in Hks. rewrite Hks. eauto. }
  rewrite Hout. simpl. do 2 f_equal. apply map_eq. intros k.
  destruct (decide (k ∈ shape.*1)) as [Hk|Hk]; last first.
  { assert (out !! k = None) as ->.
    { apply eq_None_not_Some. intros Hs. by apply Hk, (parse_fields_dom m _ out). }
    symmetry. apply eq_None_not_Some. intros Hs. by apply Hk, Hdom. }
  apply list_elem_of_fmap in Hk as ([k0 item] & Heq & Hin). simpl in Heq. subst k0.
  destruct (parse_fields_output _ _ _ _ _ Hnd Hout Hin) as (r & Hr & Hp & Hkey).
  rewrite Forall_forall in Hfields. specialize (Hfields _ Hin). simpl in Hfields.
  rewrite Hfields in Hr. injection Hr as <-.
  apply lookup_from_prop; [done|]. rewrite Hkey.
  destruct (has_key m k) eqn:Hmk; [done|]. simpl.
  unfold has_key in Hmk. apply bool_decide_eq_false in Hmk.
  unfold prop. destruct (m !! k); [exfalso; eauto|done].
Qed.


(** The output of an object schema is accepted again, unchanged,
    when every field accepts its property of the output unchanged;
    it is rejected when some field rejects its property. *)
Lemma parse_object_output shape m out :
  NoDup shape.*1 →
  parse (ZObject shape) (VObj m) = Some (VObj out) →
  Forall (λ ks, parse ks.2 (prop out ks.1) = Some (prop out ks.1)) shape →
  parse (ZObject shape) (VObj out) = Some (VObj out).
Proof.
  intros Hnd Hparse Hfields. apply parse_object_exact; [done| |done].
  rewrite parse_object in Hparse. apply fmap_Some in Hparse as (out' & Hout & [= <-]).
  intros k Hk. by eapply parse_fields_dom.
Qed.

(** A field of the output of an object schema is accepted again,
    unchanged, by a settled field schema. *)
Lemma parse_fields_settled m shape out k item :
  NoDup shape.*1 →
  parse_fields m shape = Some out →
  (k, item) ∈ shape →
  settled item →
  parse item (prop out k) = Some (prop out k).
Proof.
  intros Hnd Hout Hin Hitem.
  destruct (parse_fields_output _ _ _ _ _ Hnd Hout Hin) as (x & Hx & <- & _).
  by eapply Hitem.
Qed.

(** X21: what [ResponseMessageSchema.parse] does to one of its own
    outputs. The output is an object whose [timestamp] is a [Date];
    it is accepted again, unchanged, when that date is valid, and
    rejected when it is an Invalid Date, which is what the transform
    [new Date(val)] makes of a timestamp string that is not a date. *)
Theorem ResponseMessageSchema_reparse v r :
  parse ResponseMessageSchema v = Some r →
  ∃ out t,
    r = VObj out
    ∧ prop out "timestamp" = VDate t
    ∧ parse ResponseMessageSchema r
      = match t with Some _ => Some r | None => None end.
Proof.
  intros Hv. destruct v as [| | | | | | |m|]; try done.
  unfold ResponseMessageSchema in *. rewrite parse_object in Hv.
  apply fmap_Some in Hv as (out & Hout & ->).
  match type of Hout with parse_fields _ ?sh = _ => set (shape := sh) in * end.
  assert (NoDup shape.*1) as Hnd by compute_done.
  destruct (parse_fields_output _ _ _ "timestamp" (ZNewDate (ZUnion ZDate ZString))
              Hnd Hout) as (x & Hx & Hp & _).
  { do 8 apply list_elem_of_further. apply list_elem_of_here. }
  assert (∃ t, x = VDate t) as [t ->].
  { clear -Hx. destruct (prop m "timestamp") as [| | | |s|[t|]| | |]; try done;
      injection Hx as <-; by eexists. }
  exists out, t. split; [done|]. split; [done|].
  destruct t as [t|].
  - apply parse_object_exact; [done| |].
    { intros k Hk. by eapply parse_fields_dom. }
    pose proof settled_ResponseContentSchema.
    subst shape. repeat apply Forall_cons_2; [..|apply Forall_nil_2]; cbn [fst snd];
      try (eapply parse_fields_settled; [exact Hnd|exact Hout| |];
           [by repeat first [apply list_elem_of_here | apply list_elem_of_further]|];
           unfold ModelSchema, ArchitectureSchema, HistoryManagementSchema;
           by eauto with shapes).
    by rewrite Hp.
  - apply eq_None_not_Some. rewrite parse_object_is_Some. intros Hall.
    rewrite Forall_forall in Hall.
    destruct (Hall ("timestamp", ZNewDate (ZUnion ZDate ZString))) as [y Hy].
    { do 8 apply list_elem_of_further. apply list_elem_of_here. }
    simpl in Hy. by rewrite Hp in Hy.
Qed.

Lemma parse_enum_is_Some values v :
  is_Some (parse (ZEnum values) v) → parse (ZEnum values) v = Some v.
Proof. intros [r Hr]. destruct v; try done. simpl in *. by case_decide. Qed.

Lemma list_to_map_dom (fields : list (string * value)) k :
  is_Some ((list_to_map fields : gmap string value) !! k) → k ∈ fields.*1.
Proof.
  intros [v Hv]. apply elem_of_list_to_map_2 in Hv.
  apply list_elem_of_fmap. by exists (k, v).
Qed.

End SchemaMoreFacts.

(* ===================================================================== *)
(** * Properties of the consistency scores *)
(* ===================================================================== *)

Section ConsistencyFacts.
Import AccuracyRunner ConsistencyScores.
Context `{unicode : !Unicode}.
Local Open Scope list_scope.

(** Sums and means of finite scores. *)
Lemma foldl_plus_Fin (qs : list Q) : ∀ a,
  foldl plus (Fin a) (Fin <$> qs) = Fin (foldl Qplus a qs).
Proof. induction qs as [|q qs IH]; intros a; [done|]. simpl. apply IH. Qed.

Lemma foldl_Qplus_bounds lo hi (qs : list Q) : ∀ a,
  Forall (λ q, lo <= q ∧ q <= hi)%Q qs →
  (a + inject_Z (Z.of_nat (length qs)) * lo <= foldl Qplus a qs
   ∧ foldl Qplus a qs <= a + inject_Z (Z.of_nat (length qs)) * hi)%Q.
Proof.
  induction qs as [|q qs IH]; intros a Hqs.
  { cbn [foldl length]. change (inject_Z (Z.of_nat 0)) with 0%Q. split; lra. }
  apply Forall_cons in Hqs as [[Hlo Hhi] Hqs].
  destruct (IH (a + q)%Q Hqs) as [IHlo IHhi].
  cbn [foldl length]. rewrite Nat2Z.inj_succ, <-Z.add_1_r, inject_Z_plus.
  change (inject_Z 1) with 1%Q. split; lra.
Qed.

Lemma foldl_Qplus_mono (qs1 qs2 : list Q) : ∀ a1 a2,
  Forall2 Qle qs1 qs2 → (a1 <= a2)%Q →
  (foldl Qplus a1 qs1 <= foldl Qplus a2 qs2)%Q.
Proof.
  intros a1 a2 H. revert a1 a2.
  induction H as [|q1 q2 qs1 qs2 Hq _ IH]; intros a1 a2 Ha; [done|].
  simpl. apply IH. lra.
Qed.

Lemma scores_Fin (P : Q → Prop) (scores : list number) :
  Forall (λ s, ∃ q, s = Fin q ∧ P q) scores →
  ∃ qs, scores = Fin <$> qs ∧ Forall P qs.
Proof.
  induction 1 as [|s scores (q & -> & Hq) _ (qs & -> & Hqs)].
  - by exists [].
  - exists (q :: qs). split; [done|by constructor].
Qed.

Lemma length_as_Q {A} (x : A) (l : list A) :
  (Z.pos (Pos.of_succ_nat (length l)) # 1)%Q = inject_Z (Z.of_nat (length (x :: l))).
Proof. unfold inject_Z. simpl. by rewrite Zpos_P_of_succ_nat, Nat2Z.inj_succ. Qed.

Lemma mean_Fin (qs : list Q) :
  mean (Fin <$> qs) =
    match qs with
    | [] => Fin 0
    | q :: rest => Fin (foldl Qplus 0%Q qs / inject_Z (Z.of_nat (length qs)))
    end.
Proof.
  destruct qs as [|q rest]; [done|].
  unfold mean. cbn [fmap list_fmap].
  change (Fin q :: (Fin <$> rest)) with (Fin <$> (q :: rest)).
  rewrite foldl_plus_Fin. cbn [over]. rewrite length_fmap.
  by rewrite (length_as_Q q rest).
Qed.

Lemma length_pos_Q {A} (x : A) (l : list A) :
  (0 < inject_Z (Z.of_nat (length (x :: l))))%Q.
Proof. unfold Qlt, inject_Z. simpl. lia. Qed.

(** The mean of scores in an interval lies in the interval. *)
Lemma mean_bounds lo hi (scores : list number) :
  scores ≠ [] →
  Forall (λ s, ∃ q, s = Fin q ∧ (lo <= q ∧ q <= hi)%Q) scores →
  ∃ q, mean scores = Fin q ∧ (lo <= q)%Q ∧ (q <= hi)%Q.
Proof.
  intros Hne (qs & -> & Hqs)%scores_Fin.
  destruct qs as [|q rest]; [done|].
  rewrite mean_Fin. eexists. split; [done|].
  pose proof (length_pos_Q q rest) as Hpos.
  destruct (foldl_Qplus_bounds lo hi (q :: rest) 0%Q Hqs) as [Hlo Hhi].
  split.
  - apply Qle_shift_div_l; [done|]. lra.
  - apply Qle_shift_div_r; [done|]. lra.
Qed.

Lemma mean_unit (scores : list number) :
  Forall (λ s, ∃ q, s = Fin q ∧ (0 <= q ∧ q <= 1)%Q) scores →
  ∃ q, mean scores = Fin q ∧ (0 <= q)%Q ∧ (q <= 1)%Q.
Proof.
  intros H. destruct scores as [|s scores].
  - exists 0%Q. split; [done|]. split; lra.
  - by apply mean_bounds.
Qed.

(** The mean is monotone in every score. *)
Lemma mean_mono (qs1 qs2 : list Q) :
  Forall2 Qle qs1 qs2 →
  ∃ q1 q2, mean (Fin <$> qs1) = Fin q1 ∧ mean (Fin <$> qs2) = Fin q2
           ∧ (q1 <= q2)%Q.
Proof.
  intros H. rewrite !mean_Fin.
  pose proof (Forall2_length _ _ _ H) as Hlen.
  destruct H as [|q1 q2 r1 r2 Hq Hr].
  { exists 0%Q, 0%Q. split_and!; [done..|lra]. }
  eexists _, _. split_and!; [done..|].
  pose proof (length_pos_Q q2 r2) as Hpos.
  rewrite Hlen.
  assert (foldl Qplus 0%Q (q1 :: r1) <= foldl Qplus 0%Q (q2 :: r2))%Q as Hsum.
  { apply foldl_Qplus_mono; [by constructor|lra]. }
  set (n := inject_Z (Z.of_nat (length (q2 :: r2)))) in *.
  unfold Qdiv. apply Qmult_le_compat_r; [done|].
  apply Qlt_le_weak, Qinv_lt_0_compat. done.
Qed.

Lemma div_length_unit a b :
  b ≠ 0 → a ≤ b →
  ∃ q, div_length a b = Fin q ∧ (0 <= q ∧ q <= 1)%Q.
Proof.
  intros Hb Hab. rewrite div_length_Fin by done. eexists. split; [done|].
  split; [apply quotient_nonneg|by apply quotient_le_1].
Qed.

(** The share of empty variations, the result of both functions for
    an empty main list. *)
Lemma empty_share_unit (variationProductsList : list (list Product)) :
  ∃ q, div_length
         (length (filter (λ products, length products = 0) variationProductsList))
         (Nat.max (length variationProductsList) 1) = Fin q
       ∧ (0 <= q ∧ q <= 1)%Q.
Proof.
  apply div_length_unit; [lia|].
  pose proof (length_filter (λ products : list Product, length products = 0)
                variationProductsList). lia.
Qed.

(** X1: [calculateProductConsistency] returns a finite number between 0
    and 1 for every main list and every list of variation lists,
    empty ones included: every quotient it forms has a divisor of at
    least 1 and a dividend that is at most the divisor. *)
Theorem calculateProductConsistency_bounds
    (mainProducts : list Product) (variationProductsList : list (list Product)) :
  ∃ q, calculateProductConsistency mainProducts variationProductsList = Fin q
       ∧ (0 <= q)%Q ∧ (q <= 1)%Q.
Proof.
  unfold calculateProductConsistency. case_decide as Hmain.
  { destruct (empty_share_unit variationProductsList) as (q & -> & ? & ?). eauto. }
  apply mean_unit, Forall_fmap, Forall_forall. intros variationProducts _. simpl.
  apply div_length_unit; [lia|].
  pose proof (length_filter
    (λ p, lower_name p ∈@{gset string} list_to_set (lower_name <$> mainProducts))
    variationProducts). lia.
Qed.

Lemma size_list_to_set_le (l : list string) :
  size (list_to_set l : gset string) ≤ length l.
Proof.
  induction l as [|x l IH].
  - rewrite list_to_set_nil, size_empty. simpl. lia.
  - rewrite list_to_set_cons, size_union_alt, size_singleton. simpl.
    assert (size (list_to_set l ∖ {[x]} : gset string)
            ≤ size (list_to_set l : gset string)) as Hle.
    { apply subseteq_size. intros y [Hy _]%elem_of_difference. done. }
    lia.
Qed.

Lemma mapM_total {A B} (f : A → option B) (g : A → B) (l : list A) :
  (∀ x, f x = Some (g x)) → mapM f l = Some (g <$> l).
Proof.
  intros Hf. induction l as [|x l IH]; [done|].
  cbn. rewrite Hf. cbn. by rewrite IH.
Qed.

(** The longest common subsequence is at most as long as either
    list. *)
Lemma lcs_ref_le_l a b : Lcs.lcs_ref a b ≤ length a.
Proof.
  destruct (lcs_ref_attained a b) as (s & Ha & _ & <-). by apply sublist_length.
Qed.

Lemma lcs_ref_le_r a b : Lcs.lcs_ref a b ≤ length b.
Proof.
  destruct (lcs_ref_attained a b) as (s & _ & Hb & <-). by apply sublist_length.
Qed.

Lemma calculateProductConsistency_fractions mainProducts variationProductsList :
  mainProducts ≠ [] →
  calculateProductConsistency mainProducts variationProductsList
  = mean (Fin <$> (product_fraction mainProducts <$> variationProductsList)).
Proof.
  intros Hmain. unfold calculateProductConsistency.
  rewrite decide_False by by destruct mainProducts.
  cbv zeta. f_equal. rewrite <-list_fmap_compose. apply list_fmap_ext.
  intros _ v _. simpl. apply div_length_Fin. lia.
Qed.

Lemma calculateOrderConsistency_fractions mainProducts variationProductsList :
  mainProducts ≠ [] →
  calculateOrderConsistency mainProducts variationProductsList
  = Some (mean (Fin <$> (order_fraction mainProducts <$> variationProductsList))).
Proof.
  intros Hmain. unfold calculateOrderConsistency.
  rewrite decide_False by by destruct mainProducts.
  case_decide as Hvars.
  { by destruct variationProductsList. }
  cbv zeta.
  rewrite (mapM_total _ (λ v, Fin (order_fraction mainProducts v))).
  - simpl. by rewrite <-list_fmap_compose.
  - intros v. rewrite longestCommonSubsequence_ref. simpl.
    rewrite !length_fmap. f_equal. apply div_length_Fin. lia.
Qed.

Lemma order_fraction_unit mainProducts v :
  (0 <= order_fraction mainProducts v ∧ order_fraction mainProducts v <= 1)%Q.
Proof.
  split; [apply quotient_nonneg|]. apply quotient_le_1; [lia|].
  pose proof (lcs_ref_le_l (lower_name <$> mainProducts) (lower_name <$> v)) as Hl.
  rewrite length_fmap in Hl. lia.
Qed.

(** X2: [calculateOrderConsistency] returns a finite number between 0
    and 1 for every main list and every list of variation lists: the
    longest common subsequence is no longer than either list, and
    [longestCommonSubsequence] never reads outside its table. *)
Theorem calculateOrderConsistency_bounds
    (mainProducts : list Product) (variationProductsList : list (list Product)) :
  ∃ q, calculateOrderConsistency mainProducts variationProductsList = Some (Fin q)
       ∧ (0 <= q)%Q ∧ (q <= 1)%Q.
Proof.
  destruct (decide (mainProducts = [])) as [->|Hmain].
  { unfold calculateOrderConsistency. simpl.
    destruct (empty_share_unit variationProductsList) as (q & -> & ? & ?). eauto. }
  rewrite calculateOrderConsistency_fractions by done.
  destruct (mean_unit (Fin <$> (order_fraction mainProducts <$> variationProductsList)))
    as (q & -> & ? & ?); [|by eauto].
  apply Forall_fmap, Forall_fmap, Forall_forall. intros v _. simpl.
  eexists. split; [done|]. apply order_fraction_unit.
Qed.

(** A common subsequence of the names consists of variation products
    whose names are among the main names. *)
Lemma common_subsequence_length (names : gset string) (s : list string) :
  ∀ v : list Product,
  s `sublist_of` (lower_name <$> v) → Forall (λ x, x ∈ names) s →
  length s ≤ length (filter (λ p, lower_name p ∈ names) v).
Proof.
  intros v. revert s. induction v as [|p v IH]; intros s Hs Hin.
  { apply sublist_nil_r in Hs as ->. simpl. lia. }
  rewrite fmap_cons in Hs. rewrite filter_cons.
  apply sublist_cons_r in Hs as [Hs|(s' & -> & Hs)].
  - specialize (IH s Hs Hin). case_decide; simpl; lia.
  - apply Forall_cons in Hin as [Hp Hin]. specialize (IH s' Hs Hin).
    rewrite decide_True by done. simpl. lia.
Qed.

Lemma order_le_product_fraction mainProducts v :
  (order_fraction mainProducts v <= product_fraction mainProducts v)%Q.
Proof.
  unfold order_fraction, product_fraction.
  set (names := list_to_set (lower_name <$> mainProducts) : gset string).
  set (common := filter _ v).
  assert (Lcs.lcs_ref (lower_name <$> mainProducts) (lower_name <$> v) ≤ length common)
    as Hlcs.
  { destruct (lcs_ref_attained (lower_name <$> mainProducts) (lower_name <$> v))
      as (s & Hmain & Hv & <-).
    apply common_subsequence_length; [done|].
    apply Forall_forall. intros x Hx. apply elem_of_list_to_set.
    by eapply elem_of_sublist. }
  pose proof (size_list_to_set_le (lower_name <$> mainProducts)) as Hsize.
  rewrite length_fmap in Hsize. fold names in Hsize.
  unfold Qle. cbn [Qnum Qden]. rewrite !Zpos_of_nat by lia. nia.
Qed.

(** X3: the order consistency never exceeds the product consistency
    of the same responses: a common subsequence of the names consists
    of variation products whose names are among the main names, and
    the divisor of the order score is at least that of the product
    score. *)
Theorem orderConsistency_le_productConsistency
    (mainProducts : list Product) (variationProductsList : list (list Product)) :
  ∃ p o,
    calculateProductConsistency mainProducts variationProductsList = Fin p
    ∧ calculateOrderConsistency mainProducts variationProductsList = Some (Fin o)
    ∧ (o <= p)%Q.
Proof.
  destruct (decide (mainProducts = [])) as [->|Hmain].
  { unfold calculateProductConsistency, calculateOrderConsistency. simpl.
    destruct (empty_share_unit variationProductsList) as (q & -> & ? & ?).
    exists q, q. split_and!; [done..|apply Qle_refl]. }
  rewrite calculateProductConsistency_fractions,
    calculateOrderConsistency_fractions by done.
  destruct (mean_mono (order_fraction mainProducts <$> variationProductsList)
                      (product_fraction mainProducts <$> variationProductsList))
    as (o & p & -> & -> & Hle).
  { apply Forall2_fmap, Forall2_same_length_lookup_2; [done|].
    intros i v v' Hv Hv'. simplify_eq. apply order_le_product_fraction. }
  by exists p, o.
Qed.

Lemma filter_all {A} (P : A → Prop) `{∀ x, Decision (P x)} (l : list A) :
  Forall P l → filter P l = l.
Proof.
  induction 1 as [|x l Hx _ IH]; [done|].
  by rewrite filter_cons, decide_True, IH.
Qed.

Lemma quotient_self n : n ≠ 0 → (Z.of_nat n # Pos.of_nat n == 1)%Q.
Proof. intros Hn. unfold Qeq. simpl. rewrite Zpos_of_nat by done. lia. Qed.

(** X4: when there is at least one variation and every variation
    lists the names of the main response in the same order, whatever
    the letter case, both scores are 1. *)
Theorem consistency_of_identical_answers
    (mainProducts : list Product) (variationProductsList : list (list Product)) :
  mainProducts ≠ [] → variationProductsList ≠ [] →
  Forall (λ variationProducts,
            lower_name <$> variationProducts = lower_name <$> mainProducts)
         variationProductsList →
  ∃ p o,
    calculateProductConsistency mainProducts variationProductsList = Fin p
    ∧ calculateOrderConsistency mainProducts variationProductsList = Some (Fin o)
    ∧ (p == 1)%Q ∧ (o == 1)%Q.
Proof.
  intros Hmain Hvars Hsame.
  rewrite calculateProductConsistency_fractions,
    calculateOrderConsistency_fractions by done.
  assert (length mainProducts ≠ 0) as Hlen by by destruct mainProducts.
  destruct (mean_bounds 1 1
              (Fin <$> (product_fraction mainProducts <$> variationProductsList)))
    as (p & -> & ? & ?).
  { by destruct variationProductsList. }
  { apply Forall_fmap, Forall_fmap. eapply Forall_impl; [exact Hsame|].
    intros v Hv. simpl. eexists. split; [done|].
    pose proof (f_equal length Hv) as Hl. rewrite !length_fmap in Hl.
    pose proof (size_list_to_set_le (lower_name <$> mainProducts)) as Hsize.
    rewrite length_fmap in Hsize.
    unfold product_fraction. rewrite filter_all.
    - replace (Nat.max (Nat.max _ (length v)) 1) with (length v) by lia.
      rewrite quotient_self by lia. split; apply Qle_refl.
    - apply Forall_forall. intros x Hx. apply elem_of_list_to_set.
      rewrite <-Hv. by apply list_elem_of_fmap_2. }
  destruct (mean_bounds 1 1
              (Fin <$> (order_fraction mainProducts <$> variationProductsList)))
    as (o & -> & ? & ?).
  { by destruct variationProductsList. }
  { apply Forall_fmap, Forall_fmap. eapply Forall_impl; [exact Hsame|].
    intros v Hv. simpl. eexists. split; [done|].
    pose proof (f_equal length Hv) as Hl. rewrite !length_fmap in Hl.
    unfold order_fraction. rewrite Hv, lcs_ref_diag, length_fmap.
    replace (Nat.max (Nat.max _ (length v)) 1) with (length mainProducts) by lia.
    rewrite quotient_self by done. split; apply Qle_refl. }
  exists p, o. split_and!; [done..| |]; by apply Qle_antisym.
Qed.

End ConsistencyFacts.

Section ConsistencyExamples.
Import AccuracyRunner ConsistencyScores RunnerData.
#[local] Existing Instance ascii.

Lemma consistency_of_identical_answers_witness :
  ∃ p o,
    calculateProductConsistency [board "Alpha"; board "beta"]
      [[board "alpha"; board "BETA"]] = Fin p
    ∧ calculateOrderConsistency [board "Alpha"; board "beta"]
        [[board "alpha"; board "BETA"]] = Some (Fin o)
    ∧ (p == 1)%Q ∧ (o == 1)%Q.
Proof.
  apply (consistency_of_identical_answers [board "Alpha"; board "beta"]
           [[board "alpha"; board "BETA"]]); [done|done|].
  repeat constructor.
Defined.

End ConsistencyExamples.

Section AccuracyMoreFacts.
Import AccuracyRunner.
Context `{unicode : !Unicode}.
Local Open Scope list_scope.

(** X7: when the lower-case names of the actual products are those
    of the (non-empty) expected products in any order, the accuracy is
    1 and the test is passed: neither the order nor the letter case
    of the names matters. *)
Theorem calculateProductAccuracy_permutation (actual expected : list Product) :
  expected ≠ [] →
  lower_name <$> actual ≡ₚ lower_name <$> expected →
  ∃ q, calculateProductAccuracy actual (Some expected) = Fin q
       ∧ (q == 1)%Q
       ∧ isTestPassed (Fin q) = true.
Proof.
  intros Hne Hperm.
  rewrite calculateProductAccuracy_Some by done.
  eexists. split; [done|].
  assert (length actual = length expected) as Hlen.
  { apply Permutation_length in Hperm. by rewrite !length_fmap in Hperm. }
  rewrite filter_all, Hlen.
  - assert (Z.of_nat (length expected) # Pos.of_nat (length expected) == 1)%Q as Hq.
    { apply quotient_self. by destruct expected. }
    split; [done|]. unfold isTestPassed.
    destruct (Qlt_le_dec _ _) as [|Hle]; [done|].
    rewrite Hq in Hle. by apply Qle_bool_iff in Hle.
  - apply Forall_forall. intros p Hp. apply elem_of_list_to_set.
    rewrite <-Hperm. by apply list_elem_of_fmap_2.
Qed.

(** X22: a reply received in [running.sendingMessage] stops the
    accuracy test runner in error exactly when there is no current
    test case, the current test case has no expected products, or the
    response carries no [products] (which [ResponseContentSchema]
    makes optional: [calculateProductAccuracy] then calls [filter] on
    [undefined]). In every other case the macrostep ends in a
    configuration. *)
Theorem accuracy_runner_error_conditions c r :
  step (running sendingMessage, c) (webSocket_messageReceived r) = ActorError
  ↔ ¬ ∃ tc, testCases c !! currentTestIndex c = Some tc
            ∧ has_expected tc ∧ has_products r.
Proof.
  cbn [step]. split.
  - intros Hstep (tc & Htc & Hexp & Hprod).
    destruct (updateTestResults_Some c r tc) as (c1 & Hupd & Hcases & Hidx & _);
      [done..|].
    rewrite Hupd in Hstep.
    set (c2 := increaseProgress (increaseCurrentTestIndex c1)) in *.
    destruct (testIsComplete c2) eqn:Hcomplete; [done|].
    unfold testIsComplete in Hcomplete. apply Z.leb_gt in Hcomplete.
    destruct (lookup_lt_is_Some_2 (testCases c2) (currentTestIndex c2)) as [tc2 Htc2].
    { subst c2. simpl in *. lia. }
    unfold enter_sendingMessage, sendNextMessage in Hstep.
    rewrite Htc2 in Hstep. done.
  - intros Hno. unfold updateTestResults.
    destruct (testCases c !! currentTestIndex c) as [tc|] eqn:Htc; [|done].
    simpl. destruct (products tc) as [expected|] eqn:Hexp; [|done].
    simpl. destruct (content_products (response_message r)) as [actual|] eqn:Hprod;
      [|done].
    exfalso. apply Hno. exists tc. unfold has_expected, has_products.
    rewrite Hexp, Hprod. eauto.
Qed.

End AccuracyMoreFacts.

Section AccuracyMoreExamples.
Import AccuracyRunner RunnerData.
#[local] Existing Instance ascii.

Lemma calculateProductAccuracy_permutation_witness :
  ∃ q, calculateProductAccuracy [board "beta"; board "ALPHA"]
         (Some [board "Alpha"; board "Beta"]) = Fin q
       ∧ (q == 1)%Q
       ∧ isTestPassed (Fin q) = true.
Proof.
  apply (calculateProductAccuracy_permutation [board "beta"; board "ALPHA"]
           [board "Alpha"; board "Beta"]); [done|].
  change (["beta"; "alpha"] ≡ₚ ["alpha"; "beta"]). apply perm_swap.
Defined.

End AccuracyMoreExamples.

(* ===================================================================== *)
(** * Properties of the consistency test runner *)
(* ===================================================================== *)

Section ConsistencyRunnerFacts.
Import ConsistencyRunner.
Context `{unicode : !AccuracyRunner.Unicode}.
Local Open Scope list_scope.
Variable responseMessageFromJson : ResponseMessage → option ResponseMessage.

Abbreviation step := (ConsistencyRunner.step responseMessageFromJson).
Abbreviation drain := (ConsistencyRunner.drain responseMessageFromJson).
Abbreviation deliver := (ConsistencyRunner.deliver responseMessageFromJson).
Abbreviation run := (ConsistencyRunner.run responseMessageFromJson).
Abbreviation accepted := (λ r, is_Some (responseMessageFromJson r)).

Lemma consistency_run_app cfg evs1 evs2 :
  run cfg (evs1 ++ evs2) =
    match run cfg evs1 with
    | ActorError => ActorError
    | Next cfg' out =>
        match run cfg' evs2 with
        | ActorError => ActorError
        | Next cfg'' out' => Next cfg'' (out ++ out')
        end
    end.
Proof.
  revert cfg. induction evs1 as [|ev evs1 IH]; intros cfg.
  { simpl. by destruct (run cfg evs2). }
  cbn [app ConsistencyRunner.run]. destruct (deliver cfg ev) as [cfg1 out1|]; [|done].
  rewrite IH. destruct (run cfg1 evs1) as [cfg2 out2|]; [|done].
  destruct (run cfg2 evs2) as [cfg3 out3|]; [|done].
  by rewrite app_assoc.
Qed.

(** In [running.sendingMessage] every [internal.sendMessage] event
    forwards its message to the webSocket actor and changes nothing. *)
Lemma drain_sendingMessage c messages :
  drain (running sendingMessage, c) messages
  = Next (running sendingMessage, c) (sendTo (webSocketRef c) <$> messages).
Proof.
  induction messages as [|m messages IH]; [done|].
  cbn [ConsistencyRunner.drain ConsistencyRunner.step]. by rewrite IH.
Qed.

Lemma self_sent_self_send messages : self_sent (self_send <$> messages) = messages.
Proof.
  unfold self_sent. induction messages as [|m messages IH]; [done|].
  simpl. by f_equal.
Qed.

Lemma requests_self_send messages : requests (self_send <$> messages) = [].
Proof. by induction messages. Qed.

Lemma requests_app out out' :
  requests (out ++ out') = (requests out ++ requests out')%list.
Proof. apply omap_app. Qed.

Lemma length_requests_sendTo c (currentTestCase : TestCase) texts :
  length (requests (sendTo (webSocketRef c)
                      <$> imap (λ index text, request c currentTestCase index text) texts))
  = length texts.
Proof.
  rewrite <-(length_imap (λ index text, request c currentTestCase index text) texts).
  assert (Forall (λ m, ∃ d, m = parentActor_sendMessage d)
            (imap (λ index text, request c currentTestCase index text) texts)) as Hall.
  { apply Forall_lookup. intros i m Hm.
    rewrite list_lookup_imap in Hm. destruct (texts !! i); simplify_eq/=.
    unfold request. eauto. }
  induction Hall as [|m ms [d ->] _ IH]; [done|]. simpl. by f_equal.
Qed.

(** Entering [sendingMessage] for a test case with variations, and
    the [internal.sendMessage] events that follow: one request for the
    prompt and one for each variation, and as many pending responses
    as there are variations. *)
Lemma enter_sendingMessage_drained c tc vs :
  testCases c !! currentTestIndex c = Some tc →
  variations tc = Some vs →
  ∃ out,
    enter_sendingMessage c
    = Next (running sendingMessage, set_responses c (Z.of_nat (length vs)) []) out
    ∧ requests out = []
    ∧ ∃ out',
        drain (running sendingMessage, set_responses c (Z.of_nat (length vs)) [])
              (self_sent out)
        = Next (running sendingMessage, set_responses c (Z.of_nat (length vs)) []) out'
        ∧ length (requests out') = S (length vs).
Proof.
  intros Htc Hvs. unfold enter_sendingMessage, sendTestCaseMessages, setPendingResponses.
  rewrite Htc. cbn [mbind option_bind]. rewrite Hvs. cbn [mbind option_bind].
  eexists. split; [done|]. split.
  { apply requests_self_send. }
  eexists. split.
  { rewrite self_sent_self_send. apply drain_sendingMessage. }
  apply (length_requests_sendTo (set_responses c _ _) tc (prompt tc :: vs)).
Qed.

Lemma deliver_pending_response c r r' :
  responseMessageFromJson r = Some r' →
  pendingResponses c ≠ 0%Z →
  deliver (running sendingMessage, c) (webSocket_messageReceived r)
  = Next (running sendingMessage,
          set_responses c (pendingResponses c - 1) (currentResponses c ++ [r'])%list) [].
Proof.
  intros Hr Hpending.
  unfold ConsistencyRunner.deliver, ConsistencyRunner.step, processResponse.
  rewrite Hr. cbn [mbind option_bind].
  unfold allResponsesReceived. by rewrite bool_decide_eq_false_2.
Qed.

Lemma deliver_last_response c r r' :
  responseMessageFromJson r = Some r' →
  pendingResponses c = 0%Z →
  deliver (running sendingMessage, c) (webSocket_messageReceived r)
  = match enter_evaluatingResults
            (set_responses c (pendingResponses c - 1) (currentResponses c ++ [r'])%list) with
    | ActorError => ActorError
    | Next cfg' out =>
        match drain cfg' (self_sent out) with
        | ActorError => ActorError
        | Next cfg'' out' => Next cfg'' (out ++ out')%list
        end
    end.
Proof.
  intros Hr Hpending.
  unfold ConsistencyRunner.deliver, ConsistencyRunner.step, processResponse.
  rewrite Hr. cbn [mbind option_bind].
  unfold allResponsesReceived. by rewrite bool_decide_eq_true_2.
Qed.

(** The responses before the last one of a test case are collected. *)
Lemma collect_responses rs : ∀ c,
  Forall accepted rs →
  pendingResponses c = Z.of_nat (length rs) →
  ∃ rs',
    mapM responseMessageFromJson rs = Some rs'
    ∧ run (running sendingMessage, c) (webSocket_messageReceived <$> rs)
      = Next (running sendingMessage,
              set_responses c 0 (currentResponses c ++ rs')%list) [].
Proof.
  induction rs as [|r rs IH]; intros c Hacc Hpending.
  { exists []. split; [done|]. simpl. rewrite app_nil_r.
    destruct c. simpl in *. by subst. }
  apply Forall_cons in Hacc as [[r' Hr] Hacc].
  destruct (IH (set_responses c (pendingResponses c - 1) (currentResponses c ++ [r'])%list))
    as (rs' & Hrs' & Hrun); [done|simpl in *; lia|].
  exists (r' :: rs'). split.
  { cbn. rewrite Hr. cbn. by rewrite Hrs'. }
  cbn [fmap list_fmap ConsistencyRunner.run].
  rewrite (deliver_pending_response c r r') by (simpl in *; lia || done).
  rewrite Hrun. simpl. by rewrite <-app_assoc.
Qed.

Lemma updateTestResults_nonempty c :
  currentResponses c ≠ [] →
  ∃ result,
    updateTestResults c = set_results c (testResults c ++ [result])%list [].
Proof.
  intros Hne. unfold updateTestResults.
  destruct (currentResponses c); [done|]. eauto.
Qed.

(** The loop of [running]: the replies to the current test case, then
    the later test cases with their replies. *)
Lemma consistency_loop batches : ∀ c tc rs vs,
  testCases c !! currentTestIndex c = Some tc →
  variations tc = Some vs →
  length rs = S (length vs) →
  pendingResponses c = Z.of_nat (length vs) →
  currentResponses c = [] →
  Forall2 replies_for (drop (S (currentTestIndex c)) (testCases c)) batches →
  Forall accepted rs →
  Forall (Forall accepted) batches →
  ∃ c' out,
    run (running sendingMessage, c)
        (webSocket_messageReceived <$> (rs ++ concat batches))
    = Next (disconnecting, c') out
    ∧ length (testResults c') = length (testResults c) + S (length batches)
    ∧ testCases c' = testCases c
    ∧ currentTestIndex c' = length (testCases c)
    ∧ progress c' =
        AccuracyRunner.times
          (AccuracyRunner.div_length (length (testCases c)) (length (testCases c))) 100
    ∧ length (requests out) = length (concat batches).
Proof.
  induction batches as [|b batches IH];
    intros c tc rs vs Htc Hvs Hlen Hpending Hcur Hrest Hacc Haccs.
  all: destruct rs as [|r rs _] using rev_ind; [done|].
  all: rewrite length_app in Hlen; simpl in Hlen.
  all: apply Forall_app in Hacc as [Hacc [[r' Hr] _]%Forall_cons].
  all: destruct (collect_responses rs c) as (rs' & Hrs' & Hcollect); [done|lia|].
  all: rewrite <-app_assoc, fmap_app, consistency_run_app, Hcollect.
  all: cbn [app fmap list_fmap ConsistencyRunner.run].
  all: rewrite (deliver_last_response _ r r') by done.
  all: unfold enter_evaluatingResults.
  all: destruct (updateTestResults_nonempty
         (set_responses (set_responses c 0 (currentResponses c ++ rs'))
            (pendingResponses (set_responses c 0 (currentResponses c ++ rs')) - 1)
            (currentResponses (set_responses c 0 (currentResponses c ++ rs')) ++ [r'])))
         as [result ->]; [simpl; by destruct (currentResponses c ++ rs')%list|].
  all: pose proof (lookup_lt_Some _ _ _ Htc) as Hidx.
  - (* the last test case *)
    apply Forall2_nil_inv_r in Hrest.
    apply (f_equal length) in Hrest. rewrite length_drop in Hrest. simpl in Hrest.
    unfold testIsComplete. rewrite bool_decide_eq_true_2 by (simpl; lia).
    unfold enter_disconnecting. cbn [self_sent omap ConsistencyRunner.drain].
    eexists _, _. split; [reflexivity|]. simpl.
    split_and!; [rewrite length_app; simpl; lia|done|lia| |done].
    do 2 f_equal. lia.
  - (* a later test case follows *)
    apply Forall2_cons_inv_r in Hrest as (tc' & rest & (vs' & Hvs' & Hlen') & Hrest & Hdrop).
    apply Forall_cons in Haccs as [Hb Haccs].
    assert (testCases c !! S (currentTestIndex c) = Some tc') as Htc'.
    { rewrite <-(Nat.add_0_r (S _)), <-lookup_drop, Hdrop. done. }
    pose proof (lookup_lt_Some _ _ _ Htc') as Hidx'.
    unfold testIsComplete. rewrite bool_decide_eq_false_2 by (simpl; lia).
    set (c3 := increaseCurrentTestIndex _).
    destruct (enter_sendingMessage_drained c3 tc' vs')
      as (out1 & -> & Hreq1 & out2 & -> & Hreq2);
      [subst c3; simpl; by rewrite Nat.add_1_r|done|].
    set (c4 := set_responses c3 _ _).
    destruct (IH c4 tc' b vs') as (c' & out & Hrun & Hres & Hcases & Hi & Hprog & Hreq);
      [subst c4 c3; simpl; by rewrite Nat.add_1_r|done|done|done|done| |done|done|].
    { subst c4 c3. simpl. rewrite Nat.add_1_r.
      replace (S (S (currentTestIndex c))) with (S (currentTestIndex c) + 1) by lia.
      by rewrite <-drop_drop, Hdrop. }
    cbn [concat]. rewrite Hrun.
    eexists _, _. split; [reflexivity|].
    rewrite Hres, Hcases, Hi, Hprog. simpl.
    split_and!; [rewrite length_app; simpl; lia|done..|].
    rewrite !requests_app, !length_app, Hreq1, Hreq2, Hreq. simpl. lia.
Qed.

Lemma full_progress n :
  n ≠ 0 →
  ∃ q, AccuracyRunner.times (AccuracyRunner.div_length n n) 100 = AccuracyRunner.Fin q
       ∧ (q == 100)%Q.
Proof.
  intros Hn. rewrite div_length_Fin by done. eexists. split; [done|].
  rewrite quotient_self by done. reflexivity.
Qed.

(** X5: a complete run of the consistency test runner. From [idle],
    for test cases that all have [variations], with one accepted
    reply per request (one for the prompt and one for each variation
    of each test case) and no pause or stop, the machine reaches
    [disconnecting] with one result per test case, [currentTestIndex]
    equal to the number of test cases and [progress] 100; the number
    of requests it sent to the webSocket actor is the number of
    replies it received. *)
Theorem consistency_runner_completes c (replies : list (list ResponseMessage)) :
  testCases c ≠ [] →
  testResults c = [] → currentTestIndex c = 0 →
  Forall2 replies_for (testCases c) replies →
  Forall (Forall (λ r, is_Some (responseMessageFromJson r))) replies →
  ∃ c' out q,
    run (idle, c) ([user_startTest; webSocket_connected]
                   ++ (webSocket_messageReceived <$> concat replies))
    = Next (disconnecting, c') out
    ∧ length (testResults c') = length (testCases c)
    ∧ currentTestIndex c' = length (testCases c)
    ∧ progress c' = AccuracyRunner.Fin q ∧ (q == 100)%Q
    ∧ length (requests out) = length (concat replies).
Proof.
  intros Hne Hres Hidx Hreplies Hacc.
  destruct (testCases c) as [|tc cases] eqn:Hcases; [done|].
  apply Forall2_cons_inv_l in Hreplies as (rs & batches & (vs & Hvs & Hlen) & Hrest & ->).
  apply Forall_cons in Hacc as [Hrs Hacc].
  cbn [app ConsistencyRunner.run].
  change (deliver (idle, c) user_startTest)
    with (Next (effect := effect) (connecting, c)
            [sendTo (webSocketRef c) (parentActor_connect (sessionId c))]).
  cbv beta iota.
  change (deliver (connecting, c) webSocket_connected)
    with (match enter_sendingMessage c with
          | ActorError => ActorError
          | Next cfg' out =>
              match drain cfg' (self_sent out) with
              | ActorError => ActorError
              | Next cfg'' out' => Next cfg'' (out ++ out')
              end
          end).
  destruct (enter_sendingMessage_drained c tc vs)
    as (out1 & -> & Hreq1 & out2 & -> & Hreq2);
    [by rewrite Hidx, Hcases|done|].
  set (c1 := set_responses c _ _).
  destruct (consistency_loop batches c1 tc rs vs)
    as (c' & out & Hrun & Hlres & Hlcases & Hli & Hprog & Hreq);
    [subst c1; simpl; by rewrite Hidx, Hcases|done..| |done|done|].
  { subst c1. simpl. by rewrite Hidx, Hcases. }
  cbn [concat]. rewrite Hrun.
  destruct (full_progress (length (testCases c1))) as (q & Hq & Hq100).
  { subst c1. simpl. by rewrite Hcases. }
  eexists _, _, q. split; [reflexivity|].
  rewrite Hlres, Hli, Hprog, Hq. subst c1. simpl. rewrite Hres, Hcases.
  apply Forall2_length in Hrest.
  split_and!; [simpl; lia|done..|].
  rewrite !requests_app, !length_app, Hreq1, Hreq2, Hreq, Hlen. simpl. lia.
Qed.

End ConsistencyRunnerFacts.

Section ConsistencyRunnerExamples.
Import ConsistencyRunner.
#[local] Existing Instance RunnerData.ascii.
Local Open Scope list_scope.

Lemma consistency_runner_completes_witness :
  let c := initial_context "run" "s1"
             [ {| messageId := "m1"; prompt := "cheap boards";
                  variations := Some ["boards that are cheap"] |};
               {| messageId := "m2"; prompt := "fast boards"; variations := Some [] |} ]
             "gpt-4o" "llm-router" "keep-none" in
  let r := RunnerData.reply "m1" [RunnerData.board "Alpha"] in
  ∃ c' out q,
    ConsistencyRunner.run Some (idle, c)
      ([user_startTest; webSocket_connected]
       ++ (webSocket_messageReceived <$> concat [[r; r]; [r]]))
    = Next (disconnecting, c') out
    ∧ length (testResults c') = length (testCases c)
    ∧ currentTestIndex c' = length (testCases c)
    ∧ progress c' = AccuracyRunner.Fin q ∧ (q == 100)%Q
    ∧ length (requests out) = length (concat [[r; r]; [r]]).
Proof.
  intros c r.
  apply (consistency_runner_completes Some c [[r; r]; [r]]); [done..| |].
  - repeat constructor; eexists; (split; [reflexivity|done]).
  - repeat constructor; done.
Defined.

End ConsistencyRunnerExamples.

(* ===================================================================== *)
(** * More properties of the webSocket machine *)
(* ===================================================================== *)

Section WebSocketMoreFacts.
Import Js WebSocket WebSocketMore.
Context `{!Host}.
Local Open Scope list_scope.

Lemma webSocket_step_equipped cfg ev cfg' out :
  rests cfg → equipped cfg → step cfg ev = Next cfg' out → equipped cfg'.
Proof.
  destruct cfg as [s c]. unfold rests, equipped. simpl. intros Hrest Hinv Hstep.
  destruct s; try done; destruct ev;
    cbn -[sendMessage enter_reconnecting] in Hstep;
    try rewrite enter_reconnecting_fresh in Hstep by done;
    try destruct (sendMessage _ _);
    simplify_eq; simpl; eauto.
Qed.

Lemma webSocket_reachable_equipped cfg : reachable cfg → equipped cfg.
Proof.
  induction 1 as [|cfg ev cfg' out Hreach IH Hstep]; [done|].
  eapply webSocket_step_equipped; [|done..]. by apply webSocket_reachable_rests.
Qed.

(** X10: the machine sends [webSocket.disconnected] to its parent only
    in answer to [parentActor.disconnect] received in [connected], and
    is in [idle] afterwards. In particular a connection that fails or
    drops ([socketConnector] rejecting, [socketListener.disconnected])
    is never reported to the parent as a disconnection. *)
Theorem webSocket_disconnected_only_on_request cfg ev cfg' out :
  step cfg ev = Next cfg' out →
  tells_disconnected out = true →
  cfg.1 = connected ∧ ev = parentActor_disconnect ∧ cfg'.1 = idle.
Proof.
  destruct cfg as [s c]. intros Hstep Hout.
  destruct s, ev; cbn -[sendMessage] in Hstep;
    unfold enter_reconnecting, enter_disconnecting, enter_connecting in Hstep;
    try destruct (canReconnect _);
    try (unfold sendMessage in Hstep;
         destruct (parse _ _) as [[]|]; simpl in Hstep; try destruct (socket c));
    simplify_eq; try done; try by split_and!.
Qed.

(** X11: in every reachable [connected] configuration the context
    holds a session and a socket, so that a [parentActor.sendMessage]
    whose data passes [RequestDataSchema] is emitted on that socket as
    one [text_message] (the optional call [context.socket?.emit] is
    never skipped), and the configuration is unchanged. *)
Theorem webSocket_connected_emits c data cfg' out :
  reachable (connected, c) →
  step (connected, c) (parentActor_sendMessage data) = Next cfg' out →
  cfg' = (connected, c)
  ∧ ∃ sk sid payload,
      socket c = Some sk ∧ sessionId c = Some sid
      ∧ out = [socket_emit sk "text_message" payload].
Proof.
  intros [[sid Hsid] [sk Hsk]]%webSocket_reachable_equipped Hstep.
  simpl in Hsid, Hsk. cbn -[sendMessage] in Hstep.
  destruct (sendMessage c _) as [out'|] eqn:Hsend; [|done].
  injection Hstep as <- <-. split; [done|].
  unfold sendMessage in Hsend. destruct (parse _ _) as [[]|]; try done.
  rewrite Hsk in Hsend. injection Hsend as <-. eauto 10.
Qed.

End WebSocketMoreFacts.

(* ===================================================================== *)
(** * Properties of the chat machine *)
(* ===================================================================== *)

Section ChatMachineFacts.
Import Js ChatMachine.
Context `{!Host}.
Variable toISOString : Z → string.
Local Open Scope list_scope.

Abbreviation step := (ChatMachine.step toISOString).
Abbreviation run := (ChatMachine.run toISOString).

(** What one event can change: the state, the settings, and the end
    of the history. *)
Lemma chat_step_frame cfg ev cfg' out :
  step cfg ev = Next cfg' out →
  sessionId cfg'.2 = sessionId cfg.2
  ∧ webSocketRef cfg'.2 = webSocketRef cfg.2
  ∧ chatHistory cfg.2 `prefix_of` chatHistory cfg'.2
  ∧ (model cfg'.2, architecture cfg'.2, historyManagement cfg'.2)
    = last_settings [ev]
        (model cfg.2, architecture cfg.2, historyManagement cfg.2).
Proof.
  destruct cfg as [s c]. intros Hstep.
  unfold ChatMachine.step, enter_connecting in Hstep.
  destruct ev, s as [| |[]|]; try destruct (parse _ _);
    simplify_eq; simpl; split_and!;
    first [done | reflexivity | by apply prefix_app_r].
Qed.

Lemma last_settings_cons ev evs settings :
  last_settings (ev :: evs) settings = last_settings evs (last_settings [ev] settings).
Proof. done. Qed.

(** X12: along every run of the chat machine that does not stop in
    error, [sessionId] and [webSocketRef] keep their values, the chat
    history only grows at its end (the earlier history is a prefix of
    the later one), and the three settings are those of the last
    [app.updateState] event, in whatever state it arrived (the
    initial ones when there was none). *)
Theorem chat_run_frame cfg evs cfg' out :
  run cfg evs = Next cfg' out →
  sessionId cfg'.2 = sessionId cfg.2
  ∧ webSocketRef cfg'.2 = webSocketRef cfg.2
  ∧ chatHistory cfg.2 `prefix_of` chatHistory cfg'.2
  ∧ (model cfg'.2, architecture cfg'.2, historyManagement cfg'.2)
    = last_settings evs (model cfg.2, architecture cfg.2, historyManagement cfg.2).
Proof.
  revert cfg out. induction evs as [|ev evs IH]; intros cfg out Hrun.
  { simpl in Hrun. by simplify_eq. }
  cbn [ChatMachine.run] in Hrun.
  destruct (step cfg ev) as [cfg1 out1|] eqn:Hstep; [|done].
  destruct (run cfg1 evs) as [cfg2 out2|] eqn:Hrest; [|done].
  injection Hrun as -> <-.
  destruct (chat_step_frame _ _ _ _ Hstep) as (Hs1 & Hw1 & Hh1 & Hset1).
  destruct (IH _ _ Hrest) as (Hs2 & Hw2 & Hh2 & Hset2).
  rewrite last_settings_cons, <-Hset1.
  split_and!; [congruence|congruence|by etrans|done].
Qed.

(** The fields of the two objects of [user.sendMessage]. *)
Lemma request_data_fields c messageId message sent_at :
  let d := request_data toISOString c messageId message sent_at in
  prop d "type" = VStr "textMessage"
  ∧ prop d "sessionId" = VStr (sessionId c)
  ∧ prop d "messageId" = VStr messageId
  ∧ prop d "message" = VStr message
  ∧ prop d "timestamp" = VStr (toISOString sent_at)
  ∧ prop d "model" = model c
  ∧ prop d "architectureChoice" = architecture c
  ∧ prop d "historyManagementChoice" = historyManagement c.
Proof. split_and!; by vm_compute. Qed.

Lemma request_message_fields c messageId message stored_at :
  let d := request_message c messageId message stored_at in
  prop d "messageId" = VStr messageId
  ∧ prop d "timestamp" = VDate (Some stored_at)
  ∧ prop d "isUserMessage" = VBool true
  ∧ prop d "isComplete" = VBool true
  ∧ prop d "model" = model c
  ∧ prop d "architectureChoice" = architecture c
  ∧ prop d "historyManagementChoice" = historyManagement c
  ∧ prop d "message" = VStr message.
Proof. split_and!; by vm_compute. Qed.

(** X13: [user.sendMessage] in [chatting.awaitingUserInput], when its
    request passes [RequestDataSchema]: the machine moves to
    [processingMessage], sends exactly one [parentActor.sendMessage]
    whose data is the request built from the event, the session and
    the current settings, and appends one item to the history; that
    item is accepted unchanged by [ChatHistoryItemSchema], so a saved
    history with it can be restored. In every other state the event
    is dropped: nothing is sent and nothing is recorded. *)
Theorem chat_user_message c messageId message sent_at stored_at cfg' out :
  let ev := user_sendMessage messageId message sent_at stored_at in
  let data := VObj (request_data toISOString c messageId message sent_at) in
  let item := VObj (request_message c messageId message stored_at) in
  step (chatting awaitingUserInput, c) ev = Next cfg' out →
  cfg' = (chatting processingMessage, add_history c item)
  ∧ out = [sendTo (webSocketRef c) (parentActor_sendMessage data)]
  ∧ parse ChatHistoryItemSchema item = Some item
  ∧ ∀ s, s ≠ chatting awaitingUserInput → step (s, c) ev = Next (s, c) [].
Proof.
  intros ev data item Hstep.
  assert (∀ s, s ≠ chatting awaitingUserInput → step (s, c) ev = Next (s, c) [])
    as Hdropped.
  { by intros [| |[]|] Hs. }
  unfold ChatMachine.step in Hstep. subst ev. cbv beta iota in Hstep.
  destruct (parse RequestDataSchema _) as [parsed|] eqn:Hparse; [|done].
  injection Hstep as <- <-.
  pose proof (request_data_fields c messageId message sent_at)
    as (Htype & Hsid & Hmid & Hmsg & Hts & Hmodel & Harch & Hhist).
  pose proof (request_message_fields c messageId message stored_at)
    as (Imid & Its & Iuser & Icomplete & Imodel & Iarch & Ihist & Imsg).
  (* the request was accepted: the three settings are in their enums *)
  assert (is_Some (parse RequestDataSchema
                     (VObj (request_data toISOString c messageId message sent_at))))
    as Hacc by eauto.
  unfold RequestDataSchema in Hacc. rewrite parse_object_is_Some in Hacc.
  repeat (apply Forall_cons in Hacc as [?Hfield Hacc]). clear Hacc.
  cbn [fst snd] in *.
  rewrite Hmodel in Hfield4. rewrite Harch in Hfield5. rewrite Hhist in Hfield6.
  apply parse_enum_is_Some in Hfield4, Hfield5, Hfield6.
  split_and!; [done| |  |done].
  - (* the request is the object that was given to the schema *)
    unfold RequestDataSchema in Hparse.
    rewrite parse_object_exact in Hparse; [by injection Hparse as <-|compute_done|..].
    + intros k Hk%list_to_map_dom. exact Hk.
    + repeat constructor; cbn [fst snd];
        rewrite ?Htype, ?Hsid, ?Hmid, ?Hmsg, ?Hts, ?Hmodel, ?Harch, ?Hhist; done.
  - (* the history item is a request message *)
    unfold ChatHistoryItemSchema. rewrite parse_union.
    unfold item, RequestMessageSchema, BaseMessageShape.
    rewrite parse_object_exact; [done|compute_done|..].
    + intros k Hk%list_to_map_dom. cbn [fmap list_fmap fst] in Hk.
      repeat (apply elem_of_cons in Hk as [->|Hk]; [compute_done|]).
      by apply elem_of_nil in Hk.
    + repeat constructor; cbn [fst snd];
        rewrite ?Imid, ?Its, ?Iuser, ?Icomplete, ?Imodel, ?Iarch, ?Ihist, ?Imsg; done.
Qed.

End ChatMachineFacts.

(* ===================================================================== *)
(** * Persistence of the state of a chat actor *)
(* ===================================================================== *)

Section ChatActorFacts.
Import Js Chat ChatMachine ChatActor.
Context `{!Host}.
Variable toISOString : Z → string.
Local Open Scope list_scope.

Abbreviation step := (ChatMachine.step toISOString).
Abbreviation run := (ChatMachine.run toISOString).

Lemma context_object_fields c :
  let o := context_object c in
  o !! "sessionId" = Some (VStr (sessionId c))
  ∧ o !! "webSocketRef" = Some (webSocketRef c)
  ∧ o !! "chatHistory" = Some (VArr (chatHistory c))
  ∧ o !! "model" = Some (model c)
  ∧ o !! "architecture" = Some (architecture c)
  ∧ o !! "historyManagement" = Some (historyManagement c).
Proof. split_and!; by vm_compute. Qed.

Lemma mapM_outputs {A B} (f : A → option B) l l' :
  mapM f l = Some l' → Forall (λ y, ∃ x, f x = Some y) l'.
Proof.
  intros Hm%mapM_Some. induction Hm; constructor; eauto.
Qed.

(** The history that the factory returns holds outputs of
    [ChatHistoryItemSchema.parse]. *)
Lemma factory_history c :
  built_by_factory c → Forall stored_item (chatHistory c).
Proof.
  intros (uuid & ref & input & Hparse).
  unfold context_factory, ChatContextSchema in Hparse.
  set (object := list_to_map _) in Hparse.
  rewrite parse_object in Hparse.
  apply fmap_Some in Hparse as (out & Hout & [= Heq]).
  pose proof (λ Hnd, parse_fields_output object _ out "chatHistory"
                (ZArray ChatHistoryItemSchema) Hnd Hout) as Hfield.
  destruct Hfield as (r & Hr & Hprop & _); [exact ChatContextSchema_keys|..].
  { do 2 apply list_elem_of_further. apply list_elem_of_here. }
  destruct (parse_array ChatHistoryItemSchema (prop object "chatHistory"))
    as (l & l' & _ & Hl & Hparse'); [by eauto|].
  rewrite Hr in Hparse'. injection Hparse' as ->.
  destruct (context_object_fields c) as (_ & _ & Hh & _).
  rewrite Heq in Hh. unfold prop in Hprop. rewrite Hh in Hprop.
  injection Hprop as ->.
  eapply Forall_impl; [by eapply mapM_outputs|].
  intros item [v Hv]. left. eauto.
Qed.

(** An item of the history is parsed to itself when it is accepted. *)
Lemma stored_item_unchanged item r :
  stored_item item → parse ChatHistoryItemSchema item = Some r → r = item.
Proof.
  intros [[v Hv]|[v Hv]] Hr.
  - by eapply stable_ChatHistoryItemSchema.
  - unfold ChatHistoryItemSchema in Hr. rewrite parse_union in Hr.
    rewrite (response_is_no_request v item Hv) in Hr.
    by eapply stable_ResponseMessageSchema.
Qed.

Lemma stored_items_unchanged hist hist' :
  Forall stored_item hist →
  mapM (parse ChatHistoryItemSchema) hist = Some hist' → hist' = hist.
Proof.
  intros Hitems Hm%mapM_Some. induction Hm as [|x y l k Hxy _ IH]; [done|].
  apply Forall_cons in Hitems as [Hx Hitems]. f_equal; [|by apply IH].
  by apply stored_item_unchanged.
Qed.

(** The history item of a request that [RequestDataSchema] accepted
    is a request message. *)
Lemma request_item_stored c messageId message sent_at stored_at :
  is_Some (parse RequestDataSchema
             (VObj (request_data toISOString c messageId message sent_at))) →
  stored_item (VObj (request_message c messageId message stored_at)).
Proof.
  intros Hacc. left. exists (VObj (request_message c messageId message stored_at)).
  pose proof (request_data_fields toISOString c messageId message sent_at)
    as (_ & _ & _ & _ & _ & Hmodel & Harch & Hhist).
  pose proof (request_message_fields c messageId message stored_at)
    as (Imid & Its & Iuser & Icomplete & Imodel & Iarch & Ihist & Imsg).
  unfold RequestDataSchema in Hacc. rewrite parse_object_is_Some in Hacc.
  repeat (apply Forall_cons in Hacc as [?Hfield Hacc]). clear Hacc.
  cbn [fst snd] in *.
  rewrite Hmodel in Hfield4. rewrite Harch in Hfield5. rewrite Hhist in Hfield6.
  apply parse_enum_is_Some in Hfield4, Hfield5, Hfield6.
  unfold ChatHistoryItemSchema. rewrite parse_union.
  unfold RequestMessageSchema, BaseMessageShape.
  rewrite parse_object_exact; [done|compute_done|..].
  - intros k Hk%list_to_map_dom. cbn [fmap list_fmap fst] in Hk.
    repeat (apply elem_of_cons in Hk as [->|Hk]; [compute_done|]).
    by apply elem_of_nil in Hk.
  - repeat constructor; cbn [fst snd];
      rewrite ?Imid, ?Its, ?Iuser, ?Icomplete, ?Imodel, ?Iarch, ?Ihist, ?Imsg; done.
Qed.

Lemma chat_step_stored cfg ev cfg' out :
  from_server ev →
  step cfg ev = Next cfg' out →
  Forall stored_item (chatHistory cfg.2) →
  Forall stored_item (chatHistory cfg'.2).
Proof.
  destruct cfg as [s c]. intros Hev Hstep Hitems.
  unfold ChatMachine.step, enter_connecting in Hstep.
  destruct ev, s as [| |[]|];
    try (destruct (parse RequestDataSchema _) eqn:Hparse);
    simplify_eq; cbn [snd add_history set_settings chatHistory] in *; try done.
  - apply Forall_app. split; [done|]. constructor; [|done]. by right.
  - apply Forall_app. split; [done|]. constructor; [|done].
    eapply request_item_stored. by rewrite Hparse.
Qed.

Lemma chat_run_stored cfg evs cfg' out :
  Forall from_server evs →
  run cfg evs = Next cfg' out →
  Forall stored_item (chatHistory cfg.2) →
  Forall stored_item (chatHistory cfg'.2).
Proof.
  intros Hevs. revert cfg out.
  induction Hevs as [|ev evs Hev _ IH]; intros cfg out Hrun Hitems.
  { simpl in Hrun. by simplify_eq. }
  cbn [ChatMachine.run] in Hrun.
  destruct (step cfg ev) as [cfg1 out1|] eqn:Hstep; [|done].
  destruct (run cfg1 evs) as [cfg2 out2|] eqn:Hrest; [|done].
  injection Hrun as -> <-.
  eapply IH; [done|]. by eapply chat_step_stored.
Qed.

(** The round trip on a context whose history items are parsed to
    themselves. *)
Lemma round_trip_of_stored_items c state :
  is_Some (parse ChatContextSchema (VObj (context_object c))) →
  Forall stored_item (chatHistory c) →
  deserializeChatState
    (VObj (serializeChatState (Snapshot (context_object c) state)))
  = Some (<["webSocketRef" := VUndefined]> (context_object c)).
Proof.
  intros Hok Hitems.
  destruct (round_trip_parses_history (context_object c) state Hok)
    as (d & hist & hist' & Hd & Hhist & Hm & Hdh & _ & _ & Hsid & Hmodel & Harch
        & Hhm & Hws).
  rewrite Hd. f_equal. 
  destruct (context_object_fields c) as (Fs & Fw & Fh & Fm & Fa & Fhm).
  rewrite Fh in Hhist. injection Hhist as <-.
  apply stored_items_unchanged in Hm; [|done]. subst hist'.
  assert (∀ k, is_Some (d !! k) →
               k ∈ ["sessionId"; "webSocketRef"; "chatHistory"; "model";
                    "architecture"; "historyManagement"]) as Hdom.
  { intros k Hk. unfold deserializeChatState, ChatContextSchema in Hd.
    rewrite parse_object in Hd.
    destruct (parse_fields _ _) as [out|] eqn:Hout; [|done].
    cbn [fmap option_fmap option_map mbind option_bind] in Hd.
    injection Hd as <-.
    destruct (decide (k = "webSocketRef")) as [->|Hne]; [compute_done|].
    rewrite lookup_insert_ne in Hk by done.
    by apply (parse_fields_dom _ _ _ _ Hout) in Hk. }
  apply map_eq. intros k.
  destruct (decide (k = "webSocketRef")) as [->|Hws'].
  { by rewrite Hws, lookup_insert_eq. }
  rewrite lookup_insert_ne by done.
  destruct (decide (k ∈ ["sessionId"; "webSocketRef"; "chatHistory"; "model";
                         "architecture"; "historyManagement"])) as [Hin|Hout].
  - repeat (apply elem_of_cons in Hin as [->|Hin]; [by rewrite ?Fh|]).
    by apply elem_of_nil in Hin.
  - destruct (d !! k) eqn:Hdk; [by destruct Hout; apply Hdom|].
    symmetry. apply eq_None_not_Some. intros Hk. apply Hout.
    by apply list_to_map_dom in Hk.
Qed.

(** C6: for every chat actor, that is for every context [c] that
    the machine reaches from a context built by its factory, by any
    events whose replies come from the webSocket actor: when [c]
    satisfies [ChatContextSchema],
    [deserializeChatState(serializeChatState(actor))] returns [c]
    with [webSocketRef] set to [undefined] and nothing else changed,
    added or removed: [sessionId], [chatHistory], [model],
    [architecture] and [historyManagement] are those of [c]. *)
Theorem chat_actor_round_trip c0 evs s c out :
  built_by_factory c0 →
  Forall from_server evs →
  run (idle, c0) evs = Next (s, c) out →
  is_Some (parse ChatContextSchema (VObj (context_object c))) →
  ∃ d,
    deserializeChatState
      (VObj (serializeChatState (Snapshot (context_object c) (state_value s))))
    = Some d
    ∧ d = <["webSocketRef" := VUndefined]> (context_object c)
    ∧ d !! "sessionId" = Some (VStr (sessionId c))
    ∧ d !! "chatHistory" = Some (VArr (chatHistory c))
    ∧ d !! "model" = Some (model c)
    ∧ d !! "architecture" = Some (architecture c)
    ∧ d !! "historyManagement" = Some (historyManagement c)
    ∧ d !! "webSocketRef" = Some VUndefined.
Proof.
  intros Hfactory Hevs Hrun Hok.
  assert (Forall stored_item (chatHistory c)) as Hitems.
  { apply (chat_run_stored _ _ _ _ Hevs Hrun). by apply factory_history. }
  eexists. split; [by apply round_trip_of_stored_items|].
  split; [done|].
  destruct (context_object_fields c) as (Fs & Fw & Fh & Fm & Fa & Fhm).
  rewrite !lookup_insert_ne by done. by rewrite lookup_insert_eq.
Qed.

End ChatActorFacts.

(* ===================================================================== *)
(** * Runs of the app machine *)
(* ===================================================================== *)

Section AppRunFacts.
Import Js App AppRun.
Context `{!Host}.
Variable uuidv4 : string.
Variables (serializeChatState serializeTestState serializeProductState
            : value → option value).
Local Open Scope list_scope.

Abbreviation app_step := (App.step uuidv4
                    serializeChatState serializeTestState serializeProductState).
Abbreviation app_run := (AppRun.run uuidv4
                    serializeChatState serializeTestState serializeProductState).

(** Apart from an import, an event changes no property of the context
    but the three settings. *)
Lemma app_step_frame cfg ev cfg' out k :
  is_import_done ev = false →
  app_step cfg ev = Next cfg' out →
  k ∉ settings_keys →
  context cfg' !! k = context cfg !! k.
Proof.
  intros Hev Hstep Hk.
  assert (k ≠ "model" ∧ k ≠ "architecture" ∧ k ≠ "historyManagement")
    as (? & ? & ?).
  { unfold settings_keys in Hk. rewrite !not_elem_of_cons in Hk.
    by destruct Hk as (? & ? & ? & _). }
  destruct cfg as [s h c n]. unfold App.step in Hstep. cbn [st App.context] in Hstep.
  destruct s, ev; try done;
    unfold leave_open, select, enter_history, update_settings, enter_history in Hstep;
    cbn [App.context history next_ref] in Hstep;
    try destruct (serializeAppState _ _ _ _);
    simplify_eq; cbn [App.context]; try done;
    by rewrite !lookup_insert_ne.
Qed.

(** A run without a successful import keeps every property of the
    context other than the three settings. *)
Lemma app_run_keeps cfg evs cfg' out k :
  Forall (λ ev, is_import_done ev = false) evs →
  app_run cfg evs = Next cfg' out →
  k ∉ settings_keys →
  context cfg' !! k = context cfg !! k.
Proof.
  intros Hevs Hrun Hk. revert cfg out Hrun.
  induction Hevs as [|ev evs Hev _ IH]; intros cfg out Hrun.
  { simpl in Hrun. by simplify_eq. }
  cbn [AppRun.run] in Hrun.
  destruct (app_step cfg ev) as [cfg1 out1|] eqn:Hstep; [|done].
  destruct (app_run cfg1 evs) as [cfg2 out2|] eqn:Hrest; [|done].
  injection Hrun as -> <-.
  rewrite (IH _ _ Hrest). by eapply app_step_frame.
Qed.

(** X16: along every run of the app machine without a successful
    import (no [onDone] of the [importState] actor), no property of
    the context other than [model], [architecture] and
    [historyManagement] is changed, added or removed: the references
    [chatRef], [testRef] and [prodRef] stay what they were. *)
Theorem app_run_frame cfg evs cfg' out k :
  Forall (λ ev, is_import_done ev = false) evs →
  app_run cfg evs = Next cfg' out →
  k ∉ settings_keys →
  context cfg' !! k = context cfg !! k.
Proof.
  intros Hevs Hrun Hk. by eapply app_run_keeps.
Qed.

(** X17: starting from the default context, and as long as no state
    was imported, [user.submitExportStateForm] stops the app actor in
    error whenever the export form is open: the input of the
    [exportState] invoke calls [serializeAppState(context)], which
    reads [context.context.model] on a context that has no [context]
    property ([sys.saveState] passes [{ context }] instead). Neither
    the success nor the error notification of the export is emitted. *)
Theorem export_stops_actor evs cfg out fileName :
  Forall (λ ev, is_import_done ev = false) evs →
  app_run initial evs = Next cfg out →
  st cfg = exportingState_displayingExportStateForm →
  app_step cfg (user_submitExportStateForm fileName) = ActorError.
Proof.
  intros Hevs Hrun Hst.
  assert (context cfg !! "context" = None) as Hnone.
  { rewrite (app_run_keeps initial evs cfg out "context" Hevs Hrun); [done|].
    unfold settings_keys. rewrite !not_elem_of_cons. split_and!; try done.
    apply not_elem_of_nil. }
  unfold App.step. rewrite Hst. unfold serializeAppState, prop. by rewrite Hnone.
Qed.

End AppRunFacts.

(* ===================================================================== *)
(** * Properties of the test machine *)
(* ===================================================================== *)

Section TestMachineFacts.
Import Js TestTypes TestRunners TestMachine.
Context `{!Host}.
Local Open Scope list_scope.

Lemma testRunnerMachine_None testType :
  testRunnerMachine testType = None ↔ testType ∉ TEST_TYPES.
Proof.
  split.
  - intros Hnone Hin. unfold TEST_TYPES in Hin.
    repeat (apply elem_of_cons in Hin as [->|Hin]; [by vm_compute in Hnone|]).
    by apply elem_of_nil in Hin.
  - intros Hnot. unfold testRunnerMachine.
    repeat (destruct (decide _) as [->|_]; [exfalso; apply Hnot; compute_done|]).
    done.
Qed.

Lemma parse_list_is_Some item l :
  is_Some (parse (ZArray item) (VArr l))
  ↔ Forall (λ x, is_Some (parse item x)) l.
Proof.
  change (parse (ZArray item) (VArr l)) with (VArr <$> mapM (parse item) l).
  rewrite fmap_is_Some, mapM_is_Some. done.
Qed.

(** The fields of the object that a [context] factory gives to its
    schema, for the input of [user.createTest]. *)
Ltac factory_fields :=
  repeat match goal with
         | |- context [prop (context_object ?m ?i) ?k] =>
             let v := eval vm_compute in (prop (context_object m i) k) in
             change (prop (context_object m i) k) with v
         end.

(** The [context] factory of every runner accepts the input of
    [user.createTest] exactly when the three settings are in their
    enums and every test case satisfies [TestCaseSchema]. *)
Lemma runner_context_createTest machine c name id testCase :
  is_Some (runner_context machine (runner_input_of c name id testCase))
  ↔ spawnable c testCase.
Proof.
  unfold spawnable, runner_context. rewrite <-parse_list_is_Some.
  destruct machine; unfold context_schema;
    [unfold AccuracyTestRunnerContextSchema
    |unfold ConsistencyTestRunnerContextSchema
    |unfold FeatureInferenceTestRunnerContextSchema
    |unfold ContextRetentionTestRunnerContextSchema
    |unfold RobustnessTestRunnerContextSchema
    |unfold ConversationalFlowTestRunnerContextSchema
    |unfold DefensibilityTestRunnerContextSchema];
    rewrite parse_object_is_Some, !Forall_cons, Forall_nil; cbn [fst snd];
    factory_fields;
    (split; [intros Hall; by decompose [and] Hall
            |intros (? & ? & ? & ?); split_and!; by eauto]).
Qed.

(** X18: [user.createTest] in [displayingTest]. The [switch] over the
    test type knows exactly the seven [TEST_TYPES]: for any other
    type the assigner throws and the actor stops in error. For a
    known type the runner is spawned, which builds its context with
    the [context] factory of its machine: the factory accepts the
    input exactly when the three settings of the test machine are in
    their enums and every test case of the event satisfies
    [TestCaseSchema]. When it does not, [spawn] throws and the actor
    stops in error; when it does, one test is appended to [tests],
    its runner is spawned with the name, id and test cases of the
    event and the settings of the machine, the machine shows the
    test details, and [selectedTest] and the settings are unchanged.
    In [idle] the event is dropped. *)
Theorem createTest_outcome sub c next testType name id testCase createdAt :
  let ev := user_createTest testType name id testCase createdAt in
  let input := runner_input_of c name id testCase in
  match testRunnerMachine testType with
  | None =>
      (testType ∉ TEST_TYPES)
      ∧ step (displayingTest sub, c, next) ev = ActorError
  | Some machine =>
      testType ∈ TEST_TYPES
      ∧ (is_Some (runner_context machine input) ↔ spawnable c testCase)
      ∧ (¬ spawnable c testCase →
         step (displayingTest sub, c, next) ev = ActorError)
      ∧ (spawnable c testCase →
         ∃ c',
           step (displayingTest sub, c, next) ev
           = Next (displayingTest (displayingTestDetails displayingSelectedTest),
                   c', S next)
                  [spawn next machine input]
           ∧ tests c' = tests c ++ [newTest testType name id createdAt next]
           ∧ selectedTest c' = selectedTest c
           ∧ (model c', architecture c', historyManagement c')
             = (model c, architecture c, historyManagement c))
  end
  ∧ step (idle, c, next) ev = Next (idle, c, next) [].
Proof.
  intros ev input. split; [|done].
  destruct (testRunnerMachine testType) as [machine|] eqn:Hm.
  - pose proof (runner_context_createTest machine c name id testCase) as Hspawn.
    fold input in Hspawn. split_and!.
    + destruct (decide (testType ∈ TEST_TYPES)) as [|Hno]; [done|].
      apply (proj2 (testRunnerMachine_None _)) in Hno. congruence.
    + done.
    + intros Hno.
      assert (runner_context machine input = None) as Hnone.
      { apply eq_None_not_Some. by rewrite Hspawn. }
      subst ev input.
      destruct sub as [|[]]; unfold step;
        cbn -[runner_context runner_input_of testRunnerMachine];
        by rewrite Hm, Hnone.
    + intros [ctx Hctx]%Hspawn.
      subst ev input.
      destruct sub as [|[]]; unfold step;
        cbn -[runner_context runner_input_of testRunnerMachine];
        rewrite Hm, Hctx; by eexists.
  - split; [by apply testRunnerMachine_None|].
    subst ev.
    destruct sub as [|[]]; unfold step;
      cbn -[runner_context runner_input_of testRunnerMachine]; by rewrite Hm.
Qed.

End TestMachineFacts.

(* ===================================================================== *)
(** * Properties of the product machine *)
(* ===================================================================== *)

Section ProductMachineFacts.
Import Js ProductMachine.
Local Open Scope list_scope.

Lemma fetched_pages_app out out' :
  fetched_pages (out ++ out') = fetched_pages out ++ fetched_pages out'.
Proof. apply omap_app. Qed.

Lemma product_step_well_formed cfg ev :
  well_formed cfg →
  ∃ cfg' out,
    step cfg ev = Next cfg' out ∧ well_formed cfg'
    ∧ Forall (λ page, 0 ≤ page)%Z (fetched_pages out).
Proof.
  destruct cfg as [s c]. unfold well_formed. simpl. intros [Hpage Hproduct].
  assert (∀ cfg' out (r : outcome config effect),
            r = Next cfg' out →
            well_formed cfg' ∧ Forall (λ page, 0 ≤ page)%Z (fetched_pages out) →
            ∃ cfg' out, r = Next cfg' out ∧ well_formed cfg'
                        ∧ Forall (λ page, 0 ≤ page)%Z (fetched_pages out))
    as Hdone by (intros ? ? ? ? [? ?]; eauto).
  unfold well_formed in Hdone.
  assert (∀ page, (0 ≤ page)%Z → Forall (λ page, 0 ≤ page)%Z [page]) as Hone
    by (by repeat constructor).
  destruct s as [|[| |m|a]].
  - destruct ev; (eapply Hdone; [reflexivity|]); simpl;
      split_and!; first [lia | done | by eauto | by constructor | apply Hone; lia].
  - destruct ev; (eapply Hdone; [reflexivity|]); simpl;
      split_and!; first [lia | done | by eauto | by constructor | apply Hone; lia].
  - destruct ev; simpl; unfold canGoToNextPage, canGoToPreviousPage;
      repeat case_bool_decide;
      (eapply Hdone; [reflexivity|]); simpl;
      split_and!; first [lia | done | by eauto | by constructor | apply Hone; lia].
  - destruct Hproduct as [p Hp].
    destruct m, ev; simpl; rewrite ?Hp;
      (eapply Hdone; [reflexivity|]); simpl;
      split_and!; first [lia | done | by eauto | by constructor | apply Hone; lia].
  - destruct a, ev; (eapply Hdone; [reflexivity|]); simpl;
      split_and!; first [lia | done | by eauto | by constructor | apply Hone; lia].
Qed.

(** X19: the product machine never stops in error: for every
    sequence of events and promise results from its initial
    configuration the run ends in a configuration. The page number
    is never negative, no negative page is ever requested from the
    server, and a product is selected whenever the detail modal is
    open, so that the "No product selected" error of the
    [productUpdater] input cannot be raised. *)
Theorem product_machine_never_fails evs :
  ∃ cfg out,
    run initial evs = Next cfg out
    ∧ well_formed cfg
    ∧ Forall (λ page, 0 ≤ page)%Z (fetched_pages out).
Proof.
  assert (well_formed initial) as Hinit by (split; simpl; [lia|done]).
  revert Hinit. generalize initial.
  induction evs as [|ev evs IH]; intros cfg Hcfg.
  { exists cfg, []. split_and!; [done..|constructor]. }
  destruct (product_step_well_formed cfg ev Hcfg)
    as (cfg1 & out1 & Hstep & Hcfg1 & Hout1).
  destruct (IH cfg1 Hcfg1) as (cfg2 & out2 & Hrun & Hcfg2 & Hout2).
  exists cfg2, (out1 ++ out2). simpl. rewrite Hstep, Hrun.
  split_and!; [done..|]. rewrite fetched_pages_app. by apply Forall_app.
Qed.

End ProductMachineFacts.

(* ===================================================================== *)
(** * The properties on example data *)
(* ===================================================================== *)

Section WebSocketWitnesses.
Import Js WebSocket WebSocketMore Examples.

Lemma reachable_connecting :
  reachable (H := host)
    (connecting, {| socket := None; sessionId := Some "s1"; reconnectionAttempts := 0 |}).
Proof.
  by apply (reachable_step (H := host) initial (parentActor_connect "s1") _
              [invoke_socketConnector (Some "s1")] (reachable_initial (H := host))).
Defined.

Lemma reachable_connected : reachable (H := host) (connected, connected_context).
Proof.
  by apply (reachable_step (H := host) _ (socketConnector_done 7 VNull) _
              [sendParent webSocket_connected;
               emit (Notification "success" "Connected to the server");
               invoke_socketListener (Some 7)] reachable_connecting).
Defined.

Lemma webSocket_never_retries_witness :
  initial.1 = idle ∧ ∃ sid, parentActor_connect "s1" = parentActor_connect sid.
Proof.
  apply (webSocket_never_retries (H := host) initial (parentActor_connect "s1")
           (connecting, {| socket := None; sessionId := Some "s1";
                           reconnectionAttempts := 0 |})
           [invoke_socketConnector (Some "s1")]);
    [apply reachable_initial|reflexivity|reflexivity].
Defined.

Lemma webSocket_on_failure_witness :
  ∃ out, step (H := host) (connected, connected_context) socketListener_disconnected
         = Next (idle, {| socket := Some 7; sessionId := Some "s1";
                          reconnectionAttempts := 1 |}) out
         ∧ failure_notified out = true ∧ starts_connection out = false.
Proof.
  apply (webSocket_on_failure (H := host) connected connected_context
           socketListener_disconnected); [apply reachable_connected|by right].
Defined.

Lemma webSocket_disconnected_only_on_request_witness :
  (connected, connected_context).1 = connected
  ∧ parentActor_disconnect = parentActor_disconnect
  ∧ (idle, connected_context).1 = idle.
Proof.
  apply (webSocket_disconnected_only_on_request (H := host)
           (connected, connected_context) parentActor_disconnect
           (idle, connected_context)
           [socket_close 7; sendParent webSocket_disconnected]);
    reflexivity.
Defined.

Lemma webSocket_connected_emits_witness :
  ∃ out,
    (connected, connected_context) = (connected, connected_context)
    ∧ ∃ sk sid payload,
        socket connected_context = Some sk ∧ sessionId connected_context = Some sid
        ∧ out = [socket_emit sk "text_message" payload].
Proof.
  eexists.
  eapply (webSocket_connected_emits (H := host) connected_context (VObj request_data));
    [apply reachable_connected|].
  vm_compute. reflexivity.
Defined.

End WebSocketWitnesses.

Section ChatMachineWitnesses.
Import Js Chat ChatMachine ChatActor MachineData.
Abbreviation host := Examples.host.
Local Open Scope list_scope.

Lemma chat_run_frame_witness :
  let cfg := (idle, chat_start) in
  let evs :=
    [app_startChat; webSocket_connected; user_sendMessage "m1" "hello" 0 1;
     app_updateState (VStr "gpt-4o-mini") (VStr "llm-router") (VStr "keep-none");
     webSocket_messageReceived Examples.stored_response_item] in
  ∃ cfg' out,
    ChatMachine.run (H := host) toISOString cfg evs = Next cfg' out
    ∧ sessionId cfg'.2 = sessionId cfg.2
    ∧ webSocketRef cfg'.2 = webSocketRef cfg.2
    ∧ chatHistory cfg.2 `prefix_of` chatHistory cfg'.2
    ∧ (model cfg'.2, architecture cfg'.2, historyManagement cfg'.2)
      = last_settings evs (model cfg.2, architecture cfg.2, historyManagement cfg.2).
Proof.
  intros cfg evs.
  destruct (ChatMachine.run (H := host) toISOString cfg evs) as [cfg' out|] eqn:Hrun;
    [|by vm_compute in Hrun].
  exists cfg', out. split; [done|].
  apply (chat_run_frame (H := host) toISOString cfg evs cfg' out Hrun).
Defined.

Lemma chat_user_message_witness :
  let data := VObj (request_data toISOString chat_start "m1" "hello" 0) in
  let item := VObj (request_message chat_start "m1" "hello" 1) in
  (chatting processingMessage, add_history chat_start item)
  = (chatting processingMessage, add_history chat_start item)
  ∧ [sendTo (VRef 0) (parentActor_sendMessage data)]
    = [sendTo (webSocketRef chat_start) (parentActor_sendMessage data)]
  ∧ parse (H := host) ChatHistoryItemSchema item = Some item
  ∧ ∀ s, s ≠ chatting awaitingUserInput →
         ChatMachine.step (H := host) toISOString (s, chat_start)
           (user_sendMessage "m1" "hello" 0 1)
         = Next (s, chat_start) [].
Proof.
  apply (chat_user_message (H := host) toISOString chat_start "m1" "hello" 0 1).
  vm_compute. reflexivity.
Defined.

Lemma chat_actor_round_trip_witness :
  let evs :=
    [app_startChat; webSocket_connected; user_sendMessage "m1" "hello" 0 1;
     webSocket_messageReceived Examples.stored_response_item] in
  ∃ s c out d,
    ChatMachine.run (H := host) toISOString (idle, chat_start) evs
    = Next (s, c) out
    ∧ length (chatHistory c) = 2
    ∧ deserializeChatState (H := host)
        (VObj (serializeChatState (Snapshot (context_object c) (state_value s))))
      = Some d
    ∧ d = <["webSocketRef" := VUndefined]> (context_object c)
    ∧ d !! "sessionId" = Some (VStr (sessionId c))
    ∧ d !! "chatHistory" = Some (VArr (chatHistory c))
    ∧ d !! "model" = Some (model c)
    ∧ d !! "architecture" = Some (architecture c)
    ∧ d !! "historyManagement" = Some (historyManagement c)
    ∧ d !! "webSocketRef" = Some VUndefined.
Proof.
  intros evs.
  destruct (ChatMachine.run (H := host) toISOString (idle, chat_start) evs)
    as [[s c] out|] eqn:Hrun; [|by vm_compute in Hrun].
  assert (length (chatHistory c) = 2
          ∧ is_Some (parse (H := host) ChatContextSchema (VObj (context_object c))))
    as [Hlen Hok].
  { pose proof Hrun as Hc. vm_compute in Hc. injection Hc as _ <- _.
    split; [reflexivity|]. apply (bool_decide_unpack _). vm_compute. reflexivity. }
  destruct (chat_actor_round_trip (H := host) toISOString chat_start evs s c out)
    as (d & Hd); [| |exact Hrun|exact Hok|by eauto 10].
  - exists "uuid", (VRef 0), (context_object chat_start).
    vm_compute. reflexivity.
  - repeat constructor. exists Examples.response_item. vm_compute. reflexivity.
Defined.

End ChatMachineWitnesses.

Section AppWitnesses.
Import Js App AppRun MachineData.
Local Open Scope list_scope.

Lemma import_invalid_json_witness :
  submit_import (H := file_host) "uuid" Some Some Some
    (Config importingState_displayingImportStateForm chatting default_context 3)
    broken_file
  = Next (Config importingState_displayingImportStateForm chatting default_context 3)
         [invoke_importState broken_file;
          emit (Notification "error" "Failed to import state")].
Proof.
  apply (import_invalid_json (H := file_host) "uuid" Some Some Some
           chatting default_context 3 broken_file).
  reflexivity.
Defined.



Lemma app_run_frame_witness :
  let evs :=
    [user_updateSetting;
     user_submitUpdateSettingForm "gpt-4o-mini" "llm-router" "keep-all";
     user_selectTest] in
  ∃ cfg' out,
    AppRun.run (H := file_host) "uuid" Some Some Some initial evs = Next cfg' out
    ∧ context cfg' !! "chatRef" = context initial !! "chatRef".
Proof.
  intros evs.
  destruct (AppRun.run (H := file_host) "uuid" Some Some Some initial evs)
    as [cfg' out|] eqn:Hrun; [|by vm_compute in Hrun].
  exists cfg', out. split; [done|].
  apply (app_run_frame (H := file_host) "uuid" Some Some Some initial evs cfg' out
           "chatRef"); [by repeat constructor|exact Hrun|].
  apply (bool_decide_unpack _). vm_compute. reflexivity.
Defined.

Lemma export_stops_actor_witness :
  ∃ cfg out,
    AppRun.run (H := file_host) "uuid" Some Some Some initial [user_exportState]
    = Next cfg out
    ∧ App.step (H := file_host) "uuid" Some Some Some cfg
        (user_submitExportStateForm "state.json")
      = ActorError.
Proof.
  destruct (AppRun.run (H := file_host) "uuid" Some Some Some initial
              [user_exportState]) as [cfg out|] eqn:Hrun; [|by vm_compute in Hrun].
  exists cfg, out. split; [done|].
  apply (export_stops_actor (H := file_host) "uuid" Some Some Some
           [user_exportState] cfg out "state.json"); [by repeat constructor|exact Hrun|].
  vm_compute in Hrun. by injection Hrun as <- _.
Defined.

End AppWitnesses.

Section TestMachineWitnesses.
Import Js TestTypes TestRunners TestMachine MachineData.
Local Open Scope list_scope.

Lemma createTest_outcome_witness :
  let input := runner_input_of test_start "run" "id1" [accuracy_case] in
  ∃ c',
    step (H := Examples.host) (displayingTest displayingTestPage, test_start, 0)
      (user_createTest "accuracy" "run" "id1" [accuracy_case] "today")
    = Next (displayingTest (displayingTestDetails displayingSelectedTest), c', 1)
           [spawn 0 accuracyTestRunnerMachine input]
    ∧ tests c' = tests test_start ++ [newTest "accuracy" "run" "id1" "today" 0]
    ∧ selectedTest c' = selectedTest test_start
    ∧ (model c', architecture c', historyManagement c')
      = (model test_start, architecture test_start, historyManagement test_start).
Proof.
  intros input.
  destruct (createTest_outcome (H := Examples.host) displayingTestPage test_start 0
              "accuracy" "run" "id1" [accuracy_case] "today")
    as [(_ & _ & _ & Hnext) _].
  apply Hnext. unfold spawnable. split_and!.
  - apply (bool_decide_unpack _). vm_compute. reflexivity.
  - apply (bool_decide_unpack _). vm_compute. reflexivity.
  - apply (bool_decide_unpack _). vm_compute. reflexivity.
  - repeat constructor. apply (bool_decide_unpack _). vm_compute. reflexivity.
Defined.

End TestMachineWitnesses.

Section RunnerWitnesses.
Import AccuracyRunner RunnerData.
#[local] Existing Instance ascii.
Local Open Scope list_scope.

Lemma runner_misses_last_case_witness :
  let c := (runner [test_case "t1" "first" "A"; test_case "t2" "second" "B";
                    test_case "t3" "third" "C"]).2 in
  let replies := [reply "t1" [board "A"]; reply "t2" [board "B"];
                  reply "t3" [board "C"]] in
  ∃ c',
    run (idle, c) ([user_startTest; webSocket_connected]
                   ++ map webSocket_messageReceived replies)
    = Next (disconnecting, c')
           (sendTo (webSocketRef c) (parentActor_connect (sessionId c))
            :: (request_for c <$> take (length (testCases c) - 1) (testCases c))
            ++ [sendTo (webSocketRef c) parentActor_disconnect])
    ∧ response <$> testResults c' = take (length (testCases c) - 1) replies
    ∧ length (testResults c') = length (testCases c) - 1
    ∧ testCases c' = testCases c
    ∧ currentTestIndex c' = length (testCases c) - 1.
Proof.
  intros c replies.
  apply (runner_misses_last_case c replies);
    [simpl; lia|done|done| | |simpl; lia].
  - repeat constructor; by eexists.
  - repeat constructor; by eexists.
Defined.

End RunnerWitnesses.

Section SchemaWitnesses.
Import Js Examples.

Lemma ResponseMessageSchema_reparse_witness :
  ∃ r out t,
    parse (H := host) ResponseMessageSchema response_item = Some r
    ∧ r = VObj out
    ∧ prop out "timestamp" = VDate t
    ∧ parse (H := host) ResponseMessageSchema r
      = match t with Some _ => Some r | None => None end.
Proof.
  destruct (parse (H := host) ResponseMessageSchema response_item) as [r|] eqn:Hr;
    [|by vm_compute in Hr].
  destruct (ResponseMessageSchema_reparse (H := host) response_item r Hr)
    as (out & t & H1 & H2 & H3).
  by exists r, out, t.
Defined.

(** A response whose timestamp is not a date is accepted, with an
    Invalid Date, and its output is rejected. *)
Example ResponseMessageSchema_invalid_date :
  is_Some (parse (H := host) ResponseMessageSchema MachineData.undated_response)
  ∧ parse (H := host) ResponseMessageSchema MachineData.undated_response
    ≫= parse (H := host) ResponseMessageSchema = None.
Proof. split; [apply (bool_decide_unpack _)|]; by vm_compute. Qed.

End SchemaWitnesses.
